(** * sax: a streaming XML tokenizer with filters and listeners

    A shallow embedding of [sax.go] (package [sax]) and the properties of
    its reader: entity decoding, the open-element stack, the dispatch of
    listeners, CDATA sections and the subtree skip of [Read]; then the
    termination of [Read] and [Run], and what the reader makes of names,
    tags, attributes, text and comments as they are written.

    Conventions of the embedding.
    - A [rune] is a [Z]; a Go [string] or [bytes.Buffer] is the list of the
      runes it holds ([str]).
    - The [*bufio.Reader] is the list of runes still to be read together
      with the rune [UnreadRune] may give back.
    - A method of [*Reader] is a function in the monad [M]: it takes the
      reader, and gives a value or an [error] and the reader afterwards. A
      loop runs on fuel taken from the length of the input left; a method
      gives no result at all when a loop used its fuel up, which
      [Read_total] and the lemmas before it show never happens.
    - A listener or a filter is a Go closure: it gets the state of the
      program around the reader (the [world]) and gives it back.
    - The reader carries a [trace], which no function reads: every dispatch
      round that is not silenced and every call of a listener is appended
      to it, so that theorems can say what was dispatched. *)

From Stdlib Require Import ZArith List Bool String Ascii Lia.
Import ListNotations.

Local Open Scope Z_scope.

(** ** Runes and strings *)

Abbreviation rune := Z (only parsing).
Abbreviation str := (list Z) (only parsing).

(** The runes of a literal (each character of the literal is one byte and,
    below 128, one rune). *)
Fixpoint runes (s : string) : str :=
  match s with
  | EmptyString => []
  | String a s' => Z.of_N (N_of_ascii a) :: runes s'
  end.

Definition rune_eqb (a b : rune) : bool := Z.eqb a b.

Fixpoint str_eqb (a b : str) : bool :=
  match a, b with
  | [], [] => true
  | x :: a', y :: b' => rune_eqb x y && str_eqb a' b'
  | _, _ => false
  end.

Definition langle : rune := 60.     (* '<' *)
Definition rangle : rune := 62.     (* '>' *)
Definition slash : rune := 47.      (* '/' *)
Definition equal : rune := 61.      (* '=' *)
Definition dquote : rune := 34.     (* the double quote *)
Definition squote : rune := 39.     (* '\'' *)
Definition mark : rune := 63.       (* '?' *)
Definition bang : rune := 33.       (* '!' *)
Definition tab : rune := 9.         (* '\t' *)
Definition space : rune := 32.      (* ' ' *)
Definition nl : rune := 10.         (* '\n' *)
Definition cr : rune := 13.         (* '\r' *)
Definition underscore : rune := 95. (* '_' *)
Definition hyphen : rune := 45.     (* '-' *)
Definition lsquare : rune := 91.    (* '[' *)
Definition rsquare : rune := 93.    (* ']' *)
Definition colon : rune := 58.      (* ':' *)
Definition ampersand : rune := 38.  (* '&' *)
Definition semicolon : rune := 59.  (* ';' *)
Definition pound : rune := 35.      (* '#' *)

(** ** Errors *)

(** The error values of the package, those of the libraries it calls, and
    the two ways [fmt.Errorf] builds one: without [%w] ([Errorf]) and
    around another error ([Wrapf]). The arguments of the format other than
    the wrapped error are kept as strings. *)
Inductive error : Type :=
| io_EOF
| ErrInvalidUnreadRune
| ErrSyntax
| ErrRange
| ErrSkip
| ErrIgnore
| ErrStop
| ErrUnsubscribe
| ErrChar
| ErrMalformed
| Errorf (format : string) (args : list str)
| Wrapf (format : string) (args : list str) (e : error).

(** [err == target] for a target that is one of the values above. *)
Definition same_error (err target : error) : bool :=
  match err, target with
  | io_EOF, io_EOF => true
  | ErrInvalidUnreadRune, ErrInvalidUnreadRune => true
  | ErrSyntax, ErrSyntax => true
  | ErrRange, ErrRange => true
  | ErrSkip, ErrSkip => true
  | ErrIgnore, ErrIgnore => true
  | ErrStop, ErrStop => true
  | ErrUnsubscribe, ErrUnsubscribe => true
  | ErrChar, ErrChar => true
  | ErrMalformed, ErrMalformed => true
  | _, _ => false
  end.

(** [errors.Is]: the target is the error or one it wraps. *)
Fixpoint errors_Is (err target : error) : bool :=
  same_error err target ||
  match err with
  | Wrapf _ _ e => errors_Is e target
  | _ => false
  end.

(** ** Character classes *)

Definition isLetter (r : rune) : bool :=
  ((97 <=? r) && (r <=? 122)) || ((65 <=? r) && (r <=? 90)).

Definition isDigit (r : rune) : bool := (48 <=? r) && (r <=? 57).

Definition isName (r : rune) : bool :=
  isLetter r || isDigit r || (r =? hyphen) || (r =? underscore).

Definition isHex (r : rune) : bool :=
  isDigit r || ((97 <=? r) && (r <=? 102)) || ((65 <=? r) && (r <=? 70)).

Definition isQuote (r : rune) : bool := (r =? dquote) || (r =? squote).

Definition isSpace (r : rune) : bool := (r =? space) || (r =? tab).

Definition isNL (r : rune) : bool := (r =? nl) || (r =? cr).

Definition isBlank (r : rune) : bool := isSpace r || isNL r.

(** ** The library functions the package calls *)

(** [utf8.ValidRune]: a code point that is no surrogate half. *)
Definition ValidRune (r : rune) : bool :=
  ((0 <=? r) && (r <? 55296)) || ((57343 <? r) && (r <=? 1114111)).

Definition RuneError : rune := 65533.

(** [bytes.Buffer.WriteRune]: an invalid rune is written as U+FFFD. *)
Definition WriteRune (buf : str) (r : rune) : str :=
  buf ++ [if ValidRune r then r else RuneError].

(** [unicode.IsSpace]. *)
Definition unicode_IsSpace (r : rune) : bool :=
  if r <=? 255 then
    ((9 <=? r) && (r <=? 13)) || (r =? 32) || (r =? 133) || (r =? 160)
  else
    (r =? 5760) || ((8192 <=? r) && (r <=? 8202)) || (r =? 8232) ||
    (r =? 8233) || (r =? 8239) || (r =? 8287) || (r =? 12288).

Fixpoint TrimLeft (f : rune -> bool) (s : str) : str :=
  match s with
  | [] => []
  | c :: s' => if f c then TrimLeft f s' else s
  end.

Definition TrimRight (f : rune -> bool) (s : str) : str :=
  rev (TrimLeft f (rev s)).

(** [strings.TrimSpace]. *)
Definition TrimSpace (s : str) : str :=
  TrimRight unicode_IsSpace (TrimLeft unicode_IsSpace s).

(** The value of a digit of [strconv.ParseInt] ([0-9], [a-z], [A-Z]). *)
Definition digitVal (c : rune) : option Z :=
  if (48 <=? c) && (c <=? 57) then Some (c - 48)
  else if (97 <=? c) && (c <=? 122) then Some (c - 97 + 10)
  else if (65 <=? c) && (c <=? 90) then Some (c - 65 + 10)
  else None.

(** The digits of [s] read in [base], most significant first; [None] when
    a character is no digit of the base. *)
Fixpoint digits (base : Z) (acc : Z) (s : str) : option Z :=
  match s with
  | [] => Some acc
  | c :: s' =>
      match digitVal c with
      | Some d => if d <? base then digits base (acc * base + d) s' else None
      | None => None
      end
  end.

Definition NumError (s : str) (e : error) : error :=
  Wrapf "strconv.ParseInt: parsing %q: %w" [s] e.

(** [strconv.ParseInt] for a base from 2 to 36: an optional sign, then
    digits of the base; the value must fit in [bitSize] bits. *)
Definition ParseInt (s : str) (base : Z) (bitSize : Z) : Z * option error :=
  let cutoff := 2 ^ (bitSize - 1) in
  let '(neg, ds) :=
    match s with
    | c :: s' => if c =? 43 then (false, s') else if c =? 45 then (true, s') else (false, s)
    | [] => (false, s)
    end in
  match ds with
  | [] => (0, Some (NumError s ErrSyntax))
  | _ =>
      match digits base 0 ds with
      | None => (0, Some (NumError s ErrSyntax))
      | Some un =>
          if negb neg && (cutoff <=? un) then (cutoff - 1, Some (NumError s ErrRange))
          else if neg && (cutoff <? un) then (- cutoff, Some (NumError s ErrRange))
          else (if neg then - un else un, None)
      end
  end.

(** The [*bufio.Reader]: the runes not read yet, and the rune the last
    call read when that call was a [ReadRune] that gave one. *)
Record bufio_Reader : Type := mkBufio {
  pending : list rune;
  lastRune : option rune
}.

Definition ReadRune (b : bufio_Reader) : rune * option error * bufio_Reader :=
  match pending b with
  | [] => (0, Some io_EOF, mkBufio [] None)
  | c :: tl => (c, None, mkBufio tl (Some c))
  end.

Definition UnreadRune (b : bufio_Reader) : option error * bufio_Reader :=
  match lastRune b with
  | None => (Some ErrInvalidUnreadRune, b)
  | Some c => (None, mkBufio (c :: pending b) None)
  end.

(** ** Tokens *)

Inductive NodeType : Type :=
| EOF
| ProcInst
| BeginElement
| EndElement
| Text
| CData
| Comment.

Definition NodeType_eqb (a b : NodeType) : bool :=
  match a, b with
  | EOF, EOF | ProcInst, ProcInst | BeginElement, BeginElement
  | EndElement, EndElement | Text, Text | CData, CData | Comment, Comment => true
  | _, _ => false
  end.

(** The struct [Name]; its field [Name] is [LocalName] here. *)
Record Name : Type := mkName {
  NS : str;
  LocalName : str
}.

Definition Name_IsValid (n : Name) : bool := negb (str_eqb (LocalName n) []).

Definition Name_Equal (n other : Name) : bool :=
  str_eqb (NS n) (NS other) && str_eqb (LocalName n) (LocalName other).

Record Attr : Type := mkAttr {
  AttrName : Name;
  Value : str
}.

(** The struct [Node]; the embedded [Name] is the field [NodeName]. *)
Record Node : Type := mkNode {
  Typ : NodeType;
  NodeName : Name;
  Attrs : list Attr;
  Content : str;
  SelfClosing : bool
}.

(** What a dispatch round announces. *)
Inductive Event : Type :=
| EvBegin (n : Name)
| EvEnd (n : Name)
| EvInst (n : Name)
| EvAttr (n : Name) (value : str)
| EvText (s : str)
| EvComment (s : str).

(** An entry of the trace: a dispatch round that was not silenced, or a
    call of the listener registered under [tag] and what it returned. *)
Inductive Entry : Type :=
| Dispatch (ev : Event)
| Fired (tag : nat) (out : option error).

(** What a Go function returns: its value, or its error. *)
Inductive result (A : Type) : Type :=
| Ok (a : A)
| Err (e : error).
Arguments Ok {A}.
Arguments Err {A}.

(** ** The reader *)

Section Sax.

(** The state of the program around the reader, which the closures given
    to it read and change. *)
Variable W : Type.

(** A registered callback [func(A) error]: the closure, and the tag under
    which its calls are written to the trace. *)
Record Listener (A : Type) : Type := mkListener {
  tag : nat;
  call : A -> W -> option error * W
}.
Arguments mkListener {A}.
Arguments tag {A}.
Arguments call {A}.

Definition KeepFunc : Type := NodeType -> Name -> W -> option error * W.

Definition keepAll : KeepFunc := fun _ _ w => (None, w).

Record Listeners : Type := mkListeners {
  silent_on : bool;
  begins : list (Listener Name);
  ends : list (Listener Name);
  insts : list (Listener Name);
  attrs : list (Listener (Name * str));
  texts : list (Listener str);
  comments : list (Listener str)
}.

(** The struct [Reader] (its field [last] is never used and is left out),
    with the world and the trace. *)
Record Reader : Type := mkReader {
  rs : bufio_Reader;
  stack : list Name;
  keep : KeepFunc;
  listeners : Listeners;
  world : W;
  trace : list Entry
}.

Definition with_rs (r : Reader) (b : bufio_Reader) : Reader :=
  mkReader b (stack r) (keep r) (listeners r) (world r) (trace r).
Definition with_stack (r : Reader) (s : list Name) : Reader :=
  mkReader (rs r) s (keep r) (listeners r) (world r) (trace r).
Definition with_listeners (r : Reader) (l : Listeners) : Reader :=
  mkReader (rs r) (stack r) (keep r) l (world r) (trace r).
Definition with_world (r : Reader) (w : W) : Reader :=
  mkReader (rs r) (stack r) (keep r) (listeners r) w (trace r).
Definition with_trace (r : Reader) (t : list Entry) : Reader :=
  mkReader (rs r) (stack r) (keep r) (listeners r) (world r) t.

Definition with_silent (l : Listeners) (b : bool) : Listeners :=
  mkListeners b (begins l) (ends l) (insts l) (attrs l) (texts l) (comments l).
Definition with_begins (l : Listeners) (s : list (Listener Name)) : Listeners :=
  mkListeners (silent_on l) s (ends l) (insts l) (attrs l) (texts l) (comments l).
Definition with_ends (l : Listeners) (s : list (Listener Name)) : Listeners :=
  mkListeners (silent_on l) (begins l) s (insts l) (attrs l) (texts l) (comments l).
Definition with_insts (l : Listeners) (s : list (Listener Name)) : Listeners :=
  mkListeners (silent_on l) (begins l) (ends l) s (attrs l) (texts l) (comments l).
Definition with_attrs (l : Listeners) (s : list (Listener (Name * str))) : Listeners :=
  mkListeners (silent_on l) (begins l) (ends l) (insts l) s (texts l) (comments l).
Definition with_texts (l : Listeners) (s : list (Listener str)) : Listeners :=
  mkListeners (silent_on l) (begins l) (ends l) (insts l) (attrs l) s (comments l).
Definition with_comments (l : Listeners) (s : list (Listener str)) : Listeners :=
  mkListeners (silent_on l) (begins l) (ends l) (insts l) (attrs l) (texts l) s.

(** *** The monad of the methods *)

(** A method: [None] when a loop used its fuel up. *)
Definition M (A : Type) : Type := Reader -> option (result A) * Reader.

Definition ret {A} (a : A) : M A := fun r => (Some (Ok a), r).

Definition fail {A} (e : error) : M A := fun r => (Some (Err e), r).

Definition bind {A B} (m : M A) (f : A -> M B) : M B :=
  fun r =>
    match m r with
    | (Some (Ok a), r') => f a r'
    | (Some (Err e), r') => (Some (Err e), r')
    | (None, r') => (None, r')
    end.

Notation "x <- m ;; k" := (bind m (fun x => k))
  (at level 61, m at next level, right associativity).
Notation "' p <- m ;; k" := (bind m (fun x => let p := x in k))
  (at level 61, p pattern, m at next level, right associativity).
Notation "m ;; k" := (bind m (fun _ => k))
  (at level 61, right associativity).

(** [v, err := m]: the outcome of [m] as a value. *)
Definition attempt {A} (m : M A) : M (result A) :=
  fun r =>
    match m r with
    | (Some x, r') => (Some (Ok x), r')
    | (None, r') => (None, r')
    end.

(** A call whose results are dropped. *)
Definition ignore {A} (m : M A) : M unit :=
  x <- attempt m ;; ret tt.

(** [if err := m; err != nil { return nil, err }]. *)
Definition check (m : M (option error)) : M unit :=
  e <- m ;;
  match e with
  | None => ret tt
  | Some e => fail e
  end.

(** Run [cleanup] after [m] whatever [m] gave: a deferred call, or a call
    placed after the branches that set the result. *)
Definition finally {A} (m : M A) (cleanup : M unit) : M A :=
  fun r => let (x, r') := m r in (x, snd (cleanup r')).

(** A [for] loop without condition: [body] says whether to go round again
    with a new value of the variables of the loop ([inl]) or to leave with
    a result ([inr]); an error leaves the function. *)
Fixpoint iterate {St A} (fuel : nat) (body : St -> M (St + A)) (st : St) : M A :=
  match fuel with
  | O => fun r => (None, r)
  | S fuel' =>
      x <- body st ;;
      match x with
      | inl st' => iterate fuel' body st'
      | inr a => ret a
      end
  end.

Definition continue {St A} (st : St) : M (St + A) := ret (inl st).
Definition break {St A} (a : A) : M (St + A) := ret (inr a).

(** Every round of a loop over the input reads a rune that was not read
    before, or leaves: one round more than there are runes is enough. *)
Definition forever {St A} (body : St -> M (St + A)) (st : St) : M A :=
  fun r => iterate (S (List.length (pending (rs r)))) body st r.

Definition gets {A} (f : Reader -> A) : M A := fun r => (Some (Ok (f r)), r).

Definition log (e : Entry) : M unit :=
  fun r => (Some (Ok tt), with_trace r (trace r ++ [e])).

(** *** The cursor *)

Definition read : M rune :=
  fun r =>
    let '(c, err, b) := ReadRune (rs r) in
    match err with
    | None => (Some (Ok c), with_rs r b)
    | Some e => (Some (Err e), with_rs r b)
    end.

(** [c, _ := r.read()]: the rune is 0 when the read failed. *)
Definition read_any : M rune :=
  fun r => let '(c, _, b) := ReadRune (rs r) in (Some (Ok c), with_rs r b).

Definition unread : M unit :=
  fun r =>
    let '(err, b) := UnreadRune (rs r) in
    match err with
    | None => (Some (Ok tt), with_rs r b)
    | Some e => (Some (Err e), with_rs r b)
    end.

Definition peek : M rune :=
  c <- read_any ;;
  ignore unread ;;
  ret c.

Definition unexpectedChar (c : rune) : error := Wrapf "%c: %w" [[c]] ErrChar.

Definition checkListenerError (err : error) : option error :=
  if errors_Is err ErrStop then None else Some err.

Definition skipBlanks_loop (_ : unit) : M (unit + unit) :=
  x <- attempt read ;;
  match x with
  | Err _ => break tt
  | Ok c => if negb (isBlank c) then break tt else continue tt
  end.

Definition skipBlanks : M unit :=
  finally (forever skipBlanks_loop tt) (ignore unread).

Definition wantFunc (fn : rune -> bool) : M unit :=
  c <- read ;;
  if negb (fn c) then fail (unexpectedChar c) else ret tt.

Definition want (char : rune) : M unit := wantFunc (fun r => r =? char).

(** *** The stack of open elements *)

Definition Depth (r : Reader) : nat := List.length (stack r).

Definition push (n : Node) : M unit :=
  fun r =>
    if SelfClosing n then (Some (Ok tt), r)
    else (Some (Ok tt), with_stack r (stack r ++ [NodeName n])).

Definition pop (n : Node) : M unit :=
  fun r =>
    let z := List.length (stack r) in
    if Nat.eqb z 0 then (Some (Err (Errorf "stack is empty" [])), r)
    else
      let pop := nth (z - 1) (stack r) (mkName [] []) in
      if negb (Name_Equal pop (NodeName n)) then
        (Some (Err (Wrapf "%w: element mismatched %s vs %s"
                      [LocalName pop; LocalName (NodeName n)] ErrMalformed)), r)
      else (Some (Ok tt), with_stack r (firstn (z - 1) (stack r))).

(** *** Dispatch *)

(** [r.silent()] toggles the field [silent] ([silent_on] here). *)
Definition silent : M unit :=
  fun r =>
    (Some (Ok tt),
     with_listeners r (with_silent (listeners r) (negb (silent_on (listeners r))))).

(** [fn(a)]: the closure runs on the world, and the call is traced. *)
Definition invoke {A} (fn : Listener A) (a : A) : M (option error) :=
  fun r =>
    let (err, w) := call fn a (world r) in
    (Some (Ok err), with_trace (with_world r w) (trace r ++ [Fired (tag fn) err])).

(** The loop of [emitNode], [emitString] and [emitAttr], which differ in
    the type of what they hand to the callbacks only:
    [for i := 0; i < len(set); i++]. A round ends the loop or increments
    [i] or shortens [set]: [len(set) + 1] rounds are enough. *)
Definition emitLoop {A} (a : A) (set : list (Listener A))
  : M (list (Listener A) * option error) :=
  iterate (S (List.length set))
    (fun '(i, set) =>
       match nth_error set i with
       | None => break (set, None)
       | Some fn =>
           err <- invoke fn a ;;
           match err with
           | None => continue (S i, set)
           | Some e =>
               if errors_Is e ErrUnsubscribe
               then continue (i, firstn i set ++ skipn (S i) set)
               else break (set, checkListenerError e)
           end
       end)
    (O, set).

Definition emitNode (n : Name) (set : list (Listener Name))
  : M (list (Listener Name) * option error) := emitLoop n set.

Definition emitString (s : str) (set : list (Listener str))
  : M (list (Listener str) * option error) := emitLoop s set.

Definition set_listeners (f : Listeners -> Listeners) : M unit :=
  fun r => (Some (Ok tt), with_listeners r (f (listeners r))).

Definition emitBegin (n : Name) : M (option error) :=
  fun r =>
    if silent_on (listeners r) then (Some (Ok None), r)
    else
      (log (Dispatch (EvBegin n)) ;;
       '(set, err) <- emitNode n (begins (listeners r)) ;;
       set_listeners (fun l => with_begins l set) ;;
       ret err) r.

Definition emitEnd (n : Name) : M (option error) :=
  fun r =>
    if silent_on (listeners r) then (Some (Ok None), r)
    else
      (log (Dispatch (EvEnd n)) ;;
       '(set, err) <- emitNode n (ends (listeners r)) ;;
       set_listeners (fun l => with_ends l set) ;;
       ret err) r.

Definition emitInst (n : Name) : M (option error) :=
  fun r =>
    if silent_on (listeners r) then (Some (Ok None), r)
    else
      (log (Dispatch (EvInst n)) ;;
       '(set, err) <- emitNode n (insts (listeners r)) ;;
       set_listeners (fun l => with_insts l set) ;;
       ret err) r.

Definition emitText (s : str) : M (option error) :=
  fun r =>
    if silent_on (listeners r) then (Some (Ok None), r)
    else
      (log (Dispatch (EvText s)) ;;
       '(set, err) <- emitString s (texts (listeners r)) ;;
       set_listeners (fun l => with_texts l set) ;;
       ret err) r.

Definition emitComment (s : str) : M (option error) :=
  fun r =>
    if silent_on (listeners r) then (Some (Ok None), r)
    else
      (log (Dispatch (EvComment s)) ;;
       '(set, err) <- emitString s (comments (listeners r)) ;;
       set_listeners (fun l => with_comments l set) ;;
       ret err) r.

(** [emitAttr] runs the loop on the field [attrs] itself; the field holds
    the shortened list when the loop ends, however it ends. *)
Definition emitAttr (n : Name) (s : str) : M (option error) :=
  fun r =>
    if silent_on (listeners r) then (Some (Ok None), r)
    else
      (log (Dispatch (EvAttr n s)) ;;
       '(set, err) <- emitLoop (n, s) (attrs (listeners r)) ;;
       set_listeners (fun l => with_attrs l set) ;;
       ret err) r.

(** *** Names, values and entities *)

Definition Fqn (n : Name) : str :=
  match NS n with
  | [] => LocalName n
  | _ => NS n ++ [colon] ++ LocalName n
  end.

(** The closure [parse] of [parseName]. *)
Definition parseName_parse : M str :=
  c <- read ;;
  if negb (isLetter c) then
    fail (Wrapf "%w: name should start with a letter!" [] (unexpectedChar c))
  else
    buf <- forever (fun buf =>
             c <- read ;;
             if negb (isName c) then break buf
             else continue (WriteRune buf c)) (WriteRune [] c) ;;
    unread ;;
    ret buf.

Definition parseName : M Name :=
  name <- parseName_parse ;;
  c <- peek ;;
  if negb (c =? colon) then ret (mkName [] name)
  else
    ignore read ;;
    local <- parseName_parse ;;
    ret (mkName name local).

(** The map [entities]. *)
Definition entities (name : str) : option rune :=
  if str_eqb name (runes "quot") then Some dquote
  else if str_eqb name (runes "apos") then Some squote
  else if str_eqb name (runes "lt") then Some langle
  else if str_eqb name (runes "gt") then Some rangle
  else if str_eqb name (runes "amp") then Some ampersand
  else None.

Definition baseDec : Z := 10.
Definition baseHex : Z := 16.

(** The loop of [parseStringEntity] and of [parseNumericEntity], which
    accept letters and the digits of the base. *)
Definition entity_loop (accept : rune -> bool) (buf : str) : M (str + str) :=
  c <- read ;;
  if c =? semicolon then break buf
  else if negb (accept c) then fail (unexpectedChar c)
  else continue (WriteRune buf c).

Definition parseStringEntity : M rune :=
  ignore unread ;;
  buf <- forever (entity_loop isLetter) [] ;;
  match entities buf with
  | Some c => ret c
  | None => fail (Wrapf "%w: %s unknown entity" [buf] ErrMalformed)
  end.

(** [rune(n)] is [n]: without an error [n] fits in 32 bits. *)
Definition parseNumericEntity (base : Z) (accept : rune -> bool) : M rune :=
  buf <- forever (entity_loop accept) [] ;;
  match ParseInt buf base 32 with
  | (n, None) => ret n
  | (_, Some e) => fail e
  end.

Definition parseEntity : M rune :=
  c <- read ;;
  if c =? pound then
    c <- read ;;
    let '(accept, base) :=
      if c =? 120 (* 'x' *) then (isHex, baseHex) else (isDigit, baseDec) in
    parseNumericEntity base accept
  else parseStringEntity.

(** [if c == ampersand { c, err = r.parseEntity() ... }]. *)
Definition decoded (c : rune) : M rune :=
  if c =? ampersand then parseEntity else ret c.

Definition parseValue : M str :=
  c <- read ;;
  if negb (isQuote c) then fail (unexpectedChar c)
  else
    let quote := c in
    buf <- forever (fun buf =>
             c <- read ;;
             if c =? quote then break buf
             else
               c <- decoded c ;;
               continue (WriteRune buf c)) [] ;;
    ret (TrimSpace buf).

Definition add_attr (n : Node) (a : Attr) : Node :=
  mkNode (Typ n) (NodeName n) (Attrs n ++ [a]) (Content n) (SelfClosing n).

(** [parseAttributes] fills the node it is given; here it returns it. The
    map [seen] is the list of its keys. *)
Definition parseAttributes (n : Node) : M Node :=
  n <- forever (fun '(seen, n) =>
         c <- read ;;
         if negb (isName c) then break n
         else
           ignore unread ;;
           name <- parseName ;;
           if existsb (Name_Equal name) seen then
             fail (Wrapf "%w: %s duplicated attribute" [Fqn name] ErrMalformed)
           else
             let seen := name :: seen in
             skipBlanks ;;
             want equal ;;
             skipBlanks ;;
             value <- parseValue ;;
             let n := add_attr n (mkAttr name value) in
             check (emitAttr name value) ;;
             skipBlanks ;;
             continue (seen, n)) ([], n) ;;
  unread ;;
  ret n.

(** *** Tokens *)

(** [c == x && r.peek() == c]: the peek happens when [c] is [x] only. *)
Definition twice (c x : rune) : M bool :=
  if c =? x then p <- peek ;; ret (p =? c) else ret false.

Definition parseData_loop (buf : str) : M (str + str) :=
  c <- read ;;
  found <- twice c rsquare ;;
  if found then
    ignore read ;;
    c <- read_any ;;
    if c =? rangle then break buf
    else fail (Wrapf "%w: ]] can not appear in CDATA sections" [] ErrMalformed)
  else continue (WriteRune buf c).

Definition parseData : M Node :=
  want lsquare ;;
  name <- parseName ;;
  if negb (str_eqb (LocalName name) (runes "CDATA")) then
    fail (Wrapf "%w: unexpected %s! want CDATA" [Fqn name] ErrMalformed)
  else
    want lsquare ;;
    skipBlanks ;;
    buf <- forever parseData_loop [] ;;
    let content := TrimSpace buf in
    check (emitText content) ;;
    ret (mkNode CData name [] content true).

Definition parseComment : M Node :=
  c <- read_any ;;
  found <- twice c hyphen ;;
  if negb found then fail (unexpectedChar c)
  else
    ignore read ;;
    skipBlanks ;;
    buf <- forever (fun buf =>
             c <- read ;;
             found <- twice c hyphen ;;
             x <- (if found then
                     ignore read ;;
                     c <- read_any ;;
                     if c =? rangle then ret None
                     else ret (Some (WriteRune (WriteRune buf hyphen) hyphen, c))
                   else ret (Some (buf, c))) ;;
             match x with
             | None => break buf
             | Some (buf, c) =>
                 c <- decoded c ;;
                 continue (WriteRune buf c)
             end) [] ;;
    let content := TrimSpace buf in
    check (emitComment content) ;;
    ret (mkNode Comment (mkName [] []) [] content true).

Definition parseText : M Node :=
  buf <- forever (fun buf =>
           c <- read ;;
           if c =? langle then break buf
           else
             c <- decoded c ;;
             continue (WriteRune buf c)) [] ;;
  let content := TrimSpace buf in
  check (emitText content) ;;
  unread ;;
  ret (mkNode Text (mkName [] []) [] content false).

Definition parseInstruction : M Node :=
  name <- parseName ;;
  check (emitInst name) ;;
  skipBlanks ;;
  n <- parseAttributes (mkNode ProcInst name [] [] true) ;;
  want mark ;;
  want rangle ;;
  ret n.

Definition parseEndElement : M Node :=
  name <- parseName ;;
  check (emitEnd name) ;;
  skipBlanks ;;
  want rangle ;;
  ret (mkNode EndElement name [] [] false).

Definition parseOpenElement : M Node :=
  name <- parseName ;;
  check (emitBegin name) ;;
  skipBlanks ;;
  n <- parseAttributes (mkNode BeginElement name [] [] false) ;;
  c <- read ;;
  if c =? rangle then ret n
  else if negb (c =? slash) then fail (unexpectedChar c)
  else
    want rangle ;;
    ret (mkNode (Typ n) (NodeName n) (Attrs n) (Content n) true).

(** The switch of [parseNode]; [r.skipBlanks()] follows it whatever the
    branch gave. A node returned together with an error is dropped here:
    neither [Read] nor [skipSubtree] looks at it. *)
Definition parseNode : M Node :=
  c <- read ;;
  finally
    (if c =? mark then parseInstruction
     else if c =? bang then
       c <- read_any ;;
       ignore unread ;;
       if c =? lsquare then parseData
       else if c =? hyphen then parseComment
       else fail (unexpectedChar c)
     else if c =? slash then
       n <- parseEndElement ;;
       pop n ;;
       ret n
     else if isLetter c then
       ignore unread ;;
       n <- parseOpenElement ;;
       push n ;;
       ret n
     else fail (unexpectedChar c))
    skipBlanks.

Definition next : M Node :=
  c <- read ;;
  if c =? langle then parseNode
  else
    ignore unread ;;
    parseText.

(** *** The pull reader *)

Definition skipSubtree (n : Node) : M unit :=
  if negb (NodeType_eqb (Typ n) BeginElement) || SelfClosing n then ret tt
  else
    silent ;;
    finally
      (depth <- gets Depth ;;
       forever (fun _ : unit =>
         c <- next ;;
         d <- gets Depth ;;
         if Nat.eqb d depth && Name_Equal (NodeName n) (NodeName c)
         then break tt
         else continue tt) tt)
      silent.

(** [r.keep(n.Type, n.Name)]. *)
Definition call_keep (t : NodeType) (n : Name) : M (option error) :=
  fun r => let (err, w) := keep r t n (world r) in (Some (Ok err), with_world r w).

(** [errors.Is(err, target)] for an [err] that may be nil. *)
Definition is_error (err : option error) (target : error) : bool :=
  match err with
  | Some e => errors_Is e target
  | None => false
  end.

(** [Read] returns a node, an error or both. *)
Definition Read : M (option Node * option error) :=
  forever (fun _ : unit =>
    x <- attempt next ;;
    match x with
    | Err e => break (None, Some e)
    | Ok n =>
        err <- call_keep (Typ n) (NodeName n) ;;
        if is_error err ErrIgnore then
          x <- attempt (skipSubtree n) ;;
          match x with
          | Err e => break (None, Some e)
          | Ok _ => continue tt
          end
        else if is_error err ErrSkip then continue tt
        else break (Some n, err)
    end) tt.

Definition Run : M (option error) :=
  forever (fun _ : unit =>
    '(_, err) <- Read ;;
    match err with
    | Some e => break (if errors_Is e io_EOF then None else Some e)
    | None => continue tt
    end) tt.

Definition New (input : list rune) (keep : option KeepFunc) (w : W) : Reader :=
  let keep := match keep with Some k => k | None => keepAll end in
  let r := mkReader (mkBufio input None) [] keep
             (mkListeners false [] [] [] [] [] []) w [] in
  snd (skipBlanks r).

Definition OnBeginElement (fn : Listener Name) (r : Reader) : Reader :=
  with_listeners r (with_begins (listeners r) (begins (listeners r) ++ [fn])).

Definition OnEndElement (fn : Listener Name) (r : Reader) : Reader :=
  with_listeners r (with_ends (listeners r) (ends (listeners r) ++ [fn])).

Definition OnInstruction (fn : Listener Name) (r : Reader) : Reader :=
  with_listeners r (with_insts (listeners r) (insts (listeners r) ++ [fn])).

Definition OnAttribute (fn : Listener (Name * str)) (r : Reader) : Reader :=
  with_listeners r (with_attrs (listeners r) (attrs (listeners r) ++ [fn])).

Definition OnText (fn : Listener str) (r : Reader) : Reader :=
  with_listeners r (with_texts (listeners r) (texts (listeners r) ++ [fn])).

Definition OnComment (fn : Listener str) (r : Reader) : Reader :=
  with_listeners r (with_comments (listeners r) (comments (listeners r) ++ [fn])).

(** * Properties *)

(** ** The monad *)

Lemma bind_ok {A B} (m : M A) (f : A -> M B) r a r1 :
  m r = (Some (Ok a), r1) -> bind m f r = f a r1.
Proof. intros H. unfold bind. now rewrite H. Qed.

Lemma bind_err {A B} (m : M A) (f : A -> M B) r e r1 :
  m r = (Some (Err e), r1) -> bind m f r = (Some (Err e), r1).
Proof. intros H. unfold bind. now rewrite H. Qed.

Lemma bind_inv {A B} (m : M A) (f : A -> M B) r b r' :
  bind m f r = (Some (Ok b), r') ->
  exists a r1, m r = (Some (Ok a), r1) /\ f a r1 = (Some (Ok b), r').
Proof.
  unfold bind. destruct (m r) as [[[a|e]|] r1]; intros H; try discriminate.
  now exists a, r1.
Qed.

Lemma bind_ret {A B} (a : A) (f : A -> M B) r : bind (ret a) f r = f a r.
Proof. reflexivity. Qed.

Lemma bind_assoc {A B C} (m : M A) (f : A -> M B) (g : B -> M C) r :
  bind (bind m f) g r = bind m (fun a => bind (f a) g) r.
Proof. unfold bind. now destruct (m r) as [[[a|e]|] r1]. Qed.

Lemma attempt_some {A} (m : M A) r x r1 :
  m r = (Some x, r1) -> attempt m r = (Some (Ok x), r1).
Proof. intros H. unfold attempt. now rewrite H. Qed.

Lemma ignore_some {A} (m : M A) r x r1 :
  m r = (Some x, r1) -> ignore m r = (Some (Ok tt), r1).
Proof. intros H. unfold ignore. now rewrite (bind_ok _ _ _ _ _ (attempt_some _ _ _ _ H)). Qed.

Lemma iterate_S {St A} fuel (body : St -> M (St + A)) st :
  iterate (S fuel) body st =
  (x <- body st ;;
   match x with
   | inl st' => iterate fuel body st'
   | inr a => ret a
   end).
Proof. reflexivity. Qed.

(** ** The cursor *)

Lemma read_cons r c tl :
  pending (rs r) = c :: tl ->
  read r = (Some (Ok c), with_rs r (mkBufio tl (Some c))).
Proof. intros H. unfold read, ReadRune. now rewrite H. Qed.

Lemma read_nil r :
  pending (rs r) = [] ->
  read r = (Some (Err io_EOF), with_rs r (mkBufio [] None)).
Proof. intros H. unfold read, ReadRune. now rewrite H. Qed.

Lemma read_any_cons r c tl :
  pending (rs r) = c :: tl ->
  read_any r = (Some (Ok c), with_rs r (mkBufio tl (Some c))).
Proof. intros H. unfold read_any, ReadRune. now rewrite H. Qed.

Lemma read_any_nil r :
  pending (rs r) = [] ->
  read_any r = (Some (Ok 0), with_rs r (mkBufio [] None)).
Proof. intros H. unfold read_any, ReadRune. now rewrite H. Qed.

Lemma unread_some r c :
  lastRune (rs r) = Some c ->
  unread r = (Some (Ok tt), with_rs r (mkBufio (c :: pending (rs r)) None)).
Proof. intros H. unfold unread, UnreadRune. now rewrite H. Qed.

Lemma with_rs_with_rs r b b' : with_rs (with_rs r b) b' = with_rs r b'.
Proof. reflexivity. Qed.

Lemma with_rs_same r : with_rs r (rs r) = r.
Proof. now destruct r. Qed.

(** ** Runes *)

Lemma isLetter_valid c : isLetter c = true -> ValidRune c = true.
Proof. unfold isLetter, ValidRune. lia. Qed.

Lemma isHex_valid c : isHex c = true -> ValidRune c = true.
Proof. unfold isHex, isDigit, ValidRune. lia. Qed.

Lemma isDigit_isHex c : isDigit c = true -> isHex c = true.
Proof. unfold isHex. intros ->. reflexivity. Qed.

Lemma isLetter_not_semicolon c : isLetter c = true -> (c =? semicolon) = false.
Proof. unfold isLetter, semicolon. lia. Qed.

Lemma isHex_not_semicolon c : isHex c = true -> (c =? semicolon) = false.
Proof. unfold isHex, isDigit, semicolon. lia. Qed.

Lemma WriteRune_valid buf c : ValidRune c = true -> WriteRune buf c = buf ++ [c].
Proof. intros H. unfold WriteRune. now rewrite H. Qed.

(** ** Entities *)

(** The loop of the entities reads the accepted runes up to the
    semicolon and returns them. *)
Lemma entity_loop_semicolon accept ds :
  Forall (fun d => accept d = true /\ (d =? semicolon) = false /\ ValidRune d = true) ds ->
  forall fuel buf tail r,
  (List.length ds < fuel)%nat ->
  pending (rs r) = ds ++ semicolon :: tail ->
  iterate fuel (entity_loop accept) buf r =
  (Some (Ok (buf ++ ds)), with_rs r (mkBufio tail (Some semicolon))).
Proof.
  induction 1 as [|d ds (Ha & Hs & Hv) _ IH]; intros fuel buf tail r Hf Hp;
    (destruct fuel as [|fuel]; [simpl in Hf; lia|]); rewrite iterate_S;
    unfold entity_loop at 1; rewrite !bind_assoc;
    simpl in Hp; rewrite (bind_ok _ _ _ _ _ (read_cons _ _ _ Hp)).
  - rewrite Z.eqb_refl. unfold break. rewrite bind_ret, app_nil_r. reflexivity.
  - rewrite Hs, Ha. simpl negb. cbv iota. unfold continue. rewrite bind_ret.
    rewrite (IH fuel (WriteRune buf d) tail); [| simpl in Hf; lia | reflexivity].
    rewrite WriteRune_valid by assumption.
    rewrite <- app_assoc. reflexivity.
Qed.

(** It stops with the error of [unexpectedChar] at a rune that is not
    accepted and is not the semicolon. *)
Lemma entity_loop_reject accept ds c :
  Forall (fun d => accept d = true /\ (d =? semicolon) = false /\ ValidRune d = true) ds ->
  accept c = false ->
  (c =? semicolon) = false ->
  forall fuel buf tail r,
  (List.length ds < fuel)%nat ->
  pending (rs r) = ds ++ c :: tail ->
  iterate fuel (entity_loop accept) buf r =
  (Some (Err (unexpectedChar c)), with_rs r (mkBufio tail (Some c))).
Proof.
  intros Hds Hc Hsc.
  induction Hds as [|d ds (Ha & Hs & Hv) _ IH]; intros fuel buf tail r Hf Hp;
    (destruct fuel as [|fuel]; [simpl in Hf; lia|]); rewrite iterate_S;
    unfold entity_loop at 1; rewrite !bind_assoc;
    simpl in Hp; rewrite (bind_ok _ _ _ _ _ (read_cons _ _ _ Hp)).
  - rewrite Hsc, Hc. reflexivity.
  - rewrite Hs, Ha. simpl negb. cbv iota. unfold continue. rewrite bind_ret.
    rewrite (IH fuel (WriteRune buf d) tail); [| simpl in Hf; lia | reflexivity].
    reflexivity.
Qed.

Lemma letters_accepted name :
  Forall (fun c => isLetter c = true) name ->
  Forall (fun d => isLetter d = true /\ (d =? semicolon) = false /\ ValidRune d = true) name.
Proof.
  intros H. eapply Forall_impl; [|exact H]. cbv beta. intros c Hc.
  auto using isLetter_not_semicolon, isLetter_valid.
Qed.

Lemma hex_accepted ds :
  Forall (fun c => isHex c = true) ds ->
  Forall (fun d => isHex d = true /\ (d =? semicolon) = false /\ ValidRune d = true) ds.
Proof.
  intros H. eapply Forall_impl; [|exact H]. cbv beta. intros c Hc.
  auto using isHex_not_semicolon, isHex_valid.
Qed.

Lemma digits_accepted ds :
  Forall (fun c => isDigit c = true) ds ->
  Forall (fun d => isDigit d = true /\ (d =? semicolon) = false /\ ValidRune d = true) ds.
Proof.
  intros H. eapply Forall_impl; [|exact H]. cbv beta. intros c Hc.
  auto using isHex_not_semicolon, isHex_valid, isDigit_isHex.
Qed.

(** A named reference: the letters up to the semicolon are looked up in
    the table. The first rune, which [parseEntity] read, is read again. *)
Lemma parseStringEntity_letters r c name tail :
  lastRune (rs r) = Some c ->
  c :: pending (rs r) = name ++ semicolon :: tail ->
  Forall (fun c => isLetter c = true) name ->
  parseStringEntity r =
  (match entities name with
   | Some x => Some (Ok x)
   | None => Some (Err (Wrapf "%w: %s unknown entity" [name] ErrMalformed))
   end, with_rs r (mkBufio tail (Some semicolon))).
Proof.
  intros Hl Hp Hn. unfold parseStringEntity.
  rewrite (bind_ok _ _ _ _ _ (ignore_some _ _ _ _ (unread_some _ _ Hl))), Hp.
  unfold forever.
  erewrite bind_ok;
    [| apply entity_loop_semicolon with (ds := name) (tail := tail);
       [ now apply letters_accepted
       | simpl; rewrite length_app; simpl; lia
       | reflexivity ] ].
  cbn [app]. now destruct (entities name).
Qed.

Lemma parseEntity_named r name tail :
  pending (rs r) = name ++ semicolon :: tail ->
  Forall (fun c => isLetter c = true) name ->
  parseEntity r =
  (match entities name with
   | Some x => Some (Ok x)
   | None => Some (Err (Wrapf "%w: %s unknown entity" [name] ErrMalformed))
   end, with_rs r (mkBufio tail (Some semicolon))).
Proof.
  intros Hp Hn. unfold parseEntity.
  assert (exists c tl, pending (rs r) = c :: tl /\ (c =? pound) = false) as (c & tl & Hc & Hne).
  { rewrite Hp. destruct Hn as [|c name Hc _]; simpl; eauto.
    exists c. eexists. split; [reflexivity|]. unfold isLetter, pound in *. lia. }
  rewrite (bind_ok _ _ _ _ _ (read_cons _ _ _ Hc)), Hne.
  rewrite (parseStringEntity_letters _ c name tail); auto.
  simpl. now rewrite <- Hc.
Qed.

(** A numeric reference, once the base is known: the digits up to the
    semicolon are given to [ParseInt]. *)
Lemma parseNumericEntity_digits base accept r ds tail :
  Forall (fun d => accept d = true /\ (d =? semicolon) = false /\ ValidRune d = true) ds ->
  pending (rs r) = ds ++ semicolon :: tail ->
  parseNumericEntity base accept r =
  (match ParseInt ds base 32 with
   | (n, None) => Some (Ok n)
   | (_, Some e) => Some (Err e)
   end, with_rs r (mkBufio tail (Some semicolon))).
Proof.
  intros Hds Hp. unfold parseNumericEntity, forever.
  erewrite bind_ok;
    [| apply entity_loop_semicolon with (ds := ds) (tail := tail);
       [ assumption | rewrite Hp, length_app; simpl; lia | assumption ] ].
  cbn [app]. now destruct (ParseInt ds base 32) as [n [e|]].
Qed.

Lemma parseNumericEntity_reject base accept r ds c tail :
  Forall (fun d => accept d = true /\ (d =? semicolon) = false /\ ValidRune d = true) ds ->
  accept c = false ->
  (c =? semicolon) = false ->
  pending (rs r) = ds ++ c :: tail ->
  parseNumericEntity base accept r =
  (Some (Err (unexpectedChar c)), with_rs r (mkBufio tail (Some c))).
Proof.
  intros Hds Hc Hsc Hp. unfold parseNumericEntity, forever.
  erewrite bind_err;
    [| apply entity_loop_reject with (ds := ds) (c := c) (tail := tail);
       [ assumption | assumption | assumption
       | rewrite Hp, length_app; simpl; lia | assumption ] ].
  reflexivity.
Qed.

(** [&#x]: the runes after the [x] are the digits. *)
Lemma parseEntity_hex r rest :
  pending (rs r) = pound :: 120 :: rest ->
  parseEntity r =
  parseNumericEntity baseHex isHex (with_rs r (mkBufio rest (Some 120))).
Proof.
  intros Hp. unfold parseEntity.
  rewrite (bind_ok _ _ _ _ _ (read_cons _ _ _ Hp)). rewrite Z.eqb_refl.
  rewrite (bind_ok _ _ _ 120 (with_rs r (mkBufio rest (Some 120)))).
  - reflexivity.
  - now rewrite (read_cons _ 120 rest).
Qed.

(** [&#] and a rune [d] that is not [x]: [d] was read to look for the
    [x] and is not given back, so the digits start after it. *)
Lemma parseEntity_dec r d rest :
  pending (rs r) = pound :: d :: rest ->
  (d =? 120) = false ->
  parseEntity r =
  parseNumericEntity baseDec isDigit (with_rs r (mkBufio rest (Some d))).
Proof.
  intros Hp Hd. unfold parseEntity.
  rewrite (bind_ok _ _ _ _ _ (read_cons _ _ _ Hp)). rewrite Z.eqb_refl.
  rewrite (bind_ok _ _ _ d (with_rs r (mkBufio rest (Some d)))).
  - now rewrite Hd.
  - now rewrite (read_cons _ d rest).
Qed.

Lemma parseEntity_named_reject r name c tail :
  pending (rs r) = name ++ c :: tail ->
  Forall (fun c => isLetter c = true) name ->
  isLetter c = false ->
  (c =? semicolon) = false ->
  (name = [] -> (c =? pound) = false) ->
  parseEntity r =
  (Some (Err (unexpectedChar c)), with_rs r (mkBufio tail (Some c))).
Proof.
  intros Hp Hn Hc Hsc Hfirst. unfold parseEntity.
  assert (exists c0 tl, pending (rs r) = c0 :: tl /\ (c0 =? pound) = false)
    as (c0 & tl & Hc0 & Hne).
  { rewrite Hp. destruct Hn as [|c0 name Hc0 _]; simpl; eauto.
    exists c0. eexists. split; [reflexivity|]. unfold isLetter, pound in *. lia. }
  rewrite (bind_ok _ _ _ _ _ (read_cons _ _ _ Hc0)), Hne.
  unfold parseStringEntity.
  erewrite bind_ok; [| eapply ignore_some, unread_some; reflexivity ].
  unfold forever.
  erewrite bind_err;
    [| apply entity_loop_reject with (ds := name) (c := c) (tail := tail);
       [ now apply letters_accepted | assumption | assumption
       | simpl; assert (HL := f_equal (@List.length _) Hp);
         rewrite Hc0, length_app in HL; simpl in HL; lia
       | simpl; now rewrite <- Hc0 ] ].
  reflexivity.
Qed.

Lemma str_eqb_eq a b : str_eqb a b = true <-> a = b.
Proof.
  revert b. induction a as [|x a IH]; intros [|y b]; simpl; try easy.
  unfold rune_eqb. rewrite andb_true_iff, Z.eqb_eq, IH.
  split; [intros [-> ->]; reflexivity | intros [= -> ->]; auto].
Qed.

(** The keys of the map [entities]. *)
Definition entity_names : list (list Z) :=
  [runes "quot"; runes "apos"; runes "lt"; runes "gt"; runes "amp"].

Lemma entities_unknown name : ~ In name entity_names -> entities name = None.
Proof.
  intros H. unfold entities.
  repeat match goal with
  | |- context [str_eqb name ?k] =>
      destruct (str_eqb name k) eqn:E;
      [ apply str_eqb_eq in E; exfalso; apply H; subst name; simpl; tauto | clear E ]
  end.
  reflexivity.
Qed.

Lemma unexpectedChar_kind c :
  errors_Is (unexpectedChar c) ErrChar = true /\
  errors_Is (unexpectedChar c) ErrMalformed = false.
Proof. split; reflexivity. Qed.

(** C4 (amended). A reference whose name is made of letters and is
    none of quot, apos, lt, gt, amp fails with an error built around
    [ErrMalformed]. A rune that is no letter in a named reference, no
    hexadecimal digit after [&#x], or no decimal digit after [&#] and a
    first digit, fails with the error of [unexpectedChar], which is built
    around [ErrChar] and not around [ErrMalformed]. *)
Theorem entity_errors :
  (forall r name tail,
     Forall (fun c => isLetter c = true) name ->
     ~ In name entity_names ->
     pending (rs r) = name ++ semicolon :: tail ->
     exists e r', parseEntity r = (Some (Err e), r') /\
                  errors_Is e ErrMalformed = true) /\
  (forall r name c tail,
     Forall (fun c => isLetter c = true) name ->
     isLetter c = false -> c <> semicolon -> c <> pound ->
     pending (rs r) = name ++ c :: tail ->
     exists e r', parseEntity r = (Some (Err e), r') /\
                  errors_Is e ErrChar = true /\ errors_Is e ErrMalformed = false) /\
  (forall r ds c tail,
     Forall (fun d => isHex d = true) ds ->
     isHex c = false -> c <> semicolon ->
     pending (rs r) = pound :: 120 :: ds ++ c :: tail ->
     exists e r', parseEntity r = (Some (Err e), r') /\
                  errors_Is e ErrChar = true /\ errors_Is e ErrMalformed = false) /\
  (forall r d ds c tail,
     isDigit d = true ->
     Forall (fun d => isDigit d = true) ds ->
     isDigit c = false -> c <> semicolon ->
     pending (rs r) = pound :: d :: ds ++ c :: tail ->
     exists e r', parseEntity r = (Some (Err e), r') /\
                  errors_Is e ErrChar = true /\ errors_Is e ErrMalformed = false).
Proof.
  repeat split.
  - intros r name tail Hn Hk Hp.
    rewrite (parseEntity_named _ _ _ Hp Hn), (entities_unknown _ Hk).
    eexists _, _. split; reflexivity.
  - intros r name c tail Hn Hc Hsc Hpd Hp.
    rewrite (parseEntity_named_reject _ _ _ _ Hp Hn Hc); try (intros _); try lia.
    eexists _, _. split; [reflexivity | apply unexpectedChar_kind].
  - intros r ds c tail Hds Hc Hsc Hp.
    rewrite (parseEntity_hex _ _ Hp).
    erewrite parseNumericEntity_reject with (ds := ds) (c := c) (tail := tail);
      [| now apply hex_accepted | assumption | lia | reflexivity].
    eexists _, _. split; [reflexivity | apply unexpectedChar_kind].
  - intros r d ds c tail Hd Hds Hc Hsc Hp.
    rewrite (parseEntity_dec _ _ _ Hp) by (unfold isDigit in Hd; lia).
    erewrite parseNumericEntity_reject with (ds := ds) (c := c) (tail := tail);
      [| now apply digits_accepted | assumption | lia | reflexivity].
    eexists _, _. split; [reflexivity | apply unexpectedChar_kind].
Qed.

(** ** What a method leaves as it is *)

Lemma bind_cases {A B} (m : M A) (f : A -> M B) r :
  (exists a r1, m r = (Some (Ok a), r1) /\ bind m f r = f a r1) \/
  (exists e r1, m r = (Some (Err e), r1) /\ bind m f r = (Some (Err e), r1)) \/
  (exists r1, m r = (None, r1) /\ bind m f r = (None, r1)).
Proof.
  unfold bind. destruct (m r) as [[[a|e]|] r1]; eauto 6.
Qed.

Section Frame.

(** A relation between the reader before and after a method. *)
Variable R : Reader -> Reader -> Prop.
Hypothesis R_refl : forall r, R r r.
Hypothesis R_trans : forall a b c, R a b -> R b c -> R a c.

Definition pres {A} (m : M A) : Prop := forall r, R r (snd (m r)).

Lemma pres_ret {A} (a : A) : pres (ret a).
Proof. intros r. apply R_refl. Qed.

Lemma pres_fail {A} (e : error) : pres (@fail A e).
Proof. intros r. apply R_refl. Qed.

Lemma pres_gets {A} (f : Reader -> A) : pres (gets f).
Proof. intros r. apply R_refl. Qed.

Lemma pres_bind {A B} (m : M A) (f : A -> M B) :
  pres m -> (forall a, pres (f a)) -> pres (bind m f).
Proof.
  intros Hm Hf r. specialize (Hm r).
  destruct (bind_cases m f r) as
    [(a & r1 & E & ->) | [(e & r1 & E & ->) | (r1 & E & ->)]];
    rewrite E in Hm; simpl in *; auto.
  eapply R_trans; [exact Hm | apply Hf].
Qed.

Lemma pres_attempt {A} (m : M A) : pres m -> pres (attempt m).
Proof.
  intros Hm r. specialize (Hm r). unfold attempt.
  now destruct (m r) as [[x|] r1].
Qed.

Lemma pres_ignore {A} (m : M A) : pres m -> pres (ignore m).
Proof.
  intros Hm. unfold ignore.
  apply pres_bind; [now apply pres_attempt | intros; apply pres_ret].
Qed.

Lemma pres_check (m : M (option error)) : pres m -> pres (check m).
Proof.
  intros Hm. unfold check. apply pres_bind; [assumption|].
  intros [e|]; [apply pres_fail | apply pres_ret].
Qed.

Lemma pres_finally {A} (m : M A) (cleanup : M unit) :
  pres m -> pres cleanup -> pres (finally m cleanup).
Proof.
  intros Hm Hc r. unfold finally. specialize (Hm r).
  destruct (m r) as [x r1]. simpl in *.
  eapply R_trans; [exact Hm | apply Hc].
Qed.

Lemma pres_iterate {St A} (body : St -> M (St + A)) :
  (forall st, pres (body st)) -> forall fuel st, pres (iterate fuel body st).
Proof.
  intros Hb. induction fuel as [|fuel IH]; intros st.
  - intros r. apply R_refl.
  - rewrite iterate_S. apply pres_bind; [apply Hb|].
    intros [st'|a]; [apply IH | apply pres_ret].
Qed.

Lemma pres_forever {St A} (body : St -> M (St + A)) st :
  (forall st, pres (body st)) -> pres (forever body st).
Proof. intros Hb r. unfold forever. now apply pres_iterate. Qed.

Lemma pres_continue {St A} (st : St) : pres (@continue St A st).
Proof. apply pres_ret. Qed.

Lemma pres_break {St A} (a : A) : pres (@break St A a).
Proof. apply pres_ret. Qed.

(** *** The methods that only read *)

Hypothesis R_read : pres read.
Hypothesis R_read_any : pres read_any.
Hypothesis R_unread : pres unread.

Ltac pres_step :=
  match goal with
  | |- pres (bind _ _) => apply pres_bind; [|intros]
  | |- pres (ret _) => apply pres_ret
  | |- pres (fail _) => apply pres_fail
  | |- pres (continue _) => apply pres_continue
  | |- pres (break _) => apply pres_break
  | |- pres (gets _) => apply pres_gets
  | |- pres (attempt _) => apply pres_attempt
  | |- pres (ignore _) => apply pres_ignore
  | |- pres (check _) => apply pres_check
  | |- pres (finally _ _) => apply pres_finally
  | |- pres (forever _ _) => apply pres_forever; intros
  | |- pres (iterate _ _ _) => apply pres_iterate; intros
  | |- pres (if ?b then _ else _) => destruct b
  | |- pres (match ?x with _ => _ end) => destruct x
  | |- pres (let '(_, _) := ?x in _) => destruct x
  | |- pres _ => solve [eauto]
  | |- forall _, _ => intro
  end.

Ltac pres_auto := repeat pres_step.

Lemma pres_peek : pres peek.
Proof. unfold peek. pres_auto. Qed.

Lemma pres_skipBlanks : pres skipBlanks.
Proof. unfold skipBlanks, skipBlanks_loop. pres_auto. Qed.

Lemma pres_wantFunc fn : pres (wantFunc fn).
Proof. unfold wantFunc. pres_auto. Qed.

Lemma pres_want c : pres (want c).
Proof. apply pres_wantFunc. Qed.

Lemma pres_parseName_parse : pres parseName_parse.
Proof. unfold parseName_parse. pres_auto. Qed.

Lemma pres_parseName : pres parseName.
Proof.
  unfold parseName. pose proof pres_parseName_parse. pose proof pres_peek.
  pres_auto.
Qed.

Lemma pres_entity_loop accept buf : pres (entity_loop accept buf).
Proof. unfold entity_loop. pres_auto. Qed.

Lemma pres_parseStringEntity : pres parseStringEntity.
Proof.
  unfold parseStringEntity. pose proof pres_entity_loop. pres_auto.
Qed.

Lemma pres_parseNumericEntity base accept : pres (parseNumericEntity base accept).
Proof.
  unfold parseNumericEntity. pose proof pres_entity_loop. pres_auto.
Qed.

Lemma pres_parseEntity : pres parseEntity.
Proof.
  unfold parseEntity.
  pose proof pres_parseStringEntity. pose proof pres_parseNumericEntity.
  pres_auto.
Qed.

Lemma pres_decoded c : pres (decoded c).
Proof. unfold decoded. pose proof pres_parseEntity. pres_auto. Qed.

Lemma pres_parseValue : pres parseValue.
Proof. unfold parseValue. pose proof pres_decoded. pres_auto. Qed.

Lemma pres_twice c x : pres (twice c x).
Proof. unfold twice. pose proof pres_peek. pres_auto. Qed.

Lemma pres_parseData_loop buf : pres (parseData_loop buf).
Proof. unfold parseData_loop. pose proof pres_twice. pres_auto. Qed.

(** *** The methods that dispatch *)

Hypothesis R_emitBegin : forall n, pres (emitBegin n).
Hypothesis R_emitEnd : forall n, pres (emitEnd n).
Hypothesis R_emitInst : forall n, pres (emitInst n).
Hypothesis R_emitText : forall s, pres (emitText s).
Hypothesis R_emitComment : forall s, pres (emitComment s).
Hypothesis R_emitAttr : forall n s, pres (emitAttr n s).

Lemma pres_parseAttributes n : pres (parseAttributes n).
Proof.
  unfold parseAttributes.
  pose proof pres_parseName. pose proof pres_skipBlanks. pose proof pres_want.
  pose proof pres_parseValue.
  pres_auto.
Qed.

Lemma pres_parseData : pres parseData.
Proof.
  unfold parseData.
  pose proof pres_parseName. pose proof pres_skipBlanks. pose proof pres_want.
  pose proof pres_parseData_loop.
  pres_auto.
Qed.

Lemma pres_parseComment : pres parseComment.
Proof.
  unfold parseComment.
  pose proof pres_twice. pose proof pres_skipBlanks. pose proof pres_decoded.
 
  pres_auto.
Qed.

Lemma pres_parseText : pres parseText.
Proof.
  unfold parseText. pose proof pres_decoded.
  pres_auto.
Qed.

Lemma pres_parseInstruction : pres parseInstruction.
Proof.
  unfold parseInstruction.
  pose proof pres_parseName. pose proof pres_skipBlanks. pose proof pres_want.
  pose proof pres_parseAttributes.
  pres_auto.
Qed.

Lemma pres_parseEndElement : pres parseEndElement.
Proof.
  unfold parseEndElement.
  pose proof pres_parseName. pose proof pres_skipBlanks. pose proof pres_want.
 
  pres_auto.
Qed.

Lemma pres_parseOpenElement : pres parseOpenElement.
Proof.
  unfold parseOpenElement.
  pose proof pres_parseName. pose proof pres_skipBlanks. pose proof pres_want.
  pose proof pres_parseAttributes.
  pres_auto.
Qed.

(** *** The methods that push and pop, and the pull reader *)

Hypothesis R_push : forall n, pres (push n).
Hypothesis R_pop : forall n, pres (pop n).

Lemma pres_parseNode : pres parseNode.
Proof.
  unfold parseNode.
  pose proof pres_parseInstruction. pose proof pres_parseData.
  pose proof pres_parseComment. pose proof pres_parseEndElement.
  pose proof pres_parseOpenElement. pose proof pres_skipBlanks.
  pres_auto.
Qed.

Lemma pres_next : pres next.
Proof.
  unfold next. pose proof pres_parseNode. pose proof pres_parseText.
  pres_auto.
Qed.

Hypothesis R_silent : pres silent.
Hypothesis R_keep : forall t n, pres (call_keep t n).

Lemma pres_skipSubtree n : pres (skipSubtree n).
Proof. unfold skipSubtree. pose proof pres_next. pres_auto. Qed.

Lemma pres_Read : pres Read.
Proof.
  unfold Read. pose proof pres_next. pose proof pres_skipSubtree.
  pres_auto.
Qed.

Lemma pres_Run : pres Run.
Proof. unfold Run. pose proof pres_Read. pres_auto. Qed.

End Frame.

(** A relation that the trace of a round, the calls of the callbacks and
    the lists of callbacks do not affect is kept by the dispatch. *)
Section EmitFrame.

Variable R : Reader -> Reader -> Prop.
Hypothesis R_refl : forall r, R r r.
Hypothesis R_trans : forall a b c, R a b -> R b c -> R a c.
Hypothesis R_log : forall e, pres R (log e).
Hypothesis R_invoke : forall A (fn : Listener A) (a : A), pres R (invoke fn a).
Hypothesis R_lists :
  forall f, (forall l, silent_on (f l) = silent_on l) -> pres R (set_listeners f).

Lemma pres_emitLoop {A} (a : A) set : pres R (emitLoop a set).
Proof.
  unfold emitLoop. apply pres_iterate; auto. intros [i s].
  destruct (nth_error s i) as [fn|].
  - apply pres_bind; auto. intros [e|].
    + destruct (errors_Is e ErrUnsubscribe); now apply pres_ret.
    + now apply pres_ret.
  - now apply pres_ret.
Qed.

Ltac pres_emit :=
  let r := fresh "r" in
  intros r; cbv beta delta [emitBegin emitEnd emitInst emitText emitComment emitAttr];
  destruct (silent_on (listeners r)); [apply R_refl|];
  match goal with
  | |- R r (snd (?m r)) =>
      let Hm := fresh "Hm" in
      assert (pres R m) as Hm; [| exact (Hm r)]
  end;
  unfold emitNode, emitString;
  apply pres_bind; auto; intros _;
  apply pres_bind; auto using pres_emitLoop; intros [set err];
  apply pres_bind; [assumption | apply R_lists; reflexivity | intros _; now apply pres_ret].

Lemma pres_emitBegin n : pres R (emitBegin n).
Proof. pres_emit. Qed.

Lemma pres_emitEnd n : pres R (emitEnd n).
Proof. pres_emit. Qed.

Lemma pres_emitInst n : pres R (emitInst n).
Proof. pres_emit. Qed.

Lemma pres_emitText s : pres R (emitText s).
Proof. pres_emit. Qed.

Lemma pres_emitComment s : pres R (emitComment s).
Proof. pres_emit. Qed.

Lemma pres_emitAttr n s : pres R (emitAttr n s).
Proof. pres_emit. Qed.

End EmitFrame.

(** ** What a method returns *)

(** Every value [m] returns satisfies [P]. *)
Definition returns {A} (m : M A) (P : A -> Prop) : Prop :=
  forall r a r', m r = (Some (Ok a), r') -> P a.

Lemma returns_ret {A} (a : A) (P : A -> Prop) : P a -> returns (ret a) P.
Proof. intros H r a' r' [= <- _]. exact H. Qed.

Lemma returns_fail {A} e (P : A -> Prop) : returns (fail e) P.
Proof. intros r a r' [=]. Qed.

Lemma returns_bind {A B} (m : M A) (f : A -> M B) (P : B -> Prop) :
  (forall a, returns (f a) P) -> returns (bind m f) P.
Proof.
  intros Hf r b r' H. apply bind_inv in H as (a & r1 & _ & H).
  exact (Hf a r1 b r' H).
Qed.

Lemma returns_bind_with {A B} (m : M A) (f : A -> M B) (Q : A -> Prop) (P : B -> Prop) :
  returns m Q -> (forall a, Q a -> returns (f a) P) -> returns (bind m f) P.
Proof.
  intros Hm Hf r b r' H. apply bind_inv in H as (a & r1 & Ha & H).
  exact (Hf a (Hm _ _ _ Ha) r1 b r' H).
Qed.

Lemma finally_inv {A} (m : M A) (cleanup : M unit) r x r' :
  finally m cleanup r = (x, r') ->
  exists r1, m r = (x, r1) /\ r' = snd (cleanup r1).
Proof.
  unfold finally. destruct (m r) as [y r0]. intros [= <- <-]. eauto.
Qed.

Lemma returns_finally {A} (m : M A) cleanup (P : A -> Prop) :
  returns m P -> returns (finally m cleanup) P.
Proof.
  intros Hm r a r' H. apply finally_inv in H as (r1 & H & _). eauto.
Qed.

(** A loop whose rounds keep [I] and leave with a value that satisfies
    [Q] returns such a value. *)
Lemma iterate_inv {St A} (body : St -> M (St + A))
      (I : St -> Reader -> Prop) (Q : A -> Reader -> Prop) :
  (forall st r x r', I st r -> body st r = (Some (Ok x), r') ->
                     match x with inl st' => I st' r' | inr a => Q a r' end) ->
  forall fuel st r a r',
    I st r -> iterate fuel body st r = (Some (Ok a), r') -> Q a r'.
Proof.
  intros Hb. induction fuel as [|fuel IH]; intros st r a r' HI H.
  - discriminate.
  - rewrite iterate_S in H. apply bind_inv in H as (x & r1 & Hx & H).
    specialize (Hb st r x r1 HI Hx). destruct x as [st'|a'].
    + eauto.
    + injection H as <- <-. exact Hb.
Qed.

Lemma forever_inv {St A} (body : St -> M (St + A))
      (I : St -> Reader -> Prop) (Q : A -> Reader -> Prop) :
  (forall st r x r', I st r -> body st r = (Some (Ok x), r') ->
                     match x with inl st' => I st' r' | inr a => Q a r' end) ->
  forall st r a r',
    I st r -> forever body st r = (Some (Ok a), r') -> Q a r'.
Proof. intros Hb st r a r'. unfold forever. now apply iterate_inv. Qed.

Lemma returns_forever {St A} (body : St -> M (St + A))
      (I : St -> Prop) (P : A -> Prop) st :
  I st ->
  (forall st, I st ->
     returns (body st) (fun x => match x with inl st' => I st' | inr a => P a end)) ->
  returns (forever body st) P.
Proof.
  intros HI Hb r a r' H.
  apply (forever_inv body (fun st _ => I st) (fun a _ => P a)) with (2 := HI) in H; auto.
  intros st0 r0 x r0' HI0 Hx. exact (Hb st0 HI0 r0 x r0' Hx).
Qed.

Ltac returns_step :=
  match goal with
  | |- returns (bind _ _) _ => apply returns_bind; intros
  | |- returns (ret _) _ => apply returns_ret
  | |- returns (continue _) _ => apply returns_ret
  | |- returns (break _) _ => apply returns_ret
  | |- returns (fail _) _ => apply returns_fail
  | |- returns (finally _ _) _ => apply returns_finally
  | |- returns (if ?b then _ else _) _ => destruct b
  | |- returns (match ?x with _ => _ end) _ => destruct x
  | |- returns (let '(_, _) := ?x in _) _ => destruct x
  end.

(** The type, the name and the flag of the node [parseAttributes] fills. *)
Lemma parseAttributes_node n :
  returns (parseAttributes n)
    (fun n' => Typ n' = Typ n /\ NodeName n' = NodeName n /\
               SelfClosing n' = SelfClosing n).
Proof.
  unfold parseAttributes. intros r a r' H.
  apply bind_inv in H as (n1 & r1 & Hloop & H).
  apply bind_inv in H as (u & r2 & _ & H). injection H as <- <-.
  match type of Hloop with
  | forever ?b ?s _ = _ =>
      assert (returns (forever b s)
                (fun a => Typ a = Typ n /\ NodeName a = NodeName n /\
                          SelfClosing a = SelfClosing n)) as HR
  end.
  { apply returns_forever with
      (I := fun st : list Name * Node =>
              Typ (snd st) = Typ n /\ NodeName (snd st) = NodeName n /\
              SelfClosing (snd st) = SelfClosing n); [simpl; auto|].
    intros [seen n0] HI. simpl in HI.
    repeat returns_step; simpl; exact HI. }
  exact (HR _ _ _ Hloop).
Qed.

Lemma parseInstruction_type : returns parseInstruction (fun n => Typ n = ProcInst).
Proof.
  unfold parseInstruction. do 3 returns_step.
  eapply returns_bind_with; [apply parseAttributes_node|].
  intros n (Ht & _). repeat returns_step. exact Ht.
Qed.

Lemma parseData_type : returns parseData (fun n => Typ n = CData).
Proof. unfold parseData. repeat returns_step. reflexivity. Qed.

Lemma parseComment_type : returns parseComment (fun n => Typ n = Comment).
Proof. unfold parseComment. repeat returns_step. reflexivity. Qed.

Lemma parseText_type : returns parseText (fun n => Typ n = Text).
Proof. unfold parseText. repeat returns_step. reflexivity. Qed.

Lemma parseEndElement_type :
  returns parseEndElement (fun n => Typ n = EndElement /\ SelfClosing n = false).
Proof. unfold parseEndElement. repeat returns_step. now split. Qed.

Lemma parseOpenElement_type :
  returns parseOpenElement (fun n => Typ n = BeginElement).
Proof.
  unfold parseOpenElement. do 3 returns_step.
  eapply returns_bind_with; [apply parseAttributes_node|].
  intros n (Ht & _). repeat returns_step; exact Ht.
Qed.

(** ** The stack of open elements *)

Definition same_stack (r r' : Reader) : Prop := stack r' = stack r.

Lemma same_stack_refl r : same_stack r r.
Proof. reflexivity. Qed.

Lemma same_stack_trans a b c : same_stack a b -> same_stack b c -> same_stack a c.
Proof. unfold same_stack. congruence. Qed.

Lemma stack_read : pres same_stack read.
Proof. intros r. unfold read, ReadRune. now destruct (pending (rs r)). Qed.

Lemma stack_read_any : pres same_stack read_any.
Proof. intros r. unfold read_any, ReadRune. now destruct (pending (rs r)). Qed.

Lemma stack_unread : pres same_stack unread.
Proof. intros r. unfold unread, UnreadRune. now destruct (lastRune (rs r)). Qed.

Lemma stack_log e : pres same_stack (log e).
Proof. intros r. reflexivity. Qed.

Lemma stack_invoke A (fn : Listener A) a : pres same_stack (invoke fn a).
Proof. intros r. unfold invoke. now destruct (call fn a (world r)). Qed.

Lemma stack_lists f :
  (forall l, silent_on (f l) = silent_on l) -> pres same_stack (set_listeners f).
Proof. intros _ r. reflexivity. Qed.

Ltac stack_frame :=
  first [ exact same_stack_refl | exact same_stack_trans | exact stack_read
        | exact stack_read_any | exact stack_unread
        | apply pres_emitBegin | apply pres_emitEnd | apply pres_emitInst
        | apply pres_emitText | apply pres_emitComment | apply pres_emitAttr ];
  try first [ exact same_stack_refl | exact same_stack_trans | exact stack_log
            | exact stack_invoke | exact stack_lists ].

Lemma stack_skipBlanks : pres same_stack skipBlanks.
Proof. apply pres_skipBlanks; stack_frame. Qed.

Lemma stack_parseOpenElement : pres same_stack parseOpenElement.
Proof. apply pres_parseOpenElement; stack_frame. Qed.

Lemma stack_parseEndElement : pres same_stack parseEndElement.
Proof. apply pres_parseEndElement; stack_frame. Qed.

(** What a method did to the reader, from what it preserves. *)
Lemma pres_at {A} R (m : M A) r x r' : pres R m -> m r = (x, r') -> R r r'.
Proof. intros H E. specialize (H r). now rewrite E in H. Qed.

(** The scan step that gives a begin-element pushes it, unless it is
    self-closing, and does nothing else to the stack. *)
Lemma next_begin_stack r n r' :
  next r = (Some (Ok n), r') ->
  Typ n = BeginElement ->
  stack r' = if SelfClosing n then stack r else stack r ++ [NodeName n].
Proof.
  intros H Ht. unfold next in H.
  apply bind_inv in H as (c & r1 & Hc & H).
  apply (pres_at _ _ _ _ _ stack_read) in Hc.
  destruct (c =? langle).
  - unfold parseNode in H. apply bind_inv in H as (c2 & r2 & Hc2 & H).
    apply (pres_at _ _ _ _ _ stack_read) in Hc2.
    apply finally_inv in H as (r3 & H & ->).
    rewrite (stack_skipBlanks r3).
    destruct (c2 =? mark).
    { apply parseInstruction_type in H. congruence. }
    destruct (c2 =? bang).
    { apply bind_inv in H as (c3 & r4 & _ & H).
      apply bind_inv in H as (u & r5 & _ & H).
      destruct (c3 =? lsquare); [apply parseData_type in H; congruence|].
      destruct (c3 =? hyphen); [apply parseComment_type in H; congruence|].
      discriminate. }
    destruct (c2 =? slash).
    { apply bind_inv in H as (n0 & r4 & Hn & H).
      apply parseEndElement_type in Hn as (Hn & _).
      apply bind_inv in H as (u & r5 & _ & H). injection H as <- _. congruence. }
    destruct (isLetter c2); [|discriminate].
    apply bind_inv in H as (u & r4 & Hu & H).
    apply (pres_at _ _ _ _ _ (pres_ignore _ same_stack_refl same_stack_trans _ stack_unread)) in Hu.
    apply bind_inv in H as (n0 & r5 & Hn & H).
    apply (pres_at _ _ _ _ _ stack_parseOpenElement) in Hn.
    apply bind_inv in H as (u' & r6 & Hp & H). injection H as <- <-.
    unfold same_stack in *. unfold push in Hp.
    destruct (SelfClosing n0); inversion Hp; subst; simpl; congruence.
  - apply bind_inv in H as (u & r2 & _ & H).
    apply parseText_type in H. congruence.
Qed.

Lemma attempt_inv {A} (m : M A) r x r' :
  attempt m r = (Some (Ok x), r') -> m r = (Some x, r').
Proof.
  unfold attempt. destruct (m r) as [[y|] r1]; intros H; inversion H; reflexivity.
Qed.

(** The node [Read] returns is the node of a scan step, and the reader is
    the one the filter left after that step. *)
Lemma Read_returns_scanned r n err r' :
  Read r = (Some (Ok (Some n, err)), r') ->
  exists r0 r1,
    next r0 = (Some (Ok n), r1) /\
    call_keep (Typ n) (NodeName n) r1 = (Some (Ok err), r').
Proof.
  unfold Read. intros H.
  refine (forever_inv _ (fun _ _ => True)
            (fun res r' => forall n err, res = (Some n, err) ->
               exists r0 r1, next r0 = (Some (Ok n), r1) /\
                 call_keep (Typ n) (NodeName n) r1 = (Some (Ok err), r'))
            _ tt r _ r' I H n err eq_refl).
  clear. intros [] r x r' _ H.
  apply bind_inv in H as (y & r1 & Hy & H). apply attempt_inv in Hy.
  destruct y as [n|e].
  - apply bind_inv in H as (err & r2 & Hk & H).
    destruct (is_error err ErrIgnore).
    + apply bind_inv in H as (z & r3 & _ & H).
      destruct z; injection H as <- <-; [exact I | discriminate].
    + destruct (is_error err ErrSkip); injection H as <- <-; [exact I|].
      intros n' err' [= <- <-]. eauto.
  - injection H as <- <-. discriminate.
Qed.

(** C6. A begin-element token that [Read] returns comes from a scan
    step, after which the filter changed the world at most; [Depth()] is
    then the depth before that scan step plus one, or that depth when the
    token is self-closing. *)
Theorem begin_element_depth r n err r' :
  Read r = (Some (Ok (Some n, err)), r') ->
  Typ n = BeginElement ->
  exists r0,
    fst (next r0) = Some (Ok n) /\
    r' = with_world (snd (next r0)) (world r') /\
    Depth r' = (Depth r0 + if SelfClosing n then 0 else 1)%nat.
Proof.
  intros H Ht. apply Read_returns_scanned in H as (r0 & r1 & Hn & Hk).
  exists r0. rewrite Hn. simpl.
  unfold call_keep in Hk.
  destruct (keep r1 (Typ n) (NodeName n) (world r1)) as [e w].
  injection Hk as _ <-. simpl.
  split; [reflexivity|]. split; [reflexivity|].
  unfold Depth. simpl. rewrite (next_begin_stack _ _ _ Hn Ht).
  destruct (SelfClosing n); [lia|]. rewrite length_app. simpl. lia.
Qed.

(** ** The methods that only move the cursor *)

Definition only_rs (r r' : Reader) : Prop := r' = with_rs r (rs r').

Lemma only_rs_refl r : only_rs r r.
Proof. unfold only_rs. now rewrite with_rs_same. Qed.

Lemma only_rs_trans a b c : only_rs a b -> only_rs b c -> only_rs a c.
Proof. unfold only_rs. intros -> ->. reflexivity. Qed.

Lemma only_rs_read : pres only_rs read.
Proof. intros r. unfold read, ReadRune. now destruct (pending (rs r)). Qed.

Lemma only_rs_read_any : pres only_rs read_any.
Proof. intros r. unfold read_any, ReadRune. now destruct (pending (rs r)). Qed.

Lemma only_rs_unread : pres only_rs unread.
Proof.
  intros r. unfold unread, UnreadRune.
  destruct (lastRune (rs r)); reflexivity.
Qed.

Ltac cursor_frame :=
  first [ exact only_rs_refl | exact only_rs_trans | exact only_rs_read
        | exact only_rs_read_any | exact only_rs_unread ].

Lemma only_rs_skipBlanks : pres only_rs skipBlanks.
Proof. apply pres_skipBlanks; cursor_frame. Qed.

Lemma only_rs_want c : pres only_rs (want c).
Proof. apply pres_want; cursor_frame. Qed.

Lemma only_rs_peek : pres only_rs peek.
Proof. apply pres_peek; cursor_frame. Qed.

Lemma only_rs_parseName : pres only_rs parseName.
Proof. apply pres_parseName; cursor_frame. Qed.

Lemma only_rs_parseEntity : pres only_rs parseEntity.
Proof. apply pres_parseEntity; cursor_frame. Qed.

Lemma only_rs_parseValue : pres only_rs parseValue.
Proof. apply pres_parseValue; cursor_frame. Qed.

Lemma only_rs_ignore_unread : pres only_rs (ignore unread).
Proof. apply pres_ignore; cursor_frame. Qed.

(** ** The rounds of dispatch in the trace *)

Fixpoint rounds (t : list Entry) : list Event :=
  match t with
  | [] => []
  | Dispatch ev :: t' => ev :: rounds t'
  | Fired _ _ :: t' => rounds t'
  end.

Definition attr_event (a : Attr) : Event := EvAttr (AttrName a) (Value a).

Lemma rounds_app t u : rounds (t ++ u) = rounds t ++ rounds u.
Proof.
  induction t as [|[ev|tg out] t IH]; simpl; [reflexivity| |assumption].
  now rewrite IH.
Qed.

(** The stack, the filter, the flag and the rounds: what the calls of
    the callbacks leave as it is. *)
Definition same_rounds (r r' : Reader) : Prop :=
  stack r' = stack r /\ rs r' = rs r /\ keep r' = keep r /\
  silent_on (listeners r') = silent_on (listeners r) /\
  rounds (trace r') = rounds (trace r).

Lemma same_rounds_refl r : same_rounds r r.
Proof. repeat split. Qed.

Lemma same_rounds_trans a b c : same_rounds a b -> same_rounds b c -> same_rounds a c.
Proof. unfold same_rounds. intuition congruence. Qed.

Lemma same_rounds_invoke A (fn : Listener A) a : pres same_rounds (invoke fn a).
Proof.
  intros r. unfold invoke. destruct (call fn a (world r)) as [e w]. simpl.
  repeat split. simpl. rewrite rounds_app. simpl. apply app_nil_r.
Qed.

Lemma same_rounds_emitLoop {A} (a : A) set : pres same_rounds (emitLoop a set).
Proof.
  unfold emitLoop.
  apply pres_iterate; try exact same_rounds_refl; try exact same_rounds_trans.
  intros [i s]. destruct (nth_error s i) as [fn|].
  - apply pres_bind; try exact same_rounds_trans; [apply same_rounds_invoke|].
    intros [e|]; [destruct (errors_Is e ErrUnsubscribe)|];
      apply pres_ret; exact same_rounds_refl.
  - apply pres_ret; exact same_rounds_refl.
Qed.

(** A dispatch that is not silenced: one round more in the trace. *)
Lemma emit_round {A} ev (a : A) set (setf : Listeners -> list (Listener A) -> Listeners) r x r' :
  (forall l s, silent_on (setf l s) = silent_on l) ->
  (log (Dispatch ev) ;;
   '(set, err) <- emitLoop a set ;;
   set_listeners (fun l => setf l set) ;;
   ret err) r = (x, r') ->
  stack r' = stack r /\ rs r' = rs r /\ keep r' = keep r /\
  silent_on (listeners r') = silent_on (listeners r) /\
  rounds (trace r') = rounds (trace r) ++ [ev].
Proof.
  intros Hset H. unfold bind at 1 in H. simpl in H.
  pose proof (same_rounds_emitLoop a set (with_trace r (trace r ++ [Dispatch ev]))) as HL.
  destruct (bind_cases (emitLoop a set)
              (fun x => let '(set, err) := x in
                        set_listeners (fun l => setf l set) ;; ret err)
              (with_trace r (trace r ++ [Dispatch ev])))
    as [((s', err) & r1 & E & E') | [(e & r1 & E & E') | (r1 & E & E')]];
    rewrite E' in H; rewrite E in HL; unfold same_rounds in HL; simpl in HL;
    destruct HL as (H1 & H2 & H3 & H4 & H5);
    rewrite rounds_app in H5; simpl in H5.
  - unfold bind, set_listeners, ret in H. injection H as _ <-. simpl.
    rewrite Hset. auto.
  - injection H as _ <-. auto.
  - injection H as _ <-. auto.
Qed.

Lemma only_rs_fields r r' :
  only_rs r r' ->
  stack r' = stack r /\ keep r' = keep r /\ listeners r' = listeners r /\
  world r' = world r /\ trace r' = trace r.
Proof. intros ->. simpl. auto. Qed.

Create HintDb cursor.
#[local] Hint Resolve only_rs_read only_rs_read_any only_rs_unread
  only_rs_skipBlanks only_rs_want only_rs_peek only_rs_parseName
  only_rs_parseEntity only_rs_parseValue only_rs_ignore_unread : cursor.

(** What a step that only moves the cursor left as it was. *)
Ltac cursor_step Hs :=
  apply (pres_at only_rs) in Hs;
  [ apply only_rs_fields in Hs; destruct Hs as (? & ? & ? & ? & ?)
  | solve [auto with cursor] ].

Ltac bind_step H a r Hs :=
  apply bind_inv in H; destruct H as (a & r & Hs & H).

Lemma check_inv (m : M (option error)) r u r' :
  check m r = (Some (Ok u), r') -> m r = (Some (Ok None), r').
Proof.
  unfold check. intros H. apply bind_inv in H as ([e|] & r1 & Hm & H).
  - discriminate.
  - injection H as _ <-. exact Hm.
Qed.

Lemma emitBegin_round n r x r' :
  silent_on (listeners r) = false ->
  emitBegin n r = (x, r') ->
  stack r' = stack r /\ rs r' = rs r /\ keep r' = keep r /\
  silent_on (listeners r') = silent_on (listeners r) /\
  rounds (trace r') = rounds (trace r) ++ [EvBegin n].
Proof.
  intros Hs H. unfold emitBegin in H. rewrite Hs in H.
  now apply (emit_round (EvBegin n) n (begins (listeners r)) with_begins) in H.
Qed.

Lemma emitAttr_round n s r x r' :
  silent_on (listeners r) = false ->
  emitAttr n s r = (x, r') ->
  stack r' = stack r /\ rs r' = rs r /\ keep r' = keep r /\
  silent_on (listeners r') = silent_on (listeners r) /\
  rounds (trace r') = rounds (trace r) ++ [EvAttr n s].
Proof.
  intros Hs H. unfold emitAttr in H. rewrite Hs in H.
  now apply (emit_round (EvAttr n s) (n, s) (attrs (listeners r)) with_attrs) in H.
Qed.

(** Every attribute [parseAttributes] adds to the node was dispatched,
    in the order of the node. *)
Lemma parseAttributes_rounds n r n' r' :
  silent_on (listeners r) = false ->
  parseAttributes n r = (Some (Ok n'), r') ->
  silent_on (listeners r') = false /\
  exists added,
    Attrs n' = Attrs n ++ added /\
    rounds (trace r') = rounds (trace r) ++ map attr_event added.
Proof.
  intros Hs H. unfold parseAttributes in H.
  bind_step H n1 r1 Hloop. bind_step H u r2 Hu. injection H as <- <-.
  cursor_step Hu.
  match type of Hloop with
  | forever ?b ?s _ = _ =>
      apply (forever_inv b
               (fun st r0 =>
                  silent_on (listeners r0) = false /\
                  exists added,
                    Attrs (snd st) = Attrs n ++ added /\
                    rounds (trace r0) = rounds (trace r) ++ map attr_event added)
               (fun a r0 =>
                  silent_on (listeners r0) = false /\
                  exists added,
                    Attrs a = Attrs n ++ added /\
                    rounds (trace r0) = rounds (trace r) ++ map attr_event added))
        in Hloop
  end.
  - destruct Hloop as (Hs' & added & Ha & Hr).
    split; [congruence|]. exists added. split; [assumption | congruence].
  - clear. intros [seen n0] r0 x r0' (Hs & added & Ha & Hr) H. simpl in Ha.
    bind_step H c r1 Hc. cursor_step Hc.
    destruct (negb (isName c)).
    { injection H as <- <-. split; [congruence|].
      exists added. split; [assumption | congruence]. }
    bind_step H u r2 Hu. cursor_step Hu.
    bind_step H name r3 Hn. cursor_step Hn.
    destruct (existsb (Name_Equal name) seen); [discriminate|].
    bind_step H u1 r4 Hb1. cursor_step Hb1.
    bind_step H u2 r5 Hw. cursor_step Hw.
    bind_step H u3 r6 Hb2. cursor_step Hb2.
    bind_step H val r7 Hv. cursor_step Hv.
    bind_step H u4 r8 He. apply check_inv in He.
    apply emitAttr_round in He; [|congruence].
    destruct He as (_ & _ & _ & Hs8 & Hr8).
    bind_step H u5 r9 Hb3. cursor_step Hb3.
    injection H as <- <-. simpl.
    split; [congruence|].
    exists (added ++ [mkAttr name val]). split.
    + rewrite Ha. symmetry. apply app_assoc.
    + rewrite map_app, app_assoc. simpl. unfold attr_event at 2. simpl.
      congruence.
  - simpl. split; [assumption|]. exists []. split; now rewrite app_nil_r.
Qed.

Lemma parseOpenElement_rounds r n r' :
  silent_on (listeners r) = false ->
  parseOpenElement r = (Some (Ok n), r') ->
  silent_on (listeners r') = false /\
  rounds (trace r') =
    rounds (trace r) ++ EvBegin (NodeName n) :: map attr_event (Attrs n).
Proof.
  intros Hs H. unfold parseOpenElement in H.
  bind_step H name r1 Hn. cursor_step Hn.
  bind_step H u r2 He. apply check_inv in He.
  apply emitBegin_round in He; [|congruence].
  destruct He as (_ & _ & _ & Hs2 & Hr2).
  bind_step H u1 r3 Hb. cursor_step Hb.
  bind_step H n1 r4 Ha.
  pose proof (parseAttributes_node _ _ _ _ Ha) as (_ & Hname & _).
  apply parseAttributes_rounds in Ha; [|congruence].
  destruct Ha as (Hs4 & added & Hadd & Hr4). simpl in Hadd, Hname.
  bind_step H c r5 Hc. cursor_step Hc.
  assert (silent_on (listeners r5) = false /\
          rounds (trace r5) =
            rounds (trace r) ++ EvBegin (NodeName n1) :: map attr_event (Attrs n1))
    as Hgoal.
  { split; [congruence|]. rewrite Hadd, Hname.
    replace (trace r5) with (trace r4) by congruence. rewrite Hr4.
    replace (trace r3) with (trace r2) by congruence. rewrite Hr2.
    replace (trace r1) with (trace r) by congruence.
    now rewrite <- app_assoc. }
  destruct (c =? rangle); [injection H as <- <-; exact Hgoal|].
  destruct (negb (c =? slash)); [discriminate|].
  bind_step H u2 r6 Hw. cursor_step Hw. injection H as <- <-. simpl.
  destruct Hgoal as (Hg1 & Hg2). split; congruence.
Qed.

(** The scan step that gives a begin-element dispatched its begin event
    and then one attribute event for each of its attributes. *)
Lemma next_begin_rounds r n r' :
  silent_on (listeners r) = false ->
  next r = (Some (Ok n), r') ->
  Typ n = BeginElement ->
  silent_on (listeners r') = false /\
  rounds (trace r') =
    rounds (trace r) ++ EvBegin (NodeName n) :: map attr_event (Attrs n).
Proof.
  intros Hs H Ht. unfold next in H.
  bind_step H c r1 Hc. cursor_step Hc.
  destruct (c =? langle).
  - unfold parseNode in H. bind_step H c2 r2 Hc2. cursor_step Hc2.
    apply finally_inv in H as (r3 & H & ->).
    pose proof (only_rs_fields _ _ (only_rs_skipBlanks r3)) as (_ & _ & Hl & _ & Htr).
    rewrite Hl, Htr. clear Hl Htr.
    destruct (c2 =? mark).
    { apply parseInstruction_type in H. congruence. }
    destruct (c2 =? bang).
    { bind_step H c3 r4 Hc3. bind_step H u r5 Hu.
      destruct (c3 =? lsquare); [apply parseData_type in H; congruence|].
      destruct (c3 =? hyphen); [apply parseComment_type in H; congruence|].
      discriminate. }
    destruct (c2 =? slash).
    { bind_step H n0 r4 Hn. apply parseEndElement_type in Hn as (Hn & _).
      bind_step H u r5 Hp. injection H as <- _. congruence. }
    destruct (isLetter c2); [|discriminate].
    bind_step H u r4 Hu. cursor_step Hu.
    bind_step H n0 r5 Hn.
    apply parseOpenElement_rounds in Hn; [|congruence].
    destruct Hn as (Hs5 & Hr5).
    bind_step H u' r6 Hp. injection H as <- <-.
    unfold push in Hp.
    destruct (SelfClosing n0); inversion Hp; subst; simpl;
      (split; [assumption|]); rewrite Hr5; congruence.
  - bind_step H u r2 Hu. apply parseText_type in H. congruence.
Qed.

(** ** Silent mode *)

(** In silent mode a method calls no callback and leaves the lists of
    callbacks, the world and the trace as they are. *)
Definition silenced (r r' : Reader) : Prop :=
  silent_on (listeners r) = true ->
  listeners r' = listeners r /\ world r' = world r /\ trace r' = trace r.

Lemma silenced_refl r : silenced r r.
Proof. intros _. auto. Qed.

Lemma silenced_trans a b c : silenced a b -> silenced b c -> silenced a c.
Proof.
  unfold silenced. intros H1 H2 Hs. destruct (H1 Hs) as (Hl & Hw & Ht).
  rewrite <- Hl in Hs. destruct (H2 Hs) as (Hl' & Hw' & Ht'). repeat split; congruence.
Qed.

Lemma silenced_of_only_rs {A} (m : M A) : pres only_rs m -> pres silenced m.
Proof.
  intros H r _. destruct (only_rs_fields _ _ (H r)) as (_ & _ & ? & ? & ?). auto.
Qed.

Lemma silenced_emitBegin n : pres silenced (emitBegin n).
Proof. intros r Hs. unfold emitBegin. rewrite Hs. auto. Qed.

Lemma silenced_emitEnd n : pres silenced (emitEnd n).
Proof. intros r Hs. unfold emitEnd. rewrite Hs. auto. Qed.

Lemma silenced_emitInst n : pres silenced (emitInst n).
Proof. intros r Hs. unfold emitInst. rewrite Hs. auto. Qed.

Lemma silenced_emitText s : pres silenced (emitText s).
Proof. intros r Hs. unfold emitText. rewrite Hs. auto. Qed.

Lemma silenced_emitComment s : pres silenced (emitComment s).
Proof. intros r Hs. unfold emitComment. rewrite Hs. auto. Qed.

Lemma silenced_emitAttr n s : pres silenced (emitAttr n s).
Proof. intros r Hs. unfold emitAttr. rewrite Hs. auto. Qed.

Lemma silenced_push n : pres silenced (push n).
Proof. intros r _. unfold push. now destruct (SelfClosing n). Qed.

Lemma silenced_pop n : pres silenced (pop n).
Proof.
  intros r _. unfold pop. destruct (Nat.eqb _ 0); [auto|].
  now destruct (negb _).
Qed.

Ltac silenced_frame :=
  first [ exact silenced_refl | exact silenced_trans
        | exact silenced_push | exact silenced_pop
        | apply silenced_of_only_rs; solve [auto with cursor]
        | exact silenced_emitBegin | exact silenced_emitEnd
        | exact silenced_emitInst | exact silenced_emitText
        | exact silenced_emitComment | exact silenced_emitAttr ].

Lemma silenced_next : pres silenced next.
Proof. apply pres_next; silenced_frame. Qed.

Lemma with_silent_twice l :
  silent_on l = false ->
  with_silent (with_silent l (negb (silent_on l)))
              (negb (silent_on (with_silent l (negb (silent_on l))))) = l.
Proof. destruct l as [s b e i a t c]. simpl. intros ->. reflexivity. Qed.

(** A subtree skip calls no callback: whether it ends or fails, the
    trace, the world, the lists of callbacks and the flag are as they were
    before it. *)
Lemma skipSubtree_silent n r :
  silent_on (listeners r) = false ->
  listeners (snd (skipSubtree n r)) = listeners r /\
  world (snd (skipSubtree n r)) = world r /\
  trace (snd (skipSubtree n r)) = trace r.
Proof.
  intros Hs. remember (snd (skipSubtree n r)) as s eqn:Es.
  unfold skipSubtree in Es.
  destruct (negb (NodeType_eqb (Typ n) BeginElement) || SelfClosing n);
    [subst s; auto|].
  unfold bind at 1 in Es. unfold silent at 1 in Es.
  set (r1 := with_listeners r
               (with_silent (listeners r) (negb (silent_on (listeners r))))) in Es.
  unfold finally in Es.
  match type of Es with
  | context [let (_, _) := ?m r1 in _] =>
      assert (pres silenced m) as Hm; [| specialize (Hm r1); destruct (m r1) as [x r2]]
  end.
  { apply pres_bind; [exact silenced_trans | apply pres_gets; exact silenced_refl |].
    intros depth. apply pres_forever; [exact silenced_refl | exact silenced_trans |].
    intros _. apply pres_bind; [exact silenced_trans | exact silenced_next |].
    intros c. apply pres_bind; [exact silenced_trans | apply pres_gets; exact silenced_refl |].
    intros d. destruct (_ && _); apply pres_ret; exact silenced_refl. }
  simpl in Hm, Es. destruct Hm as (Hl & Hw & Ht).
  { subst r1. simpl. now rewrite Hs. }
  subst s. simpl. rewrite Hl, Hw, Ht. subst r1. simpl.
  split; [|split; reflexivity].
  now apply with_silent_twice.
Qed.

(** ** A round of dispatch *)

(** What a callback returned: nil or an error that is [ErrUnsubscribe],
    after which the round goes on. *)
Definition unsubscribed (out : option error) : bool := is_error out ErrUnsubscribe.

Definition goes_on (out : option error) : Prop :=
  out = None \/ unsubscribed out = true.

(** The entries of the trace for the callbacks [fns] called in turn with
    the outcomes [outs]. *)
Definition fired {A} (fns : list (Listener A)) (outs : list (option error)) : list Entry :=
  map (fun p => Fired (tag (fst p)) (snd p)) (combine fns outs).

(** The callbacks among [fns] that did not unsubscribe. *)
Definition kept {A} (fns : list (Listener A)) (outs : list (option error))
  : list (Listener A) :=
  map fst (filter (fun p => negb (unsubscribed (snd p))) (combine fns outs)).

(** How a round ended: every callback was called and the round goes on
    after each, with no error; or the last call returned an error that is
    not [ErrUnsubscribe], which [checkListenerError] turns into the error
    of the round. *)
Definition ended {A} (rest : list (Listener A)) (outs : list (option error))
    (err : option error) : Prop :=
  (rest = [] /\ err = None /\ Forall goes_on outs) \/
  (exists outs0 e,
      outs = outs0 ++ [Some e] /\ Forall goes_on outs0 /\
      errors_Is e ErrUnsubscribe = false /\ err = checkListenerError e).

Lemma nth_error_middle {A} (done todo : list A) :
  nth_error (done ++ todo) (List.length done) = nth_error todo 0.
Proof. rewrite nth_error_app2 by lia. now rewrite Nat.sub_diag. Qed.

Lemma cut_middle {A} (done : list A) x todo :
  firstn (List.length done) (done ++ x :: todo) ++
  skipn (S (List.length done)) (done ++ x :: todo) = done ++ todo.
Proof.
  rewrite firstn_app, Nat.sub_diag, firstn_all. simpl firstn. rewrite app_nil_r.
  rewrite skipn_app, (skipn_all2 done) by lia.
  replace (S (List.length done) - List.length done)%nat with 1%nat by lia.
  reflexivity.
Qed.

(** The loop calls a prefix of the list in the order of registration,
    once each; it returns the list without the callbacks that
    unsubscribed; it touches nothing but the world and the trace. *)
Lemma emitLoop_round {A} (a : A) (set : list (Listener A)) r :
  exists called rest outs err r',
    emitLoop a set r = (Some (Ok (kept called outs ++ rest, err)), r') /\
    set = called ++ rest /\
    List.length outs = List.length called /\
    trace r' = trace r ++ fired called outs /\
    rs r' = rs r /\ stack r' = stack r /\ keep r' = keep r /\
    listeners r' = listeners r /\
    ended rest outs err.
Proof.
  unfold emitLoop.
  match goal with |- context [iterate _ ?b _] => set (body := b) end.
  assert (forall todo done fuel r,
            (List.length todo < fuel)%nat ->
            exists called rest outs err r',
              iterate fuel body (List.length done, done ++ todo) r =
                (Some (Ok (done ++ kept called outs ++ rest, err)), r') /\
              todo = called ++ rest /\
              List.length outs = List.length called /\
              trace r' = trace r ++ fired called outs /\
              rs r' = rs r /\ stack r' = stack r /\ keep r' = keep r /\
              listeners r' = listeners r /\
              ended rest outs err) as L.
  { clear. induction todo as [|fn todo IH]; intros done fuel r Hf;
      (destruct fuel as [|fuel]; [simpl in Hf; lia|]); rewrite iterate_S;
      unfold body at 1; rewrite nth_error_middle; simpl nth_error;
      unfold break, continue.
    - exists [], [], [], None, r. rewrite bind_ret.
      repeat split; try (now rewrite app_nil_r).
      left. repeat split. constructor.
    - rewrite bind_assoc. unfold bind at 1, invoke at 1.
      destruct (call fn a (world r)) as [out w] eqn:Ec.
      set (r1 := with_trace (with_world r w) (trace r ++ [Fired (tag fn) out])).
      destruct out as [e|]; [destruct (errors_Is e ErrUnsubscribe) eqn:Eu|].
      + rewrite bind_ret, cut_middle.
        destruct (IH done fuel r1 ltac:(simpl in Hf; lia))
          as (called & rest & outs & err & r' & E & -> & Hl & Ht & Hr & Hst & Hk & Hls & He).
        exists (fn :: called), rest, (Some e :: outs), err, r'.
        rewrite E. unfold kept, fired. simpl. unfold unsubscribed at 1. simpl.
        rewrite Eu. simpl. fold (kept called outs). fold (fired called outs).
        repeat split; auto.
        * rewrite Ht. subst r1. simpl. now rewrite <- app_assoc.
        * destruct He as [(-> & -> & Hq) | (outs0 & e' & -> & Hq & Hu & ->)].
          -- left. repeat split. constructor; [right; exact Eu | exact Hq].
          -- right. exists (Some e :: outs0), e'. repeat split; auto.
             constructor; [right; exact Eu | exact Hq].
      + rewrite bind_ret.
        exists [fn], todo, [Some e], (checkListenerError e), r1.
        unfold kept, fired. simpl. rewrite Eu. simpl.
        repeat split.
        right. exists [], e. repeat split; auto.
      + rewrite bind_ret.
        replace (done ++ fn :: todo) with ((done ++ [fn]) ++ todo)
          by (rewrite <- app_assoc; reflexivity).
        replace (S (List.length done)) with (List.length (done ++ [fn]))
          by (rewrite length_app; simpl; lia).
        destruct (IH (done ++ [fn]) fuel r1 ltac:(simpl in Hf; lia))
          as (called & rest & outs & err & r' & E & -> & Hl & Ht & Hr & Hst & Hk & Hls & He).
        exists (fn :: called), rest, (None :: outs), err, r'.
        rewrite E. unfold kept, fired. simpl.
        fold (kept called outs). fold (fired called outs).
        rewrite <- app_assoc. simpl.
        repeat split; auto.
        * rewrite Ht. subst r1. simpl. now rewrite <- app_assoc.
        * destruct He as [(-> & -> & Hq) | (outs0 & e' & -> & Hq & Hu & ->)].
          -- left. repeat split. constructor; [left; reflexivity | exact Hq].
          -- right. exists (None :: outs0), e'. repeat split; auto.
             constructor; [left; reflexivity | exact Hq]. }
  destruct (L set [] (S (List.length set)) r ltac:(lia))
    as (called & rest & outs & err & r' & E & H).
  exists called, rest, outs, err, r'. split; [exact E | exact H].
Qed.


Lemma kept_cons {A} (fn : Listener A) fns out outs :
  kept (fn :: fns) (out :: outs) =
  if unsubscribed out then kept fns outs else fn :: kept fns outs.
Proof. unfold kept. simpl. now destruct (unsubscribed out). Qed.



(** ** What a round calls *)

(** The calls of a round on the callbacks [fns] with the value [a], from
    the world [w]: each callback is called with [a], on the world the
    call before it left; the round goes on after nil and after an error
    that is [ErrUnsubscribe], and ends after any other error. The
    outcomes of the calls, the error of the round and the world after
    it. *)
Fixpoint run_round {A} (a : A) (fns : list (Listener A)) (w : W)
  : list (option error) * option error * W :=
  match fns with
  | [] => ([], None, w)
  | fn :: fns' =>
      let (out, w1) := call fn a w in
      match out with
      | Some e =>
          if errors_Is e ErrUnsubscribe
          then let '(outs, err, w2) := run_round a fns' w1 in (out :: outs, err, w2)
          else ([out], checkListenerError e, w1)
      | None => let '(outs, err, w2) := run_round a fns' w1 in (out :: outs, err, w2)
      end
  end.

(** The loop of a round makes the calls of [run_round], writes each of
    them to the trace, and returns the callbacks without those that
    unsubscribed. *)
Lemma emitLoop_run {A} (a : A) (set : list (Listener A)) r :
  emitLoop a set r =
  let '(outs, err, w') := run_round a set (world r) in
  let called := firstn (List.length outs) set in
  (Some (Ok (kept called outs ++ skipn (List.length outs) set, err)),
   with_trace (with_world r w') (trace r ++ fired called outs)).
Proof.
  unfold emitLoop.
  match goal with |- context [iterate _ ?b _] => set (body := b) end.
  assert (forall todo done fuel r,
            (List.length todo < fuel)%nat ->
            iterate fuel body (List.length done, done ++ todo) r =
            let '(outs, err, w') := run_round a todo (world r) in
            let called := firstn (List.length outs) todo in
            (Some (Ok (done ++ kept called outs ++ skipn (List.length outs) todo, err)),
             with_trace (with_world r w') (trace r ++ fired called outs))) as L.
  { clear. induction todo as [|fn todo IH]; intros done fuel r Hf;
      (destruct fuel as [|fuel]; [simpl in Hf; lia|]); rewrite iterate_S;
      unfold body at 1; rewrite nth_error_middle; simpl nth_error;
      unfold break, continue.
    - rewrite bind_ret. simpl. unfold ret, fired. simpl.
      rewrite !app_nil_r. now destruct r.
    - rewrite bind_assoc. unfold bind at 1, invoke at 1. simpl run_round.
      destruct (call fn a (world r)) as [out w] eqn:Ec.
      set (r1 := with_trace (with_world r w) (trace r ++ [Fired (tag fn) out])).
      destruct out as [e|]; [destruct (errors_Is e ErrUnsubscribe) eqn:Eu|].
      + rewrite bind_ret, cut_middle.
        rewrite (IH done fuel r1) by (simpl in Hf; lia).
        cbn [world r1 with_trace with_world].
        destruct (run_round a todo w) as [[outs err] w2].
        cbv zeta. simpl List.length. simpl firstn. simpl skipn.
        rewrite kept_cons. unfold unsubscribed. cbn [is_error]. rewrite Eu.
        unfold fired. simpl. unfold r1. simpl. now rewrite <- app_assoc.
      + rewrite bind_ret. unfold ret. cbv zeta. simpl List.length.
        simpl firstn. simpl skipn.
        rewrite kept_cons. unfold unsubscribed. cbn [is_error]. rewrite Eu.
        reflexivity.
      + rewrite bind_ret.
        replace (done ++ fn :: todo) with ((done ++ [fn]) ++ todo)
          by (rewrite <- app_assoc; reflexivity).
        replace (S (List.length done)) with (List.length (done ++ [fn]))
          by (rewrite length_app; simpl; lia).
        rewrite (IH (done ++ [fn]) fuel r1) by (simpl in Hf; lia).
        cbn [world r1 with_trace with_world].
        destruct (run_round a todo w) as [[outs err] w2].
        cbv zeta. simpl List.length. simpl firstn. simpl skipn.
        rewrite kept_cons. unfold unsubscribed. cbn [is_error].
        unfold fired. simpl. unfold r1. simpl.
        now rewrite <- !app_assoc. }
  apply (L set [] (S (List.length set)) r). lia.
Qed.

(** What the callbacks see and do: the trace, the world and the lists of
    callbacks. *)
Definition Disp : Type := list Entry * W * Listeners.

Definition disp (r : Reader) : Disp := (trace r, world r, listeners r).

(** A round of the event [ev] on the callbacks of a category, which are
    called with [a]: the event and the calls of [run_round] are added to
    the trace, the world is the world the calls leave, and the callbacks
    that unsubscribed are taken out of the category. The other categories
    are left as they are. *)
Definition after_round {A} (ev : Event) (a : A)
    (get : Listeners -> list (Listener A))
    (setf : Listeners -> list (Listener A) -> Listeners) (d : Disp) : Disp :=
  let '(t, w, l) := d in
  let '(outs, _, w') := run_round a (get l) w in
  let called := firstn (List.length outs) (get l) in
  (t ++ Dispatch ev :: fired called outs, w',
   setf l (kept called outs ++ skipn (List.length outs) (get l))).

(** The error of the round on the callbacks of a category. *)
Definition round_error {A} (a : A) (fns : list (Listener A)) (w : W) : option error :=
  snd (fst (run_round a fns w)).

Definition begin_round (n : Name) : Disp -> Disp :=
  after_round (EvBegin n) n begins with_begins.

Definition end_round (n : Name) : Disp -> Disp :=
  after_round (EvEnd n) n ends with_ends.

Definition text_round (s : list Z) : Disp -> Disp :=
  after_round (EvText s) s texts with_texts.

Definition comment_round_of (s : list Z) : Disp -> Disp :=
  after_round (EvComment s) s comments with_comments.

Definition attribute_round (d : Disp) (a : Attr) : Disp :=
  after_round (attr_event a) (AttrName a, Value a) attrs with_attrs d.

Lemma emit_run {A} ev (a : A) (get : Listeners -> list (Listener A))
      (setf : Listeners -> list (Listener A) -> Listeners) r x r' :
  (log (Dispatch ev) ;;
   '(set, err) <- emitLoop a (get (listeners r)) ;;
   set_listeners (fun l => setf l set) ;;
   ret err) r = (x, r') ->
  disp r' = after_round ev a get setf (disp r) /\
  x = Some (Ok (round_error a (get (listeners r)) (world r))).
Proof.
  unfold bind at 1. simpl. unfold bind at 1. rewrite emitLoop_run.
  cbn [world with_trace]. unfold round_error, after_round, disp.
  destruct (run_round a (get (listeners r)) (world r)) as [[outs err] w'].
  cbv zeta. unfold bind, set_listeners, ret. intros [= <- <-]. simpl.
  now rewrite <- app_assoc.
Qed.

Lemma emitBegin_run n r x r' :
  silent_on (listeners r) = false ->
  emitBegin n r = (x, r') ->
  disp r' = begin_round n (disp r) /\
  x = Some (Ok (round_error n (begins (listeners r)) (world r))).
Proof.
  intros Hs H. unfold emitBegin in H. rewrite Hs in H.
  exact (emit_run (EvBegin n) n begins with_begins r x r' H).
Qed.

Lemma emitEnd_run n r x r' :
  silent_on (listeners r) = false ->
  emitEnd n r = (x, r') ->
  disp r' = end_round n (disp r) /\
  x = Some (Ok (round_error n (ends (listeners r)) (world r))).
Proof.
  intros Hs H. unfold emitEnd in H. rewrite Hs in H.
  exact (emit_run (EvEnd n) n ends with_ends r x r' H).
Qed.

Lemma emitText_run s r x r' :
  silent_on (listeners r) = false ->
  emitText s r = (x, r') ->
  disp r' = text_round s (disp r) /\
  x = Some (Ok (round_error s (texts (listeners r)) (world r))).
Proof.
  intros Hs H. unfold emitText in H. rewrite Hs in H.
  exact (emit_run (EvText s) s texts with_texts r x r' H).
Qed.

Lemma emitComment_run s r x r' :
  silent_on (listeners r) = false ->
  emitComment s r = (x, r') ->
  disp r' = comment_round_of s (disp r) /\
  x = Some (Ok (round_error s (comments (listeners r)) (world r))).
Proof.
  intros Hs H. unfold emitComment in H. rewrite Hs in H.
  exact (emit_run (EvComment s) s comments with_comments r x r' H).
Qed.

Lemma emitAttr_run n s r x r' :
  silent_on (listeners r) = false ->
  emitAttr n s r = (x, r') ->
  disp r' = attribute_round (disp r) (mkAttr n s) /\
  x = Some (Ok (round_error (n, s) (attrs (listeners r)) (world r))).
Proof.
  intros Hs H. unfold emitAttr in H. rewrite Hs in H.
  exact (emit_run (EvAttr n s) (n, s) attrs with_attrs r x r' H).
Qed.

Lemma disp_only_rs r r' : only_rs r r' -> disp r' = disp r.
Proof. intros ->. reflexivity. Qed.

(** Every attribute [parseAttributes] adds to the node was given to the
    attribute callbacks, in the order of the node. *)
Lemma parseAttributes_disp n r n' r' :
  silent_on (listeners r) = false ->
  parseAttributes n r = (Some (Ok n'), r') ->
  exists added,
    Attrs n' = Attrs n ++ added /\
    disp r' = fold_left attribute_round added (disp r).
Proof.
  intros Hs H. unfold parseAttributes in H.
  bind_step H n1 r1 Hloop. bind_step H u r2 Hu. injection H as <- <-.
  apply (pres_at only_rs) in Hu; [|solve [auto with cursor]].
  apply disp_only_rs in Hu. rewrite Hu. clear Hu.
  match type of Hloop with
  | forever ?b ?s _ = _ =>
      apply (forever_inv b
               (fun st r0 =>
                  silent_on (listeners r0) = false /\
                  exists added,
                    Attrs (snd st) = Attrs n ++ added /\
                    disp r0 = fold_left attribute_round added (disp r))
               (fun a r0 =>
                  exists added,
                    Attrs a = Attrs n ++ added /\
                    disp r0 = fold_left attribute_round added (disp r)))
        in Hloop
  end.
  - exact Hloop.
  - clear. intros [seen n0] r0 x r0' (Hs & added & Ha & Hr) H. simpl in Ha.
    bind_step H c r1 Hc. cursor_step Hc.
    destruct (negb (isName c)).
    { injection H as <- <-. exists added. split; [assumption|].
      rewrite <- Hr. unfold disp. congruence. }
    bind_step H u r2 Hu. cursor_step Hu.
    bind_step H name r3 Hn. cursor_step Hn.
    destruct (existsb (Name_Equal name) seen); [discriminate|].
    bind_step H u1 r4 Hb1. cursor_step Hb1.
    bind_step H u2 r5 Hw. cursor_step Hw.
    bind_step H u3 r6 Hb2. cursor_step Hb2.
    bind_step H val r7 Hv. cursor_step Hv.
    bind_step H u4 r8 He. apply check_inv in He.
    assert (silent_on (listeners r7) = false) as Hs7 by congruence.
    pose proof (emitAttr_round _ _ _ _ _ Hs7 He) as (_ & _ & _ & Hs8 & _).
    apply (emitAttr_run _ _ _ _ _ Hs7) in He. destruct He as (Hd8 & _).
    bind_step H u5 r9 Hb3. cursor_step Hb3.
    injection H as <- <-. simpl.
    split; [congruence|].
    exists (added ++ [mkAttr name val]). split.
    + rewrite Ha. symmetry. apply app_assoc.
    + rewrite fold_left_app. simpl. rewrite <- Hr.
      replace (disp r0) with (disp r7) by (unfold disp; congruence).
      rewrite <- Hd8. unfold disp. congruence.
  - simpl. split; [assumption|]. exists []. split; [now rewrite app_nil_r | reflexivity].
Qed.

Lemma parseOpenElement_disp r n r' :
  silent_on (listeners r) = false ->
  parseOpenElement r = (Some (Ok n), r') ->
  disp r' = fold_left attribute_round (Attrs n) (begin_round (NodeName n) (disp r)).
Proof.
  intros Hs H. unfold parseOpenElement in H.
  bind_step H name r1 Hn. cursor_step Hn.
  bind_step H u r2 He. apply check_inv in He.
  assert (silent_on (listeners r1) = false) as Hs1 by congruence.
  pose proof (emitBegin_round _ _ _ _ Hs1 He) as (_ & _ & _ & Hs2 & _).
  apply (emitBegin_run _ _ _ _ Hs1) in He. destruct He as (Hd2 & _).
  bind_step H u1 r3 Hb. cursor_step Hb.
  bind_step H n1 r4 Ha.
  pose proof (parseAttributes_node _ _ _ _ Ha) as (_ & Hname & _).
  apply parseAttributes_disp in Ha; [|congruence].
  destruct Ha as (added & Hadd & Hd4). simpl in Hadd, Hname.
  bind_step H c r5 Hc. cursor_step Hc.
  assert (disp r5 =
          fold_left attribute_round (Attrs n1) (begin_round (NodeName n1) (disp r)))
    as Hgoal.
  { rewrite Hadd, Hname.
    replace (disp r5) with (disp r4) by (unfold disp; congruence). rewrite Hd4.
    replace (disp r3) with (disp r2) by (unfold disp; congruence). rewrite Hd2.
    replace (disp r1) with (disp r) by (unfold disp; congruence). reflexivity. }
  destruct (c =? rangle); [injection H as <- <-; exact Hgoal|].
  destruct (negb (c =? slash)); [discriminate|].
  bind_step H u2 r6 Hw. cursor_step Hw. injection H as <- <-. cbn [Attrs NodeName].
  rewrite <- Hgoal. unfold disp. congruence.
Qed.

(** The scan step that gives a begin-element gave its name to the begin
    callbacks and then each of its attributes to the attribute
    callbacks. *)
Lemma next_begin_disp r n r' :
  silent_on (listeners r) = false ->
  next r = (Some (Ok n), r') ->
  Typ n = BeginElement ->
  disp r' = fold_left attribute_round (Attrs n) (begin_round (NodeName n) (disp r)).
Proof.
  intros Hs H Ht. unfold next in H.
  bind_step H c r1 Hc. cursor_step Hc.
  destruct (c =? langle).
  - unfold parseNode in H. bind_step H c2 r2 Hc2. cursor_step Hc2.
    apply finally_inv in H as (r3 & H & ->).
    rewrite (disp_only_rs _ _ (only_rs_skipBlanks r3)).
    destruct (c2 =? mark).
    { apply parseInstruction_type in H. congruence. }
    destruct (c2 =? bang).
    { bind_step H c3 r4 Hc3. bind_step H u r5 Hu.
      destruct (c3 =? lsquare); [apply parseData_type in H; congruence|].
      destruct (c3 =? hyphen); [apply parseComment_type in H; congruence|].
      discriminate. }
    destruct (c2 =? slash).
    { bind_step H n0 r4 Hn. apply parseEndElement_type in Hn as (Hn & _).
      bind_step H u r5 Hp. injection H as <- _. congruence. }
    destruct (isLetter c2); [|discriminate].
    bind_step H u r4 Hu. cursor_step Hu.
    bind_step H n0 r5 Hn.
    apply parseOpenElement_disp in Hn; [|congruence].
    bind_step H u' r6 Hp. injection H as <- <-.
    replace (disp r) with (disp r4) by (unfold disp; congruence).
    rewrite <- Hn. unfold push in Hp.
    destruct (SelfClosing n0); inversion Hp; subst; reflexivity.
  - bind_step H u r2 Hu. apply parseText_type in H. congruence.
Qed.

Definition inst_round (n : Name) : Disp -> Disp :=
  after_round (EvInst n) n insts with_insts.

Lemma emitInst_run n r x r' :
  silent_on (listeners r) = false ->
  emitInst n r = (x, r') ->
  disp r' = inst_round n (disp r) /\
  x = Some (Ok (round_error n (insts (listeners r)) (world r))).
Proof.
  intros Hs H. unfold emitInst in H. rewrite Hs in H.
  exact (emit_run (EvInst n) n insts with_insts r x r' H).
Qed.

Lemma parseInstruction_disp r n r' :
  silent_on (listeners r) = false ->
  parseInstruction r = (Some (Ok n), r') ->
  disp r' = fold_left attribute_round (Attrs n) (inst_round (NodeName n) (disp r)).
Proof.
  intros Hs H. unfold parseInstruction in H.
  bind_step H name r1 Hn. cursor_step Hn.
  bind_step H u r2 He. apply check_inv in He.
  assert (silent_on (listeners r1) = false) as Hs1 by congruence.
  assert (silent_on (listeners r2) = false) as Hs2.
  { unfold emitInst in He. rewrite Hs1 in He.
    apply (emit_round (EvInst name) name (insts (listeners r1)) with_insts) in He;
      [| reflexivity].
    destruct He as (_ & _ & _ & Hq & _). congruence. }
  apply (emitInst_run _ _ _ _ Hs1) in He. destruct He as (Hd2 & _).
  bind_step H u1 r3 Hb. cursor_step Hb.
  bind_step H n1 r4 Ha.
  pose proof (parseAttributes_node _ _ _ _ Ha) as (_ & Hname & _).
  apply parseAttributes_disp in Ha; [|congruence].
  destruct Ha as (added & Hadd & Hd4). simpl in Hadd, Hname.
  bind_step H u2 r5 Hw. cursor_step Hw.
  bind_step H u3 r6 Hw2. cursor_step Hw2.
  injection H as <- <-. rewrite Hadd, Hname.
  replace (disp r6) with (disp r4) by (unfold disp; congruence). rewrite Hd4.
  replace (disp r3) with (disp r2) by (unfold disp; congruence). rewrite Hd2.
  replace (disp r1) with (disp r) by (unfold disp; congruence). reflexivity.
Qed.

(** The scan step that gives a processing instruction gave its name to
    the instruction callbacks and then each of its attributes to the
    attribute callbacks. *)
Lemma next_inst_disp r n r' :
  silent_on (listeners r) = false ->
  next r = (Some (Ok n), r') ->
  Typ n = ProcInst ->
  disp r' = fold_left attribute_round (Attrs n) (inst_round (NodeName n) (disp r)).
Proof.
  intros Hs H Ht. unfold next in H.
  bind_step H c r1 Hc. cursor_step Hc.
  destruct (c =? langle).
  - unfold parseNode in H. bind_step H c2 r2 Hc2. cursor_step Hc2.
    apply finally_inv in H as (r3 & H & ->).
    rewrite (disp_only_rs _ _ (only_rs_skipBlanks r3)).
    destruct (c2 =? mark).
    { apply parseInstruction_disp in H; [|congruence].
      rewrite H. unfold disp. congruence. }
    destruct (c2 =? bang).
    { bind_step H c3 r4 Hc3. bind_step H u r5 Hu.
      destruct (c3 =? lsquare); [apply parseData_type in H; congruence|].
      destruct (c3 =? hyphen); [apply parseComment_type in H; congruence|].
      discriminate. }
    destruct (c2 =? slash).
    { bind_step H n0 r4 Hn. apply parseEndElement_type in Hn as (Hn & _).
      bind_step H u r5 Hp. injection H as <- _. congruence. }
    destruct (isLetter c2); [|discriminate].
    bind_step H u r4 Hu. bind_step H n0 r5 Hn.
    apply parseOpenElement_type in Hn.
    bind_step H u' r6 Hp. injection H as <- _. congruence.
  - bind_step H u r2 Hu. apply parseText_type in H. congruence.
Qed.

(** *** Rounds on callbacks that return nil *)

(** Callbacks that return nil whatever they are given. *)
Definition calm {A} (set : list (Listener A)) : Prop :=
  forall fn a w, In fn set -> fst (call fn a w) = None.

(** The world after each of the callbacks [fns] has been called with
    [a], in their order. *)
Definition handed {A} (a : A) (fns : list (Listener A)) (w : W) : W :=
  fold_left (fun w fn => snd (call fn a w)) fns w.

(** The entries of a round in which each of [fns] was called and
    returned nil. *)
Definition heard {A} (ev : Event) (fns : list (Listener A)) : list Entry :=
  Dispatch ev :: map (fun fn => Fired (tag fn) None) fns.

Lemma with_begins_same l : with_begins l (begins l) = l.
Proof. now destruct l. Qed.

Lemma with_attrs_same l : with_attrs l (attrs l) = l.
Proof. now destruct l. Qed.

Lemma with_insts_same l : with_insts l (insts l) = l.
Proof. now destruct l. Qed.

Lemma with_texts_same l : with_texts l (texts l) = l.
Proof. now destruct l. Qed.

Lemma calm_tail {A} (fn : Listener A) fns : calm (fn :: fns) -> calm fns.
Proof. intros H f a w Hin. apply H. now right. Qed.

Lemma run_round_calm {A} (a : A) fns w :
  calm fns -> run_round a fns w = (map (fun _ => None) fns, None, handed a fns w).
Proof.
  revert w. induction fns as [|fn fns IH]; intros w Hc; [reflexivity|].
  unfold handed. simpl. pose proof (Hc fn a w (or_introl eq_refl)) as Hn.
  destruct (call fn a w) as [out w1]. simpl in Hn. subst out.
  rewrite (IH w1 (calm_tail _ _ Hc)). reflexivity.
Qed.

Lemma fired_calm {A} (fns : list (Listener A)) :
  fired fns (map (fun _ => None) fns) = map (fun fn => Fired (tag fn) None) fns.
Proof. unfold fired. induction fns; simpl; congruence. Qed.

Lemma kept_calm {A} (fns : list (Listener A)) :
  kept fns (map (fun _ => None) fns) = fns.
Proof. unfold kept. induction fns; simpl; congruence. Qed.

(** A round on callbacks that return nil calls each of them and leaves
    the list as it was. *)
Lemma after_round_calm {A} ev (a : A) get setf t w l :
  setf l (get l) = l -> calm (get l) ->
  after_round ev a get setf (t, w, l) =
  (t ++ heard ev (get l), handed a (get l) w, l).
Proof.
  intros Hsame Hc. unfold after_round. rewrite (run_round_calm a _ w Hc).
  rewrite length_map, firstn_all, skipn_all, app_nil_r, fired_calm, kept_calm, Hsame.
  reflexivity.
Qed.

Lemma attribute_rounds_calm ats t w l :
  calm (attrs l) ->
  fold_left attribute_round ats (t, w, l) =
  (t ++ flat_map (fun a => heard (attr_event a) (attrs l)) ats,
   fold_left (fun w a => handed (AttrName a, Value a) (attrs l) w) ats w, l).
Proof.
  intros Hc. revert t w. induction ats as [|a ats IH]; intros t w.
  - simpl. now rewrite app_nil_r.
  - cbn [fold_left flat_map]. unfold attribute_round at 2.
    rewrite (after_round_calm _ _ attrs with_attrs t w l (with_attrs_same l) Hc).
    rewrite IH, <- app_assoc. reflexivity.
Qed.

(** With begin and attribute callbacks that return nil, the scan step
    that gives a begin-element called each begin callback with the name
    and then, for each attribute in turn, each attribute callback with
    its name and value. *)
Lemma next_begin_calm r n r' :
  silent_on (listeners r) = false ->
  next r = (Some (Ok n), r') ->
  Typ n = BeginElement ->
  calm (begins (listeners r)) ->
  calm (attrs (listeners r)) ->
  trace r' =
    trace r ++ heard (EvBegin (NodeName n)) (begins (listeners r)) ++
    flat_map (fun a => heard (attr_event a) (attrs (listeners r))) (Attrs n) /\
  world r' =
    fold_left (fun w a => handed (AttrName a, Value a) (attrs (listeners r)) w)
      (Attrs n) (handed (NodeName n) (begins (listeners r)) (world r)) /\
  listeners r' = listeners r.
Proof.
  intros Hs H Ht Hb Ha.
  pose proof (next_begin_disp _ _ _ Hs H Ht) as Hd.
  unfold begin_round, disp in Hd.
  rewrite (after_round_calm _ _ begins with_begins _ _ _ (with_begins_same _) Hb) in Hd.
  rewrite (attribute_rounds_calm _ _ _ _ Ha), <- app_assoc in Hd.
  injection Hd as H1 H2 H3. split; [exact H1 | split; [exact H2 | exact H3]].
Qed.

(** With text callbacks that return nil, a text round calls each of
    them with the text. *)
Lemma emitText_calm s r x r' :
  silent_on (listeners r) = false ->
  calm (texts (listeners r)) ->
  emitText s r = (x, r') ->
  x = Some (Ok None) /\
  disp r' = (trace r ++ heard (EvText s) (texts (listeners r)),
             handed s (texts (listeners r)) (world r), listeners r).
Proof.
  intros Hs Hc H. destruct (emitText_run _ _ _ _ Hs H) as (Hd & ->).
  unfold text_round, disp in Hd.
  rewrite (after_round_calm _ _ texts with_texts _ _ _ (with_texts_same _) Hc) in Hd.
  split; [|exact Hd].
  unfold round_error. now rewrite (run_round_calm s _ _ Hc).
Qed.

(** ** Blanks *)

Lemma skipBlanks_loop_spec p :
  forall fuel r,
  (List.length p < fuel)%nat ->
  pending (rs r) = p ->
  iterate fuel skipBlanks_loop tt r =
  (Some (Ok tt),
   with_rs r (match TrimLeft isBlank p with
              | c :: tl => mkBufio tl (Some c)
              | [] => mkBufio [] None
              end)).
Proof.
  induction p as [|c p IH]; intros fuel r Hf Hp;
    (destruct fuel as [|fuel]; [simpl in Hf; lia|]); rewrite iterate_S;
    unfold skipBlanks_loop at 1; rewrite bind_assoc.
  - rewrite (bind_ok _ _ _ _ _ (attempt_some _ _ _ _ (read_nil _ Hp))).
    reflexivity.
  - rewrite (bind_ok _ _ _ _ _ (attempt_some _ _ _ _ (read_cons _ _ _ Hp))).
    simpl TrimLeft. destruct (isBlank c); simpl negb; cbv iota.
    + unfold continue. rewrite bind_ret.
      rewrite (IH fuel); [reflexivity | simpl in Hf; lia | reflexivity].
    + reflexivity.
Qed.

(** [skipBlanks] leaves the cursor before the first rune that is no
    blank, with nothing to unread; it never fails. *)
Lemma skipBlanks_spec r :
  skipBlanks r =
  (Some (Ok tt), with_rs r (mkBufio (TrimLeft isBlank (pending (rs r))) None)).
Proof.
  unfold skipBlanks, finally, forever.
  rewrite (skipBlanks_loop_spec (pending (rs r))) by (auto; lia).
  destruct (TrimLeft isBlank (pending (rs r))) as [|c tl]; reflexivity.
Qed.

(** ** CDATA sections *)

(** What [WriteRune] appends for the runes of [s]. *)
Definition written (s : list Z) : list Z :=
  map (fun c => if ValidRune c then c else RuneError) s.

(** The body of a section that ends at the [\]\]] after it: every [\]] in
    it is followed, in it, by a rune that is not [\]]. *)
Fixpoint cdata_body (raw : list Z) : bool :=
  match raw with
  | [] => true
  | c :: tl =>
      (if c =? rsquare
       then match tl with
            | [] => false
            | d :: _ => negb (d =? rsquare)
            end
       else true) && cdata_body tl
  end.

Lemma parseData_loop_step buf r c rest :
  pending (rs r) = c :: rest ->
  (c =? rsquare) = false \/ (exists d rest', rest = d :: rest' /\ (d =? rsquare) = false) ->
  exists b,
    parseData_loop buf r = (Some (Ok (inl (WriteRune buf c))), with_rs r b) /\
    pending b = rest.
Proof.
  intros Hp Hc. unfold parseData_loop.
  rewrite (bind_ok _ _ _ _ _ (read_cons _ _ _ Hp)).
  unfold twice. destruct (c =? rsquare) eqn:Ec.
  - destruct Hc as [[=] | (d & rest' & -> & Hd)].
    apply Z.eqb_eq in Ec. subst c.
    unfold peek. rewrite !bind_assoc.
    erewrite bind_ok; [| apply read_any_cons; reflexivity].
    rewrite !bind_assoc.
    erewrite bind_ok; [| eapply ignore_some, unread_some; reflexivity].
    rewrite !bind_ret. rewrite Hd. eexists. split; reflexivity.
  - rewrite bind_ret. eexists. split; reflexivity.
Qed.

Lemma parseData_loop_end buf r rest :
  pending (rs r) = rsquare :: rsquare :: rest ->
  parseData_loop buf r =
  match rest with
  | c :: tail =>
      (if c =? rangle then Some (Ok (inr buf))
       else Some (Err (Wrapf "%w: ]] can not appear in CDATA sections" [] ErrMalformed)),
       with_rs r (mkBufio tail (Some c)))
  | [] =>
      (Some (Err (Wrapf "%w: ]] can not appear in CDATA sections" [] ErrMalformed)),
       with_rs r (mkBufio [] None))
  end.
Proof.
  intros Hp. unfold parseData_loop.
  rewrite (bind_ok _ _ _ _ _ (read_cons _ _ _ Hp)).
  unfold twice. rewrite Z.eqb_refl. unfold peek. rewrite !bind_assoc.
  erewrite bind_ok; [| apply read_any_cons; reflexivity].
  rewrite !bind_assoc.
  erewrite bind_ok; [| eapply ignore_some, unread_some; reflexivity].
  rewrite !bind_ret. rewrite Z.eqb_refl. rewrite ?bind_assoc.
  erewrite bind_ok; [| eapply ignore_some, read_cons; reflexivity].
  rewrite ?bind_assoc.
  destruct rest as [|c tail].
  - erewrite bind_ok; [| apply read_any_nil; reflexivity]. reflexivity.
  - erewrite bind_ok; [| apply read_any_cons; reflexivity].
    now destruct (c =? rangle).
Qed.

(** The loop of [parseData] appends the body as it is and stops at the
    [\]\]] after it. *)
Lemma parseData_loop_body raw :
  cdata_body raw = true ->
  forall fuel buf r rest,
  (List.length raw < fuel)%nat ->
  pending (rs r) = raw ++ rsquare :: rsquare :: rest ->
  iterate fuel parseData_loop buf r =
  match rest with
  | c :: tail =>
      (if c =? rangle then Some (Ok (buf ++ written raw))
       else Some (Err (Wrapf "%w: ]] can not appear in CDATA sections" [] ErrMalformed)),
       with_rs r (mkBufio tail (Some c)))
  | [] =>
      (Some (Err (Wrapf "%w: ]] can not appear in CDATA sections" [] ErrMalformed)),
       with_rs r (mkBufio [] None))
  end.
Proof.
  induction raw as [|c raw IH]; intros Hb fuel buf r rest Hf Hp;
    (destruct fuel as [|fuel]; [simpl in Hf; lia|]); rewrite iterate_S.
  - simpl in Hp. unfold bind. rewrite (parseData_loop_end _ _ _ Hp).
    destruct rest as [|c tail]; [reflexivity|].
    destruct (c =? rangle); [|reflexivity].
    unfold ret, written. simpl. now rewrite app_nil_r.
  - simpl in Hp, Hb. apply andb_true_iff in Hb as (Hc & Hb).
    destruct (parseData_loop_step buf r c (raw ++ rsquare :: rsquare :: rest) Hp)
      as (b & E & Hpb).
    { destruct (c =? rsquare); [right | now left].
      destruct raw as [|d raw]; [discriminate|].
      exists d. eexists. split; [reflexivity|]. now apply negb_true_iff. }
    rewrite (bind_ok _ _ _ _ _ E).
    rewrite (IH Hb fuel (WriteRune buf c) (with_rs r b) rest);
      [| simpl in Hf; lia | exact Hpb].
    unfold WriteRune, written. simpl. rewrite <- app_assoc. simpl.
    destruct rest as [|c' tail]; reflexivity.
Qed.

(** ** Names *)

Lemma isName_valid c : isName c = true -> ValidRune c = true.
Proof. unfold isName, isLetter, isDigit, hyphen, underscore, ValidRune. lia. Qed.

Lemma isLetter_isName c : isLetter c = true -> isName c = true.
Proof. unfold isName. intros ->. reflexivity. Qed.

(** One part of a name: a letter, then the runes of names up to the
    first rune that is none, which is given back. *)
Lemma parseName_parse_spec r c name d rest :
  pending (rs r) = c :: name ++ d :: rest ->
  isLetter c = true ->
  Forall (fun x => isName x = true) name ->
  isName d = false ->
  parseName_parse r =
  (Some (Ok (c :: name)), with_rs r (mkBufio (d :: rest) None)).
Proof.
  intros Hp Hc Hn Hd. unfold parseName_parse.
  rewrite (bind_ok _ _ _ _ _ (read_cons _ _ _ Hp)). rewrite Hc. cbn [negb].
  unfold forever.
  match goal with |- context [iterate _ ?b _] => set (body := b) end.
  assert (forall name, Forall (fun x => isName x = true) name ->
          forall fuel buf r0,
            (List.length name < fuel)%nat ->
            pending (rs r0) = name ++ d :: rest ->
            iterate fuel body buf r0 =
            (Some (Ok (buf ++ name)), with_rs r0 (mkBufio rest (Some d)))) as L.
  { clear - Hd. induction 1 as [|x name Hx _ IH]; intros fuel buf r0 Hf Hp;
      (destruct fuel as [|fuel]; [simpl in Hf; lia|]); rewrite iterate_S;
      unfold body at 1; rewrite bind_assoc; simpl in Hp;
      rewrite (bind_ok _ _ _ _ _ (read_cons _ _ _ Hp)).
    - rewrite Hd. cbn [negb]. unfold break. rewrite bind_ret.
      now rewrite app_nil_r.
    - rewrite Hx. cbn [negb]. unfold continue. rewrite bind_ret.
      rewrite (IH fuel (WriteRune buf x) _); [| simpl in Hf; lia | reflexivity].
      rewrite (WriteRune_valid _ _ (isName_valid _ Hx)), <- app_assoc.
      reflexivity. }
  erewrite bind_ok; [| apply L; [exact Hn | simpl; rewrite length_app; simpl; lia | reflexivity]].
  erewrite bind_ok; [| apply unread_some; reflexivity].
  rewrite (WriteRune_valid _ _ (isLetter_valid _ Hc)). reflexivity.
Qed.

(** A name without prefix: what follows it is no colon. *)
Lemma parseName_local r c name d rest :
  pending (rs r) = c :: name ++ d :: rest ->
  isLetter c = true ->
  Forall (fun x => isName x = true) name ->
  isName d = false ->
  d <> colon ->
  parseName r =
  (Some (Ok (mkName [] (c :: name))), with_rs r (mkBufio (d :: rest) None)).
Proof.
  intros Hp Hc Hn Hd Hcol. unfold parseName.
  rewrite (bind_ok _ _ _ _ _ (parseName_parse_spec _ _ _ _ _ Hp Hc Hn Hd)).
  unfold peek. rewrite ?bind_assoc.
  erewrite bind_ok; [| apply read_any_cons; reflexivity]. rewrite ?bind_assoc.
  erewrite bind_ok; [| eapply ignore_some, unread_some; reflexivity].
  rewrite ?bind_ret.
  replace (d =? colon) with false by (symmetry; now apply Z.eqb_neq).
  reflexivity.
Qed.

(** A name with a prefix: the part before the colon is the field [NS]. *)
Lemma parseName_prefixed r c ns c2 name d rest :
  pending (rs r) = c :: ns ++ colon :: c2 :: name ++ d :: rest ->
  isLetter c = true ->
  Forall (fun x => isName x = true) ns ->
  isLetter c2 = true ->
  Forall (fun x => isName x = true) name ->
  isName d = false ->
  parseName r =
  (Some (Ok (mkName (c :: ns) (c2 :: name))), with_rs r (mkBufio (d :: rest) None)).
Proof.
  intros Hp Hc Hns Hc2 Hn Hd. unfold parseName.
  rewrite (bind_ok _ _ _ _ _
             (parseName_parse_spec _ _ _ colon _ Hp Hc Hns eq_refl)).
  unfold peek. rewrite ?bind_assoc.
  erewrite bind_ok; [| apply read_any_cons; reflexivity]. rewrite ?bind_assoc.
  erewrite bind_ok; [| eapply ignore_some, unread_some; reflexivity].
  rewrite ?bind_ret. rewrite Z.eqb_refl. cbn [negb].
  rewrite ?bind_assoc.
  erewrite bind_ok; [| eapply ignore_some, read_cons; reflexivity].
  erewrite bind_ok;
    [| apply parseName_parse_spec with (c := c2) (name := name) (d := d) (rest := rest);
       [reflexivity | assumption | assumption | assumption]].
  reflexivity.
Qed.

(** One step of a method: the first call of a sequence, by [tac]. *)
Ltac mstep tac :=
  rewrite ?bind_assoc;
  match goal with
  | |- bind ?m ?f ?r = _ =>
      let H := fresh "Hstep" in
      eassert (m r = (Some (Ok _), _)) as H;
      [ tac | rewrite (bind_ok m f r _ _ H); clear H ]
  end.

(** The test of an [if] on runes that are known. *)
Ltac decide_if :=
  match goal with
  | |- context [if ?b then _ else _] =>
      let v := eval vm_compute in b in change b with v; cbv iota
  end.

Lemma want_ok r c rest :
  pending (rs r) = c :: rest ->
  want c r = (Some (Ok tt), with_rs r (mkBufio rest (Some c))).
Proof.
  intros Hp. unfold want, wantFunc.
  rewrite (bind_ok _ _ _ _ _ (read_cons _ _ _ Hp)). now rewrite Z.eqb_refl.
Qed.

Lemma want_other r c d rest :
  pending (rs r) = d :: rest ->
  d <> c ->
  want c r = (Some (Err (unexpectedChar d)), with_rs r (mkBufio rest (Some d))).
Proof.
  intros Hp Hd. unfold want, wantFunc.
  rewrite (bind_ok _ _ _ _ _ (read_cons _ _ _ Hp)).
  now replace (d =? c) with false by (symmetry; now apply Z.eqb_neq).
Qed.

(** The head of a section, up to the second bracket. *)
Lemma parseData_head r rest :
  pending (rs r) = runes "[CDATA[" ++ rest ->
  parseData r =
  (skipBlanks ;;
   buf <- forever parseData_loop [] ;;
   let content := TrimSpace buf in
   check (emitText content) ;;
   ret (mkNode CData (mkName [] (runes "CDATA")) [] content true))
    (with_rs r (mkBufio rest (Some lsquare))).
Proof.
  intros Hp. unfold parseData.
  mstep ltac:(apply want_ok; exact Hp).
  mstep ltac:(apply parseName_local
                with (c := 67) (name := runes "DATA") (d := lsquare) (rest := rest);
              [ reflexivity | reflexivity | repeat constructor | reflexivity
              | discriminate ]).
  cbn [LocalName].
  change (str_eqb (67 :: runes "DATA") (runes "CDATA")) with true. cbn [negb].
  mstep ltac:(apply want_ok; reflexivity).
  reflexivity.
Qed.

Lemma emitText_round s r x r' :
  silent_on (listeners r) = false ->
  emitText s r = (x, r') ->
  stack r' = stack r /\ rs r' = rs r /\ keep r' = keep r /\
  silent_on (listeners r') = silent_on (listeners r) /\
  rounds (trace r') = rounds (trace r) ++ [EvText s].
Proof.
  intros Hs H. unfold emitText in H. rewrite Hs in H.
  now apply (emit_round (EvText s) s (texts (listeners r)) with_texts) in H.
Qed.

Lemma emit_silent_text s r :
  silent_on (listeners r) = true -> emitText s r = (Some (Ok None), r).
Proof. intros Hs. unfold emitText. now rewrite Hs. Qed.

Lemma finally_bind {A B} (m : M A) (f : A -> M B) cleanup r a r1 :
  m r = (Some (Ok a), r1) ->
  finally (bind m f) cleanup r = finally (f a) cleanup r1.
Proof. intros H. unfold finally. now rewrite (bind_ok _ _ _ _ _ H). Qed.

Lemma TrimLeft_app_stop f a d b :
  f d = false -> TrimLeft f (a ++ d :: b) = TrimLeft f a ++ d :: b.
Proof.
  intros Hd. induction a as [|x a IH]; simpl.
  - now rewrite Hd.
  - now destruct (f x).
Qed.

Lemma isBlank_space c : isBlank c = true -> unicode_IsSpace c = true.
Proof.
  unfold isBlank, isSpace, isNL, space, tab, nl, cr, unicode_IsSpace.
  intros H. destruct (c <=? 255) eqn:E; lia.
Qed.

Lemma isBlank_valid c : isBlank c = true -> ValidRune c = true.
Proof. unfold isBlank, isSpace, isNL, space, tab, nl, cr, ValidRune. lia. Qed.

Lemma isBlank_not_rsquare c : isBlank c = true -> (c =? rsquare) = false.
Proof. unfold isBlank, isSpace, isNL, space, tab, nl, cr, rsquare. lia. Qed.

(** The blanks [skipBlanks] drops before the body are dropped by
    [TrimSpace] as well, and the body stays a body. *)
Lemma TrimSpace_blanks raw :
  TrimSpace (written (TrimLeft isBlank raw)) = TrimSpace (written raw).
Proof.
  induction raw as [|c raw IH]; [reflexivity|]. simpl TrimLeft.
  destruct (isBlank c) eqn:E; [|reflexivity].
  rewrite IH. unfold TrimSpace, written. simpl.
  now rewrite (isBlank_valid _ E), (isBlank_space _ E).
Qed.

Lemma cdata_body_blanks raw :
  cdata_body raw = true -> cdata_body (TrimLeft isBlank raw) = true.
Proof.
  induction raw as [|c raw IH]; [reflexivity|]. intros H. simpl TrimLeft.
  destruct (isBlank c) eqn:E; [|exact H].
  apply IH. simpl in H. now apply andb_true_iff in H.
Qed.

(** From the open angle bracket of a section to its body. *)
Lemma next_cdata_head r rest :
  pending (rs r) = runes "<![CDATA[" ++ rest ->
  next r =
  finally
    (buf <- forever parseData_loop [] ;;
     let content := TrimSpace buf in
     check (emitText content) ;;
     ret (mkNode CData (mkName [] (runes "CDATA")) [] content true))
    skipBlanks
    (with_rs r (mkBufio (TrimLeft isBlank rest) None)).
Proof.
  intros Hp. simpl in Hp. unfold next.
  mstep ltac:(apply read_cons; exact Hp). decide_if. unfold parseNode.
  mstep ltac:(apply read_cons; reflexivity). do 2 decide_if.
  erewrite finally_bind; [| apply read_any_cons; reflexivity].
  erewrite finally_bind; [| eapply ignore_some, unread_some; reflexivity].
  decide_if. unfold finally at 1.
  rewrite (parseData_head _ rest) by reflexivity.
  erewrite bind_ok; [| apply skipBlanks_spec].
  reflexivity.
Qed.

(** What the dispatch never touches: the input, the stack, the filter
    and the flag. *)
Definition same_input (r r' : Reader) : Prop :=
  rs r' = rs r /\ stack r' = stack r /\ keep r' = keep r /\
  silent_on (listeners r') = silent_on (listeners r).

Lemma same_input_refl r : same_input r r.
Proof. repeat split. Qed.

Lemma same_input_trans a b c : same_input a b -> same_input b c -> same_input a c.
Proof. unfold same_input. intuition congruence. Qed.

Lemma same_input_log e : pres same_input (log e).
Proof. intros r. repeat split. Qed.

Lemma same_input_invoke A (fn : Listener A) a : pres same_input (invoke fn a).
Proof. intros r. unfold invoke. destruct (call fn a (world r)). repeat split. Qed.

Lemma same_input_lists f :
  (forall l, silent_on (f l) = silent_on l) -> pres same_input (set_listeners f).
Proof. intros H r. repeat split. simpl. apply H. Qed.

Ltac input_frame :=
  first [ exact same_input_refl | exact same_input_trans | exact same_input_log
        | exact same_input_invoke | exact same_input_lists ].

Lemma same_input_emitText s : pres same_input (emitText s).
Proof. apply pres_emitText; input_frame. Qed.

Lemma check_ret_state {A} (m : M (option error)) (a : A) r :
  snd ((check m ;; ret a) r) = snd (m r).
Proof.
  unfold check, bind, ret, fail. now destruct (m r) as [[[[e|]|e]|] r1].
Qed.

(** C8. A section whose body holds no [\]\]] is read as it is written:
    [next] leaves the cursor after the [\]\]>], dispatches the body,
    trimmed, as one text event, and returns a node of type [CData] with
    that content and the self-closing flag, or the error of a text
    callback; nothing is pushed on the stack and no other event is
    dispatched. The text event reaches the callbacks: on a reader that is
    not silenced the registered text callbacks are called with the
    trimmed body, in their order, each on the world the call before it
    left, until one of them ends the round; the trace, the world and the
    list of text callbacks after the scan step are those of that round,
    the callbacks of the other categories, the comment callbacks among
    them, are not called, and the result of the scan step is the node
    when the round gave no error and the error of the round otherwise.
    In particular, when the text callbacks return nil, every registered
    text callback is called once with the trimmed body, in the order of
    registration, the world after the scan step is the world these calls
    leave, the list of callbacks is unchanged and the node is returned.
    A [\]\]] that is not followed by [>] is a malformed document. *)
Theorem cdata_section :
  (forall r raw tail,
     cdata_body raw = true ->
     pending (rs r) = runes "<![CDATA[" ++ raw ++ runes "]]>" ++ tail ->
     let content := TrimSpace (written raw) in
     let node := mkNode CData (mkName [] (runes "CDATA")) [] content true in
     let r1 := with_rs r (mkBufio tail (Some rangle)) in
     next r = finally (check (emitText content) ;; ret node) skipBlanks r1 /\
     (fst (emitText content r1) = Some (Ok None) -> fst (next r) = Some (Ok node)) /\
     (silent_on (listeners r) = false ->
      rounds (trace (snd (next r))) = rounds (trace r) ++ [EvText content]) /\
     stack (snd (next r)) = stack r /\
     pending (rs (snd (next r))) = TrimLeft isBlank tail /\
     (silent_on (listeners r) = false ->
      disp (snd (next r)) = text_round content (disp r) /\
      fst (next r) =
        match round_error content (texts (listeners r)) (world r) with
        | None => Some (Ok node)
        | Some e => Some (Err e)
        end) /\
     (silent_on (listeners r) = false ->
      calm (texts (listeners r)) ->
      fst (next r) = Some (Ok node) /\
      trace (snd (next r)) =
        trace r ++ Dispatch (EvText content) ::
                   map (fun fn => Fired (tag fn) None) (texts (listeners r)) /\
      world (snd (next r)) =
        fold_left (fun w fn => snd (call fn content w)) (texts (listeners r)) (world r) /\
      listeners (snd (next r)) = listeners r)) /\
  (forall r raw rest,
     cdata_body raw = true ->
     (forall tail, rest <> rangle :: tail) ->
     pending (rs r) = runes "<![CDATA[" ++ raw ++ runes "]]" ++ rest ->
     exists e r',
       next r = (Some (Err e), r') /\ errors_Is e ErrMalformed = true /\
       trace r' = trace r /\ stack r' = stack r).
Proof.
  split.
  - intros r raw tail Hb Hp content node r1.
    assert (next r = finally (check (emitText content) ;; ret node) skipBlanks r1) as E.
    { rewrite (next_cdata_head _ _ Hp).
      change (raw ++ runes "]]>" ++ tail) with (raw ++ rsquare :: rsquare :: rangle :: tail).
      rewrite TrimLeft_app_stop by reflexivity.
      erewrite finally_bind;
        [| unfold forever;
           apply (parseData_loop_body _ (cdata_body_blanks _ Hb) _ [] _ (rangle :: tail));
           [ simpl; rewrite length_app; simpl; lia | reflexivity ] ].
      cbn [app]. cbv zeta. rewrite TrimSpace_blanks. reflexivity. }
    split; [exact E|].
    assert (snd (next r) = snd (skipBlanks (snd (emitText content r1)))) as Es.
    { rewrite E. unfold finally.
      rewrite <- (check_ret_state (emitText content) node r1).
      now destruct ((check (emitText content) ;; ret node) r1). }
    pose proof (same_input_emitText content r1) as (Hrs & Hst & _ & _).
    assert (silent_on (listeners r) = false -> calm (texts (listeners r)) ->
            fst (next r) = Some (Ok node) /\
            disp (snd (next r)) =
              (trace r ++ heard (EvText content) (texts (listeners r)),
               handed content (texts (listeners r)) (world r), listeners r)) as Hcalm.
    { intros Hs Hc. rewrite Es, (disp_only_rs _ _ (only_rs_skipBlanks _)).
      rewrite E. unfold finally, check, bind.
      destruct (emitText content r1) as [x r2] eqn:Ee.
      destruct (emitText_calm content r1 x r2 Hs Hc Ee) as (-> & Hd).
      split; [reflexivity | exact Hd]. }
    repeat split;
      try (destruct Hcalm as (Hn & Hd); [assumption | assumption |];
           first [ exact Hn
                 | exact (f_equal (fun d => fst (fst d)) Hd)
                 | exact (f_equal (fun d => snd (fst d)) Hd)
                 | exact (f_equal snd Hd) ]).
    + intros He. rewrite E. unfold finally, check, bind.
      destruct (emitText content r1) as [x r2]. simpl in He. subst x. reflexivity.
    + intros Hs. rewrite Es, skipBlanks_spec.
      destruct (emitText content r1) as [x r2] eqn:Ee. simpl.
      apply emitText_round in Ee as (_ & _ & _ & _ & Hr); [|exact Hs].
      rewrite Hr. reflexivity.
    + rewrite Es, skipBlanks_spec. simpl. exact Hst.
    + rewrite Es, skipBlanks_spec. simpl. now rewrite Hrs.
    + rewrite Es, (disp_only_rs _ _ (only_rs_skipBlanks _)).
      exact (proj1 (emitText_run content r1 _ _ H
                      (surjective_pairing (emitText content r1)))).
    + pose proof (proj2 (emitText_run content r1 _ _ H
                           (surjective_pairing (emitText content r1)))) as Hx.
      unfold r1 in Hx. cbn [listeners world with_rs] in Hx. fold r1 in Hx.
      rewrite E. unfold finally, check, bind.
      destruct (emitText content r1) as [x r2]. simpl in Hx. subst x.
      now destruct (round_error content (texts (listeners r)) (world r)).
  - intros r raw rest Hb Hrest Hp.
    rewrite (next_cdata_head _ _ Hp).
    change (raw ++ runes "]]" ++ rest) with (raw ++ rsquare :: rsquare :: rest).
    rewrite TrimLeft_app_stop by reflexivity.
    unfold finally. unfold forever.
    assert (exists b,
              iterate
                (S (List.length (TrimLeft isBlank raw ++ rsquare :: rsquare :: rest)))
                parseData_loop []
                (with_rs r (mkBufio (TrimLeft isBlank raw ++ rsquare :: rsquare :: rest) None)) =
              (Some (Err (Wrapf "%w: ]] can not appear in CDATA sections" [] ErrMalformed)),
               with_rs r b)) as (b & E).
    { rewrite (parseData_loop_body _ (cdata_body_blanks _ Hb) _ [] _ rest);
        [ | rewrite length_app; simpl; lia | reflexivity ].
      destruct rest as [|c tail]; [eexists; reflexivity|].
      replace (c =? rangle) with false; [eexists; reflexivity|].
      symmetry. apply Z.eqb_neq. intros ->. now apply (Hrest tail). }
    erewrite bind_err; [| exact E].
    eexists _, _. split; [reflexivity|]. rewrite skipBlanks_spec.
    repeat split.
Qed.

(** ** The input that is left *)

(** The runes not read yet, and the same with the rune that [unread]
    may give back. *)
Definition left (r : Reader) : nat := List.length (pending (rs r)).

Definition held (r : Reader) : nat :=
  (left r + match lastRune (rs r) with Some _ => 1 | None => 0 end)%nat.

(** No method gives back more than the rune of the last read. *)
Definition nonincr (r r' : Reader) : Prop := (held r' <= held r)%nat.

Lemma nonincr_refl r : nonincr r r.
Proof. unfold nonincr. lia. Qed.

Lemma nonincr_trans a b c : nonincr a b -> nonincr b c -> nonincr a c.
Proof. unfold nonincr. lia. Qed.

Lemma read_inv r c r1 :
  read r = (Some (Ok c), r1) ->
  exists tl, pending (rs r) = c :: tl /\ r1 = with_rs r (mkBufio tl (Some c)).
Proof.
  unfold read, ReadRune. destruct (pending (rs r)) as [|x tl]; intros H; inversion H.
  eauto.
Qed.

Lemma read_held r x r1 : read r = (x, r1) -> (held r1 <= left r)%nat.
Proof.
  unfold read, ReadRune, held, left.
  destruct (pending (rs r)) as [|c tl]; intros H; inversion H; simpl; lia.
Qed.

Lemma read_any_held r x r1 : read_any r = (x, r1) -> (held r1 <= left r)%nat.
Proof.
  unfold read_any, ReadRune, held, left.
  destruct (pending (rs r)) as [|c tl]; intros H; inversion H; simpl; lia.
Qed.

Lemma left_le_held r : (left r <= held r)%nat.
Proof. unfold held. lia. Qed.

Lemma nonincr_read : pres nonincr read.
Proof.
  intros r. unfold nonincr. destruct (read r) as [x r1] eqn:E.
  apply read_held in E. pose proof (left_le_held r). simpl. lia.
Qed.

Lemma nonincr_read_any : pres nonincr read_any.
Proof.
  intros r. unfold nonincr. destruct (read_any r) as [x r1] eqn:E.
  apply read_any_held in E. pose proof (left_le_held r). simpl. lia.
Qed.

Lemma nonincr_unread : pres nonincr unread.
Proof.
  intros r. unfold nonincr, unread, UnreadRune, held, left.
  destruct (lastRune (rs r)) eqn:E; simpl; rewrite ?E; lia.
Qed.

Lemma nonincr_same_rs {A} (m : M A) :
  (forall r, rs (snd (m r)) = rs r) -> pres nonincr m.
Proof. intros H r. unfold nonincr, held, left. rewrite H. lia. Qed.

Lemma nonincr_of_same_input {A} (m : M A) : pres same_input m -> pres nonincr m.
Proof. intros H. apply nonincr_same_rs. intros r. apply (H r). Qed.

Lemma same_input_emitBegin n : pres same_input (emitBegin n).
Proof. apply pres_emitBegin; input_frame. Qed.

Lemma same_input_emitEnd n : pres same_input (emitEnd n).
Proof. apply pres_emitEnd; input_frame. Qed.

Lemma same_input_emitInst n : pres same_input (emitInst n).
Proof. apply pres_emitInst; input_frame. Qed.

Lemma same_input_emitComment s : pres same_input (emitComment s).
Proof. apply pres_emitComment; input_frame. Qed.

Lemma same_input_emitAttr n s : pres same_input (emitAttr n s).
Proof. apply pres_emitAttr; input_frame. Qed.

Lemma nonincr_push n : pres nonincr (push n).
Proof. apply nonincr_same_rs. intros r. unfold push. now destruct (SelfClosing n). Qed.

Lemma nonincr_pop n : pres nonincr (pop n).
Proof.
  apply nonincr_same_rs. intros r. unfold pop.
  destruct (Nat.eqb _ 0); [reflexivity|]. now destruct (negb _).
Qed.

Lemma nonincr_silent : pres nonincr silent.
Proof. now apply nonincr_same_rs. Qed.

Lemma nonincr_keep t n : pres nonincr (call_keep t n).
Proof.
  apply nonincr_same_rs. intros r. unfold call_keep.
  now destruct (keep r t n (world r)).
Qed.

Ltac nonincr_frame :=
  first [ exact nonincr_refl | exact nonincr_trans | exact nonincr_read
        | exact nonincr_read_any | exact nonincr_unread
        | exact nonincr_push | exact nonincr_pop | exact nonincr_silent
        | exact nonincr_keep
        | intros; apply nonincr_of_same_input;
          first [ apply same_input_emitBegin | apply same_input_emitEnd
                | apply same_input_emitInst | apply same_input_emitText
                | apply same_input_emitComment | apply same_input_emitAttr ] ].

Lemma nonincr_skipBlanks : pres nonincr skipBlanks.
Proof. apply pres_skipBlanks; nonincr_frame. Qed.

Lemma nonincr_parseName : pres nonincr parseName.
Proof. apply pres_parseName; nonincr_frame. Qed.

Lemma nonincr_parseEntity : pres nonincr parseEntity.
Proof. apply pres_parseEntity; nonincr_frame. Qed.

Lemma nonincr_decoded c : pres nonincr (decoded c).
Proof. apply pres_decoded; nonincr_frame. Qed.

Lemma nonincr_parseValue : pres nonincr parseValue.
Proof. apply pres_parseValue; nonincr_frame. Qed.

Lemma nonincr_twice c x : pres nonincr (twice c x).
Proof. apply pres_twice; nonincr_frame. Qed.

Lemma nonincr_parseAttributes n : pres nonincr (parseAttributes n).
Proof. apply pres_parseAttributes; nonincr_frame. Qed.

Lemma nonincr_parseData : pres nonincr parseData.
Proof. apply pres_parseData; nonincr_frame. Qed.

Lemma nonincr_parseComment : pres nonincr parseComment.
Proof. apply pres_parseComment; nonincr_frame. Qed.

Lemma nonincr_parseText : pres nonincr parseText.
Proof. apply pres_parseText; nonincr_frame. Qed.

Lemma nonincr_parseInstruction : pres nonincr parseInstruction.
Proof. apply pres_parseInstruction; nonincr_frame. Qed.

Lemma nonincr_parseEndElement : pres nonincr parseEndElement.
Proof. apply pres_parseEndElement; nonincr_frame. Qed.

Lemma nonincr_parseOpenElement : pres nonincr parseOpenElement.
Proof. apply pres_parseOpenElement; nonincr_frame. Qed.

Lemma nonincr_next : pres nonincr next.
Proof. apply pres_next; nonincr_frame. Qed.

Lemma nonincr_skipSubtree n : pres nonincr (skipSubtree n).
Proof. apply pres_skipSubtree; nonincr_frame. Qed.

Lemma nonincr_parseStringEntity : pres nonincr parseStringEntity.
Proof. apply pres_parseStringEntity; nonincr_frame. Qed.

Lemma nonincr_parseNumericEntity base accept :
  pres nonincr (parseNumericEntity base accept).
Proof. apply pres_parseNumericEntity; nonincr_frame. Qed.

Lemma nonincr_emitText s : pres nonincr (emitText s).
Proof. nonincr_frame. Qed.

Create HintDb nonincr.
#[local] Hint Resolve nonincr_read nonincr_read_any nonincr_unread
  nonincr_push nonincr_pop nonincr_silent nonincr_keep nonincr_skipBlanks
  nonincr_parseName nonincr_parseEntity nonincr_decoded nonincr_parseValue
  nonincr_twice nonincr_parseAttributes nonincr_parseData nonincr_parseComment
  nonincr_parseText nonincr_parseInstruction nonincr_parseEndElement
  nonincr_parseOpenElement nonincr_next nonincr_skipSubtree
  nonincr_parseStringEntity nonincr_parseNumericEntity nonincr_emitText : nonincr.

(** A sequence of methods none of which gives back more than the rune
    of the last read gives back no more either. *)
Ltac nonincr_go :=
  repeat first
    [ exact nonincr_refl | exact nonincr_trans
    | solve [auto with nonincr]
    | apply pres_ret | apply pres_fail | apply pres_gets
    | apply pres_continue | apply pres_break
    | apply pres_bind | apply pres_attempt | apply pres_ignore | apply pres_check
    | apply pres_finally | apply pres_forever | apply pres_iterate
    | match goal with
      | |- pres _ (if ?b then _ else _) => destruct b
      | |- pres _ (match ?x with _ => _ end) => destruct x
      | |- pres _ (let '(_, _) := ?x in _) => destruct x
      | |- forall _, _ => intro
      end ].

(** A method that starts with a read leaves, with the rune [unread] may
    give back, no more than the runes that were left. *)
Definition consumes {A} (m : M A) : Prop :=
  forall r, (held (snd (m r)) <= left r)%nat.

Lemma consumes_read {A} (f : Z -> M A) :
  (forall c, pres nonincr (f c)) -> consumes (bind read f).
Proof.
  intros Hf r.
  destruct (bind_cases read f r) as
    [(a & r1 & E & ->) | [(e & r1 & E & ->) | (r1 & E & ->)]];
    pose proof (read_held _ _ _ E) as Hr; simpl; [|exact Hr|exact Hr].
  specialize (Hf a r1). unfold nonincr in Hf. lia.
Qed.

Lemma consumes_iterate {St A} (body : St -> M (St + A)) :
  (forall st, consumes (body st)) ->
  (forall st, pres nonincr (body st)) ->
  forall fuel st, consumes (iterate (S fuel) body st).
Proof.
  intros Hc Hp fuel st r. rewrite iterate_S.
  destruct (bind_cases (body st)
              (fun x => match x with
                        | inl st' => iterate fuel body st'
                        | inr a => ret a
                        end) r) as
    [(x & r1 & E & ->) | [(e & r1 & E & ->) | (r1 & E & ->)]];
    specialize (Hc st r); rewrite E in Hc; simpl in Hc; simpl; try exact Hc.
  destruct x as [st'|a]; [|exact Hc].
  pose proof (pres_iterate nonincr nonincr_refl nonincr_trans body Hp fuel st' r1) as Hi.
  unfold nonincr in Hi. lia.
Qed.

Lemma consumes_parseEntity : consumes parseEntity.
Proof. unfold parseEntity. apply consumes_read. intros c. nonincr_go. Qed.

(** A scan step that gives a node has read at least one rune that it
    does not give back. *)
Lemma next_progress r n r' :
  next r = (Some (Ok n), r') -> (left r' < left r)%nat.
Proof.
  intros H. unfold next in H. bind_step H c r1 Hc.
  apply read_inv in Hc as (tl & Hp & ->).
  assert (left r = S (List.length tl)) as Hl by (unfold left; now rewrite Hp).
  destruct (c =? langle) eqn:Ec.
  - unfold parseNode in H. bind_step H c2 r2 Hc2.
    apply read_held in Hc2. unfold left at 1 in Hc2. simpl in Hc2.
    match type of H with
    | ?m r2 = _ => assert (pres nonincr m) as Hm by nonincr_go
    end.
    apply (pres_at _ _ _ _ _ Hm) in H. unfold nonincr in H.
    pose proof (left_le_held r'). lia.
  - bind_step H u r2 Hu.
    erewrite ignore_some in Hu; [| apply unread_some; reflexivity].
    injection Hu as _ <-. simpl in H.
    unfold parseText in H. bind_step H buf r3 Hloop.
    match type of H with
    | ?m r3 = _ => assert (pres nonincr m) as Hm by nonincr_go
    end.
    apply (pres_at _ _ _ _ _ Hm) in H. unfold nonincr in H. clear Hm.
    unfold forever in Hloop. simpl List.length in Hloop.
    rewrite iterate_S in Hloop. bind_step Hloop x r4 Hb.
    bind_step Hb c' r5 Hr.
    rewrite (read_cons _ c tl) in Hr by reflexivity. injection Hr as <- <-.
    rewrite Ec in Hb. bind_step Hb c'' r6 Hd. injection Hb as <- <-.
    assert (left r6 <= List.length tl)%nat as H6.
    { unfold decoded in Hd. destruct (c =? ampersand).
      - match type of Hd with
        | parseEntity ?s = _ => pose proof (consumes_parseEntity s) as Hce
        end.
        rewrite Hd in Hce. simpl in Hce. pose proof (left_le_held r6).
        unfold left at 1 in Hce. simpl in Hce. lia.
      - injection Hd as _ <-. unfold left. simpl. lia. }
    match type of Hloop with
    | iterate _ ?b ?s _ = _ =>
        assert (consumes (iterate (S (List.length tl)) b s)) as Hcon
    end.
    { apply consumes_iterate; intros st.
      - apply consumes_read. intros c0. nonincr_go.
      - nonincr_go. }
    specialize (Hcon r6). rewrite Hloop in Hcon. simpl in Hcon.
    pose proof (left_le_held r'). lia.
Qed.

Lemma left_same_rs r r' : rs r' = rs r -> left r' = left r.
Proof. unfold left. now intros ->. Qed.

(** A subtree skip that ends has given back nothing. *)
Lemma skipSubtree_left n r r' :
  skipSubtree n r = (Some (Ok tt), r') -> (left r' <= left r)%nat.
Proof.
  unfold skipSubtree.
  destruct (negb (NodeType_eqb (Typ n) BeginElement) || SelfClosing n).
  { intros [= <-]. lia. }
  intros H. bind_step H u r1 Hs. injection Hs as _ <-.
  apply finally_inv in H as (r2 & H & ->).
  bind_step H depth r3 Hg. injection Hg as _ <-.
  change (left (snd (silent r2))) with (left r2).
  match type of H with
  | forever ?b ?s ?r0 = _ =>
      apply (forever_inv b (fun _ r1 => (left r1 <= left r)%nat)
               (fun _ r1 => (left r1 <= left r)%nat)) in H; [exact H | | apply Nat.le_refl]
  end.
  clear. intros [] r0 x r0' HI H.
  bind_step H c r1 Hn. apply next_progress in Hn.
  bind_step H d r2 Hg. injection Hg as _ <-.
  destruct (_ && _); injection H as <- <-; lia.
Qed.

(** ** Fuel *)

(** When every round that goes on leaves less input, the fuel of
    [forever] is never used up before the loop ends, and more fuel
    changes nothing. *)
Lemma iterate_enough {St A} (body : St -> M (St + A)) :
  (forall st r st' r', body st r = (Some (Ok (inl st')), r') -> (left r' < left r)%nat) ->
  forall n k1 k2 st r,
    (left r < n)%nat -> (left r < k1)%nat -> (left r < k2)%nat ->
    iterate k1 body st r = iterate k2 body st r.
Proof.
  intros Hb. induction n as [|n IH]; intros k1 k2 st r Hn H1 H2; [lia|].
  destruct k1 as [|k1]; [lia|]. destruct k2 as [|k2]; [lia|].
  rewrite !iterate_S. unfold bind.
  destruct (body st r) as [[[[st'|a]|e]|] r1] eqn:E; try reflexivity.
  apply Hb in E. apply IH; lia.
Qed.

Lemma forever_unfold {St A} (body : St -> M (St + A)) :
  (forall st r st' r', body st r = (Some (Ok (inl st')), r') -> (left r' < left r)%nat) ->
  forall st r,
    forever body st r =
    (x <- body st ;;
     match x with
     | inl st' => forever body st'
     | inr a => ret a
     end) r.
Proof.
  intros Hb st r. unfold forever at 1. rewrite iterate_S. unfold bind.
  destruct (body st r) as [[[[st'|a]|e]|] r1] eqn:E; try reflexivity.
  apply Hb in E. unfold forever.
  apply (iterate_enough body Hb (S (left r))); unfold left in *; lia.
Qed.

Lemma bind_ext {A B} (m : M A) (f g : A -> M B) r :
  (forall a r1, f a r1 = g a r1) -> bind m f r = bind m g r.
Proof. intros H. unfold bind. destruct (m r) as [[[a|e]|] r1]; auto. Qed.

(** [Read] is its first round followed by [Read]. *)
Lemma Read_unfold r :
  Read r =
  (x <- attempt next ;;
   match x with
   | Err e => ret (None, Some e)
   | Ok n =>
       err <- call_keep (Typ n) (NodeName n) ;;
       if is_error err ErrIgnore then
         x <- attempt (skipSubtree n) ;;
         match x with
         | Err e => ret (None, Some e)
         | Ok _ => Read
         end
       else if is_error err ErrSkip then Read
       else ret (Some n, err)
   end) r.
Proof.
  unfold Read at 1. rewrite forever_unfold.
  - rewrite bind_assoc. apply bind_ext. intros [n|e] r1; [|reflexivity].
    rewrite bind_assoc. apply bind_ext. intros err r2.
    destruct (is_error err ErrIgnore).
    + rewrite bind_assoc. apply bind_ext. intros [[]|e] r3; reflexivity.
    + destruct (is_error err ErrSkip); reflexivity.
  - clear. intros [] r [] r' H.
    bind_step H x r1 Hn. apply attempt_inv in Hn.
    destruct x as [n|e]; [|discriminate].
    apply next_progress in Hn.
    bind_step H err r2 Hk.
    assert (left r2 = left r1) as E2.
    { apply left_same_rs. unfold call_keep in Hk.
      destruct (keep r1 (Typ n) (NodeName n) (world r1)). now injection Hk as _ <-. }
    destruct (is_error err ErrIgnore).
    + bind_step H z r3 Hs. apply attempt_inv in Hs.
      destruct z as [[]|e]; [|discriminate]. injection H as <-.
      apply skipSubtree_left in Hs. lia.
    + destruct (is_error err ErrSkip); [|discriminate]. injection H as <-. lia.
Qed.

(** ** The filter *)

Lemma call_keep_at r t n e w :
  keep r t n (world r) = (e, w) ->
  call_keep t n r = (Some (Ok e), with_world r w).
Proof. intros H. unfold call_keep. now rewrite H. Qed.

Lemma skipSubtree_other n r :
  Typ n <> BeginElement \/ SelfClosing n = true ->
  skipSubtree n r = (Some (Ok tt), r).
Proof.
  intros H. unfold skipSubtree.
  destruct (negb (NodeType_eqb (Typ n) BeginElement) || SelfClosing n) eqn:E;
    [reflexivity|].
  apply orb_false_iff in E as (E1 & E2). apply negb_false_iff in E1.
  destruct H as [H | H]; [|congruence].
  destruct (Typ n); try discriminate. now elim H.
Qed.

(** C9. When the scan step gave a begin-element that is not
    self-closing and the filter answers [ErrIgnore], the begin event of the
    element and one attribute event for each of its attributes, in their
    order, were dispatched during the scan step, before the filter was
    asked: the registered begin callbacks were called with the name of the
    element, and then, for each attribute in turn, the registered
    attribute callbacks were called with its name and value, each call on
    the world the call before it left; the trace, the world and the lists
    of callbacks after the scan step are those of these rounds. In
    particular, when the begin and attribute callbacks return nil, every
    registered begin callback was called once with the name, then every
    registered attribute callback once for each attribute, and the world
    the filter is asked on is the world these calls left. [Read]
    then runs the skip, which calls no callback: it adds nothing to the
    trace, leaves the world as the filter left it and the lists of
    callbacks as they were, and [Read] goes on reading when the skip has
    ended. *)
Theorem ignored_element_was_dispatched r n r1 e w :
  silent_on (listeners r) = false ->
  next r = (Some (Ok n), r1) ->
  Typ n = BeginElement ->
  SelfClosing n = false ->
  keep r1 (Typ n) (NodeName n) (world r1) = (Some e, w) ->
  errors_Is e ErrIgnore = true ->
  rounds (trace r1) =
    rounds (trace r) ++ EvBegin (NodeName n) :: map attr_event (Attrs n) /\
  disp r1 =
    fold_left attribute_round (Attrs n) (begin_round (NodeName n) (disp r)) /\
  (calm (begins (listeners r)) ->
   calm (attrs (listeners r)) ->
   trace r1 =
     trace r ++
     (Dispatch (EvBegin (NodeName n)) ::
      map (fun fn => Fired (tag fn) None) (begins (listeners r))) ++
     flat_map (fun a => Dispatch (EvAttr (AttrName a) (Value a)) ::
                        map (fun fn => Fired (tag fn) None) (attrs (listeners r)))
       (Attrs n) /\
   world r1 =
     fold_left
       (fun w a =>
          fold_left (fun w fn => snd (call fn (AttrName a, Value a) w))
            (attrs (listeners r)) w)
       (Attrs n)
       (fold_left (fun w fn => snd (call fn (NodeName n) w))
          (begins (listeners r)) (world r)) /\
   listeners r1 = listeners r) /\
  trace (snd (skipSubtree n (with_world r1 w))) = trace r1 /\
  disp (snd (skipSubtree n (with_world r1 w))) = (trace r1, w, listeners r1) /\
  silent_on (listeners (snd (skipSubtree n (with_world r1 w)))) = false /\
  Read r =
    match skipSubtree n (with_world r1 w) with
    | (Some (Ok _), r3) => Read r3
    | (Some (Err e'), r3) => (Some (Ok (None, Some e')), r3)
    | (None, r3) => (None, r3)
    end.
Proof.
  intros Hs Hn Ht Hsc Hk He.
  destruct (next_begin_rounds _ _ _ Hs Hn Ht) as (Hs1 & Hr1).
  destruct (skipSubtree_silent n (with_world r1 w) Hs1) as (Hl & Hw & Htr).
  split; [exact Hr1|]. split; [exact (next_begin_disp _ _ _ Hs Hn Ht)|].
  split; [intros Hb Ha; exact (next_begin_calm _ _ _ Hs Hn Ht Hb Ha)|].
  split; [exact Htr|].
  split; [unfold disp; rewrite Hl, Hw, Htr; reflexivity|].
  split; [now rewrite Hl|].
  rewrite Read_unfold.
  rewrite (bind_ok _ _ _ _ _ (attempt_some _ _ _ _ Hn)).
  rewrite (bind_ok _ _ _ _ _ (call_keep_at _ _ _ _ _ Hk)).
  cbn [is_error]. rewrite He. unfold bind, attempt.
  now destruct (skipSubtree n (with_world r1 w)) as [[[[]|e']|] r3].
Qed.

(** C10. When the filter answers [ErrIgnore] to a token that is not a
    begin-element, or is self-closing, the skip does nothing and [Read]
    goes on from the reader the filter left: the token is not returned.
    [Read] does the same when the filter answers [ErrSkip]. *)
Theorem ignore_of_other_tokens_is_skip :
  (forall r n r1 e w,
     next r = (Some (Ok n), r1) ->
     keep r1 (Typ n) (NodeName n) (world r1) = (Some e, w) ->
     errors_Is e ErrIgnore = true ->
     Typ n <> BeginElement \/ SelfClosing n = true ->
     skipSubtree n (with_world r1 w) = (Some (Ok tt), with_world r1 w) /\
     Read r = Read (with_world r1 w)) /\
  (forall r n r1 e w,
     next r = (Some (Ok n), r1) ->
     keep r1 (Typ n) (NodeName n) (world r1) = (Some e, w) ->
     errors_Is e ErrIgnore = false ->
     errors_Is e ErrSkip = true ->
     Read r = Read (with_world r1 w)).
Proof.
  split.
  - intros r n r1 e w Hn Hk He Hother.
    pose proof (skipSubtree_other n (with_world r1 w) Hother) as Hskip.
    split; [exact Hskip|].
    rewrite Read_unfold.
    rewrite (bind_ok _ _ _ _ _ (attempt_some _ _ _ _ Hn)).
    rewrite (bind_ok _ _ _ _ _ (call_keep_at _ _ _ _ _ Hk)).
    cbn [is_error]. rewrite He.
    now rewrite (bind_ok _ _ _ _ _ (attempt_some _ _ _ _ Hskip)).
  - intros r n r1 e w Hn Hk He Hs.
    rewrite Read_unfold.
    rewrite (bind_ok _ _ _ _ _ (attempt_some _ _ _ _ Hn)).
    rewrite (bind_ok _ _ _ _ _ (call_keep_at _ _ _ _ _ Hk)).
    cbn [is_error]. now rewrite He, Hs.
Qed.

(** * Further properties *)

(** ** The cursor *)

Lemma peek_cons r c tl :
  pending (rs r) = c :: tl ->
  peek r = (Some (Ok c), with_rs r (mkBufio (c :: tl) None)).
Proof.
  intros Hp. unfold peek.
  mstep ltac:(apply read_any_cons; exact Hp).
  mstep ltac:(eapply ignore_some, unread_some; reflexivity).
  reflexivity.
Qed.

Lemma peek_nil r :
  pending (rs r) = [] ->
  peek r = (Some (Ok 0), with_rs r (mkBufio [] None)).
Proof.
  intros Hp. unfold peek.
  mstep ltac:(apply read_any_nil; exact Hp).
  unfold ignore, attempt, bind, unread, UnreadRune. reflexivity.
Qed.

(** X1. A rune that was read can be given back once: [read] then [unread]
    leaves the input as it was, and so does [peek], which returns the
    next rune, or 0 at the end of the input; a second [unread] fails and
    changes nothing. At the end of the input [read] fails with [io.EOF]
    and leaves nothing to unread. *)
Theorem read_unread_peek :
  (forall r c tl,
     pending (rs r) = c :: tl ->
     (read ;; unread) r = (Some (Ok tt), with_rs r (mkBufio (c :: tl) None)) /\
     peek r = (Some (Ok c), with_rs r (mkBufio (c :: tl) None)) /\
     (read ;; unread ;; unread) r =
       (Some (Err ErrInvalidUnreadRune), with_rs r (mkBufio (c :: tl) None))) /\
  (forall r,
     pending (rs r) = [] ->
     read r = (Some (Err io_EOF), with_rs r (mkBufio [] None)) /\
     peek r = (Some (Ok 0), with_rs r (mkBufio [] None)) /\
     (attempt read ;; unread) r =
       (Some (Err ErrInvalidUnreadRune), with_rs r (mkBufio [] None))).
Proof.
  split.
  - intros r c tl Hp. repeat split.
    + mstep ltac:(apply read_cons; exact Hp). now rewrite (unread_some _ c).
    + now apply peek_cons.
    + mstep ltac:(apply read_cons; exact Hp).
      mstep ltac:(apply unread_some; reflexivity).
      reflexivity.
  - intros r Hp. repeat split.
    + now apply read_nil.
    + now apply peek_nil.
    + mstep ltac:(eapply attempt_some, read_nil; exact Hp). reflexivity.
Qed.

(** ** Blanks *)

Lemma TrimLeft_head f s c tl : TrimLeft f s = c :: tl -> f c = false.
Proof.
  induction s as [|x s IH]; simpl; [discriminate|].
  destruct (f x) eqn:E; [exact IH|]. now intros [= <- _].
Qed.

Lemma TrimLeft_idem f s : TrimLeft f (TrimLeft f s) = TrimLeft f s.
Proof.
  induction s as [|x s IH]; simpl; [reflexivity|].
  destruct (f x) eqn:E; [exact IH|]. simpl. now rewrite E.
Qed.

(** X2. [skipBlanks] never fails; it drops the spaces, tabs, newlines and
    carriage returns at the head of the input and nothing else, leaves no
    rune to unread, touches nothing but the input, and does nothing when
    it is called again. *)
Theorem skipBlanks_drops_blanks r :
  fst (skipBlanks r) = Some (Ok tt) /\
  pending (rs (snd (skipBlanks r))) = TrimLeft isBlank (pending (rs r)) /\
  lastRune (rs (snd (skipBlanks r))) = None /\
  (forall c tl, pending (rs (snd (skipBlanks r))) = c :: tl -> isBlank c = false) /\
  snd (skipBlanks r) = with_rs r (rs (snd (skipBlanks r))) /\
  skipBlanks (snd (skipBlanks r)) = (Some (Ok tt), snd (skipBlanks r)).
Proof.
  rewrite (skipBlanks_spec (snd (skipBlanks r))).
  rewrite (skipBlanks_spec r). simpl. repeat split.
  - intros c tl. apply TrimLeft_head.
  - now rewrite TrimLeft_idem.
Qed.

(** ** Names *)

Lemma parseName_parse_bad r c tl :
  pending (rs r) = c :: tl ->
  isLetter c = false ->
  parseName_parse r =
  (Some (Err (Wrapf "%w: name should start with a letter!" [] (unexpectedChar c))),
   with_rs r (mkBufio tl (Some c))).
Proof.
  intros Hp Hc. unfold parseName_parse.
  mstep ltac:(apply read_cons; exact Hp). now rewrite Hc.
Qed.

(** X3. [parseName] reads a letter and the letters, digits, hyphens and
    underscores after it, up to a rune that is none of these, which it
    leaves in the input. When that rune is a colon, what was read is the
    prefix and a second part of the same form is the name. A first rune
    that is no letter is an unexpected character. *)
Theorem name_grammar :
  (forall r c name d rest,
     pending (rs r) = c :: name ++ d :: rest ->
     isLetter c = true ->
     Forall (fun x => isName x = true) name ->
     isName d = false -> d <> colon ->
     parseName r =
       (Some (Ok (mkName [] (c :: name))), with_rs r (mkBufio (d :: rest) None))) /\
  (forall r c ns c2 name d rest,
     pending (rs r) = c :: ns ++ colon :: c2 :: name ++ d :: rest ->
     isLetter c = true ->
     Forall (fun x => isName x = true) ns ->
     isLetter c2 = true ->
     Forall (fun x => isName x = true) name ->
     isName d = false ->
     parseName r =
       (Some (Ok (mkName (c :: ns) (c2 :: name))),
        with_rs r (mkBufio (d :: rest) None))) /\
  (forall r c tl,
     pending (rs r) = c :: tl ->
     isLetter c = false ->
     exists e r', parseName r = (Some (Err e), r') /\ errors_Is e ErrChar = true).
Proof.
  repeat split.
  - intros. now apply parseName_local.
  - intros. now apply parseName_prefixed.
  - intros r c tl Hp Hc. unfold parseName.
    rewrite (bind_err _ _ _ _ _ (parseName_parse_bad _ _ _ Hp Hc)).
    eexists _, _. split; reflexivity.
Qed.

(** ** The stack *)

Lemma Name_Equal_eq a b : Name_Equal a b = true <-> a = b.
Proof.
  unfold Name_Equal. rewrite andb_true_iff, !str_eqb_eq.
  destruct a, b; simpl. split; [intros [-> ->]; reflexivity | intros [= -> ->]; auto].
Qed.

Lemma Name_Equal_refl a : Name_Equal a a = true.
Proof. now apply Name_Equal_eq. Qed.

Lemma pop_top r n below top :
  stack r = below ++ [top] ->
  pop n r =
  if Name_Equal top (NodeName n)
  then (Some (Ok tt), with_stack r below)
  else (Some (Err (Wrapf "%w: element mismatched %s vs %s"
                     [LocalName top; LocalName (NodeName n)] ErrMalformed)), r).
Proof.
  intros Hs. unfold pop. rewrite Hs, length_app. simpl List.length.
  replace (List.length below + 1)%nat with (S (List.length below)) by lia.
  cbn [Nat.eqb]. replace (S (List.length below) - 1)%nat with (List.length below) by lia.
  rewrite app_nth2, Nat.sub_diag by lia. cbn [nth].
  destruct (Name_Equal top (NodeName n)); cbn [negb]; [|reflexivity].
  now rewrite firstn_app, Nat.sub_diag, firstn_all, app_nil_r.
Qed.

(** X4. [pop] undoes [push]: the close tag of the element that was opened
    last leaves the stack as it was before the element. The close tag of
    another name fails with an error built around [ErrMalformed] and
    leaves the stack as it is. A self-closing node is not pushed. *)
Theorem push_then_pop :
  (forall r n, SelfClosing n = false -> (push n ;; pop n) r = (Some (Ok tt), r)) /\
  (forall r n, SelfClosing n = true -> push n r = (Some (Ok tt), r)) /\
  (forall r n below,
     stack r = below ++ [NodeName n] ->
     pop n r = (Some (Ok tt), with_stack r below)) /\
  (forall r n below top,
     stack r = below ++ [top] ->
     NodeName n <> top ->
     exists e, pop n r = (Some (Err e), r) /\ errors_Is e ErrMalformed = true).
Proof.
  repeat split.
  - intros r n Hs. unfold bind at 1, push at 1. rewrite Hs.
    rewrite (pop_top _ n (stack r) (NodeName n)) by reflexivity.
    rewrite Name_Equal_refl. now destruct r.
  - intros r n Hs. unfold push. now rewrite Hs.
  - intros r n below Hs. rewrite (pop_top _ _ _ _ Hs). now rewrite Name_Equal_refl.
  - intros r n below top Hs Hne. rewrite (pop_top _ _ _ _ Hs).
    destruct (Name_Equal top (NodeName n)) eqn:E.
    + apply Name_Equal_eq in E. congruence.
    + eexists. split; reflexivity.
Qed.

(** ** The value of entities *)

(** The table of the named entities. *)
Definition entity_table : list (list Z * Z) :=
  [(runes "quot", dquote); (runes "apos", squote); (runes "lt", langle);
   (runes "gt", rangle); (runes "amp", ampersand)].

(** X5. A reference to one of the five named entities is decoded as its
    character, and the cursor is left after the semicolon. *)
Theorem named_entities_decode r name x tail :
  In (name, x) entity_table ->
  pending (rs r) = name ++ semicolon :: tail ->
  parseEntity r = (Some (Ok x), with_rs r (mkBufio tail (Some semicolon))).
Proof.
  intros Hin Hp.
  assert (Forall (fun c => isLetter c = true) name /\ entities name = Some x) as (Hl & He).
  { unfold entity_table in Hin. simpl in Hin.
    repeat (destruct Hin as [[= <- <-] | Hin]; [split; [repeat constructor | reflexivity]|]).
    contradiction. }
  rewrite (parseEntity_named _ _ _ Hp Hl). now rewrite He.
Qed.

(** The number a string of digits writes in a base. *)
Definition numeral (base : Z) (ds : list Z) : Z :=
  fold_left (fun acc d => acc * base + match digitVal d with Some v => v | None => 0 end)
            ds 0.

Lemma digits_hex ds :
  Forall (fun d => isHex d = true) ds ->
  forall acc,
    digits 16 acc ds =
    Some (fold_left (fun acc d => acc * 16 + match digitVal d with Some v => v | None => 0 end)
                    ds acc).
Proof.
  induction 1 as [|d ds Hd _ IH]; intros acc; simpl; [reflexivity|].
  assert (exists v, digitVal d = Some v /\ v < 16) as (v & Hv & Hlt).
  { unfold isHex, isDigit in Hd. unfold digitVal.
    destruct ((48 <=? d) && (d <=? 57)) eqn:E1; [eexists; split; [reflexivity|lia]|].
    destruct ((97 <=? d) && (d <=? 122)) eqn:E2; [eexists; split; [reflexivity|lia]|].
    destruct ((65 <=? d) && (d <=? 90)) eqn:E3; [eexists; split; [reflexivity|lia]|].
    lia. }
  rewrite Hv. replace (v <? 16) with true by lia. apply IH.
Qed.

Lemma ParseInt_hex d ds :
  Forall (fun d => isHex d = true) (d :: ds) ->
  ParseInt (d :: ds) 16 32 =
  if numeral 16 (d :: ds) <? 2 ^ 31
  then (numeral 16 (d :: ds), None)
  else (2 ^ 31 - 1, Some (NumError (d :: ds) ErrRange)).
Proof.
  intros H. unfold ParseInt.
  assert ((d =? 43) = false /\ (d =? 45) = false) as (-> & ->).
  { inversion H as [|? ? Hd _]; subst. unfold isHex, isDigit in Hd. lia. }
  rewrite (digits_hex _ H 0). fold (numeral 16 (d :: ds)).
  change (2 ^ (32 - 1)) with (2 ^ 31). cbn [negb andb].
  destruct (numeral 16 (d :: ds) <? 2 ^ 31) eqn:E.
  - replace (2 ^ 31 <=? numeral 16 (d :: ds)) with false by lia. reflexivity.
  - replace (2 ^ 31 <=? numeral 16 (d :: ds)) with true by lia. reflexivity.
Qed.

(** X6. [&#x] and hexadecimal digits: the reference is decoded as the code
    point the digits write in base 16 when it is below 2^31, and fails
    with the range error of [strconv.ParseInt] otherwise; with no digit at
    all it fails with the syntax error. *)
Theorem hex_entity_value :
  (forall r d ds tail,
     Forall (fun d => isHex d = true) (d :: ds) ->
     pending (rs r) = pound :: 120 :: (d :: ds) ++ semicolon :: tail ->
     parseEntity r =
       (if numeral 16 (d :: ds) <? 2 ^ 31
        then Some (Ok (numeral 16 (d :: ds)))
        else Some (Err (NumError (d :: ds) ErrRange)),
        with_rs r (mkBufio tail (Some semicolon)))) /\
  (forall r tail,
     pending (rs r) = pound :: 120 :: semicolon :: tail ->
     parseEntity r =
       (Some (Err (NumError [] ErrSyntax)), with_rs r (mkBufio tail (Some semicolon)))).
Proof.
  split.
  - intros r d ds tail Hds Hp.
    rewrite (parseEntity_hex _ _ Hp).
    rewrite (parseNumericEntity_digits baseHex isHex _ (d :: ds) tail);
      [| now apply hex_accepted | reflexivity].
    unfold baseHex. rewrite (ParseInt_hex _ _ Hds).
    now destruct (numeral 16 (d :: ds) <? 2 ^ 31).
  - intros r tail Hp.
    rewrite (parseEntity_hex _ _ Hp).
    rewrite (parseNumericEntity_digits baseHex isHex _ [] tail);
      [reflexivity | constructor | reflexivity].
Qed.

(** [pop] on a name that is not the top of the stack: the error is built
    around [ErrMalformed], and the stack is left as it was. *)
Lemma pop_mismatch r n below top :
  stack r = below ++ [top] ->
  Name_Equal top (NodeName n) = false ->
  exists e, pop n r = (Some (Err e), r) /\ errors_Is e ErrMalformed = true.
Proof.
  intros Hs Hne. rewrite (pop_top _ _ _ _ Hs), Hne. eexists. split; reflexivity.
Qed.

(** ** Termination *)

(** A method is total when no loop of it uses its fuel up. *)
Definition total {A} (m : M A) : Prop := forall r, fst (m r) <> None.

Lemma total_ret {A} (a : A) : total (ret a).
Proof. intros r. discriminate. Qed.

Lemma total_fail {A} e : total (@fail A e).
Proof. intros r. discriminate. Qed.

Lemma total_gets {A} (f : Reader -> A) : total (gets f).
Proof. intros r. discriminate. Qed.

Lemma total_bind {A B} (m : M A) (f : A -> M B) :
  total m -> (forall a, total (f a)) -> total (bind m f).
Proof.
  intros Hm Hf r. unfold bind. specialize (Hm r).
  destruct (m r) as [[[a|e]|] r1]; simpl in *; [apply Hf | discriminate | congruence].
Qed.

Lemma total_attempt {A} (m : M A) : total m -> total (attempt m).
Proof.
  intros Hm r. unfold attempt. specialize (Hm r).
  destruct (m r) as [[x|] r1]; simpl in *; [discriminate | congruence].
Qed.

Lemma total_ignore {A} (m : M A) : total m -> total (ignore m).
Proof.
  intros Hm. unfold ignore. apply total_bind; [now apply total_attempt|].
  intros x. apply total_ret.
Qed.

Lemma total_check (m : M (option error)) : total m -> total (check m).
Proof.
  intros Hm. unfold check. apply total_bind; [exact Hm|].
  intros [e|]; [apply total_fail | apply total_ret].
Qed.

Lemma total_finally {A} (m : M A) cleanup : total m -> total (finally m cleanup).
Proof.
  intros Hm r. unfold finally. specialize (Hm r). now destruct (m r).
Qed.

Lemma total_continue {St A} (st : St) : total (@continue St A st).
Proof. apply total_ret. Qed.

Lemma total_break {St A} (a : A) : total (@break St A a).
Proof. apply total_ret. Qed.

Lemma total_read : total read.
Proof. intros r. unfold read, ReadRune. now destruct (pending (rs r)). Qed.

Lemma total_read_any : total read_any.
Proof. intros r. unfold read_any, ReadRune. now destruct (pending (rs r)). Qed.

Lemma total_unread : total unread.
Proof. intros r. unfold unread, UnreadRune. now destruct (lastRune (rs r)). Qed.

Lemma total_push n : total (push n).
Proof. intros r. unfold push. now destruct (SelfClosing n). Qed.

Lemma total_pop n : total (pop n).
Proof.
  intros r. unfold pop. destruct (Nat.eqb _ 0); [discriminate|].
  now destruct (negb _).
Qed.

Lemma total_silent : total silent.
Proof. intros r. discriminate. Qed.

Lemma total_keep t n : total (call_keep t n).
Proof. intros r. unfold call_keep. now destruct (keep r t n (world r)). Qed.

Lemma total_emitLoop {A} (a : A) set : total (emitLoop a set).
Proof.
  intros r. destruct (emitLoop_round a set r) as (? & ? & ? & ? & ? & E & _).
  now rewrite E.
Qed.

Lemma total_skipBlanks : total skipBlanks.
Proof. intros r. now rewrite skipBlanks_spec. Qed.

(** A round of a loop makes progress when it leaves less input each time
    it asks for another round. *)
Definition progress {St A} (body : St -> M (St + A)) : Prop :=
  forall st r st' r',
    body st r = (Some (Ok (inl st')), r') -> (left r' < left r)%nat.

Lemma total_iterate {St A} (body : St -> M (St + A)) :
  (forall st, total (body st)) -> progress body ->
  forall k st r, (left r < k)%nat -> fst (iterate k body st r) <> None.
Proof.
  intros Ht Hp. induction k as [|k IH]; intros st r Hk; [lia|].
  rewrite iterate_S. unfold bind. specialize (Ht st r).
  destruct (body st r) as [[[[st'|a]|e]|] r1] eqn:E; simpl in *;
    try discriminate; [|congruence].
  apply Hp in E. apply IH. lia.
Qed.

Lemma total_forever {St A} (body : St -> M (St + A)) st :
  (forall st, total (body st)) -> progress body -> total (forever body st).
Proof.
  intros Ht Hp r. unfold forever. apply total_iterate; auto.
Qed.

(** The methods that only read, or give back what they read themselves,
    leave no more input than there was. *)
Definition shrinks (r r' : Reader) : Prop := (left r' <= left r)%nat.

Lemma shrinks_refl r : shrinks r r.
Proof. unfold shrinks. lia. Qed.

Lemma shrinks_trans a b c : shrinks a b -> shrinks b c -> shrinks a c.
Proof. unfold shrinks. lia. Qed.

Lemma shrinks_read : pres shrinks read.
Proof.
  intros r. unfold shrinks, read, ReadRune, left.
  destruct (pending (rs r)); simpl; lia.
Qed.

Lemma shrinks_read_any : pres shrinks read_any.
Proof.
  intros r. unfold shrinks, read_any, ReadRune, left.
  destruct (pending (rs r)); simpl; lia.
Qed.

Lemma shrinks_peek : pres shrinks peek.
Proof.
  intros r. unfold shrinks, left. destruct (pending (rs r)) as [|c tl] eqn:E.
  - rewrite (peek_nil _ E). simpl. lia.
  - rewrite (peek_cons _ _ _ E). simpl. lia.
Qed.

Lemma shrinks_of_consumes {A} (m : M A) : consumes m -> pres shrinks m.
Proof.
  intros H r. specialize (H r). pose proof (left_le_held (snd (m r))).
  unfold shrinks. lia.
Qed.

Lemma shrinks_parseEntity : pres shrinks parseEntity.
Proof. apply shrinks_of_consumes, consumes_parseEntity. Qed.

Create HintDb shrinks.
#[local] Hint Resolve shrinks_read shrinks_read_any shrinks_peek
  shrinks_parseEntity : shrinks.

Ltac shrinks_go :=
  repeat first
    [ exact shrinks_refl | exact shrinks_trans
    | solve [auto with shrinks]
    | apply pres_ret | apply pres_fail | apply pres_gets
    | apply pres_continue | apply pres_break
    | apply pres_bind | apply pres_attempt | apply pres_ignore | apply pres_check
    | progress unfold decoded, twice
    | match goal with
      | |- pres _ (if ?b then _ else _) => destruct b
      | |- pres _ (match ?x with _ => _ end) => destruct x
      | |- pres _ (let '(_, _) := ?x in _) => destruct x
      | |- forall _, _ => intro
      end ].

(** A round that starts with a read and goes on with methods that leave
    no more input than there was makes progress. *)
Lemma progress_read {B} (f : Z -> M B) r (x : B) r' :
  (forall c, pres shrinks (f c)) ->
  bind read f r = (Some (Ok x), r') -> (left r' < left r)%nat.
Proof.
  intros Hf H. bind_step H c r1 Hc. apply read_inv in Hc as (tl & Hp & ->).
  apply (pres_at _ _ _ _ _ (Hf c)) in H. unfold shrinks, left in *.
  rewrite Hp. simpl in *. lia.
Qed.

Ltac progress_go :=
  let H := fresh "H" in
  intros ? ? ? ? H; eapply progress_read; [| exact H]; shrinks_go.

Create HintDb total.
#[local] Hint Resolve total_read total_read_any total_unread total_push total_pop
  total_silent total_keep total_emitLoop total_skipBlanks : total.

Ltac total_go :=
  repeat first
    [ solve [auto with total]
    | apply total_ret | apply total_fail | apply total_gets
    | apply total_continue | apply total_break
    | apply total_bind | apply total_attempt | apply total_ignore | apply total_check
    | apply total_finally
    | match goal with
      | |- total (if ?b then _ else _) => destruct b
      | |- total (match ?x with _ => _ end) => destruct x
      | |- total (let '(_, _) := ?x in _) => destruct x
      | |- forall _, _ => intro
      end ].

Lemma total_log e : total (log e).
Proof. intros r. discriminate. Qed.

Lemma total_set_listeners f : total (set_listeners f).
Proof. intros r. discriminate. Qed.

Ltac total_emit :=
  let r := fresh "r" in
  intros r; match goal with |- fst (?f _ r) <> _ => unfold f | |- fst (?f _ _ r) <> _ => unfold f end;
  destruct (silent_on (listeners r)); [discriminate|];
  apply total_bind; [apply total_log|]; intros _;
  apply total_bind; [apply total_emitLoop|]; intros [set err];
  apply total_bind; [apply total_set_listeners|]; intros _; apply total_ret.

Lemma total_emitBegin n : total (emitBegin n).
Proof. total_emit. Qed.

Lemma total_emitEnd n : total (emitEnd n).
Proof. total_emit. Qed.

Lemma total_emitInst n : total (emitInst n).
Proof. total_emit. Qed.

Lemma total_emitText s : total (emitText s).
Proof. total_emit. Qed.

Lemma total_emitComment s : total (emitComment s).
Proof. total_emit. Qed.

Lemma total_emitAttr n s : total (emitAttr n s).
Proof. total_emit. Qed.

#[local] Hint Resolve total_emitBegin total_emitEnd total_emitInst total_emitText
  total_emitComment total_emitAttr : total.

Lemma total_peek : total peek.
Proof. unfold peek. total_go. Qed.

Lemma total_want c : total (want c).
Proof. unfold want, wantFunc. total_go. Qed.

#[local] Hint Resolve total_peek total_want : total.

Lemma total_parseName_parse : total parseName_parse.
Proof.
  unfold parseName_parse. total_go.
  apply total_forever; [total_go | progress_go].
Qed.

#[local] Hint Resolve total_parseName_parse : total.

Lemma total_parseName : total parseName.
Proof. unfold parseName. total_go. Qed.

Lemma total_entity_loop accept st : total (forever (entity_loop accept) st).
Proof.
  apply total_forever; [unfold entity_loop; total_go | unfold entity_loop; progress_go].
Qed.

#[local] Hint Resolve total_parseName total_entity_loop : total.

Lemma total_parseEntity : total parseEntity.
Proof.
  unfold parseEntity, parseNumericEntity, parseStringEntity. total_go.
Qed.

#[local] Hint Resolve total_parseEntity : total.

Lemma total_decoded c : total (decoded c).
Proof. unfold decoded. total_go. Qed.

Lemma total_twice c x : total (twice c x).
Proof. unfold twice. total_go. Qed.

#[local] Hint Resolve total_decoded total_twice : total.

Lemma total_parseValue : total parseValue.
Proof.
  unfold parseValue. total_go.
  apply total_forever; [total_go | progress_go].
Qed.

Lemma total_parseText : total parseText.
Proof.
  unfold parseText. total_go.
  apply total_forever; [total_go | progress_go].
Qed.

Lemma total_parseData : total parseData.
Proof.
  unfold parseData. total_go.
  apply total_forever; [unfold parseData_loop; total_go | unfold parseData_loop; progress_go].
Qed.

Lemma total_parseComment : total parseComment.
Proof.
  unfold parseComment. total_go.
  apply total_forever; [total_go | progress_go].
Qed.

#[local] Hint Resolve total_parseValue total_parseText total_parseData
  total_parseComment : total.

(** A name that was read took at least one rune that is not given back. *)
Lemma parseName_parse_advances r name r' :
  parseName_parse r = (Some (Ok name), r') -> (held r' < left r)%nat.
Proof.
  intros H. unfold parseName_parse in H. bind_step H c r1 Hc.
  apply read_inv in Hc as (tl & Hp & ->).
  destruct (negb (isLetter c)); [discriminate|].
  bind_step H buf r2 Hl. bind_step H u r3 Hu. injection H as _ <-.
  apply (pres_at _ _ _ _ _ nonincr_unread) in Hu.
  match type of Hl with
  | forever ?b ?s _ = _ => assert (consumes (forever b s)) as Hcon
  end.
  { intros r0. unfold forever. apply consumes_iterate; intros st.
    - apply consumes_read. intros c0. nonincr_go.
    - nonincr_go. }
  specialize (Hcon (with_rs r (mkBufio tl (Some c)))). rewrite Hl in Hcon.
  unfold nonincr in Hu. unfold left in *. rewrite Hp. simpl in *. lia.
Qed.

Lemma parseName_advances r name r' :
  parseName r = (Some (Ok name), r') -> (held r' < left r)%nat.
Proof.
  intros H. unfold parseName in H. bind_step H nm r1 Hn.
  apply parseName_parse_advances in Hn.
  match type of H with
  | ?m r1 = _ => assert (pres nonincr m) as Hm by nonincr_go
  end.
  apply (pres_at _ _ _ _ _ Hm) in H. unfold nonincr in H. lia.
Qed.

Lemma nonincr_want c : pres nonincr (want c).
Proof. apply pres_want; nonincr_frame. Qed.

Lemma nonincr_emitAttr n s : pres nonincr (emitAttr n s).
Proof. nonincr_frame. Qed.

#[local] Hint Resolve nonincr_want nonincr_emitAttr : nonincr.

Lemma total_parseAttributes n : total (parseAttributes n).
Proof.
  unfold parseAttributes. total_go.
  apply total_forever; [total_go|].
  intros [seen n0] r st' r' H.
  bind_step H c r1 Hc. apply read_inv in Hc as (tl & Hp & ->).
  destruct (negb (isName c)); [discriminate|].
  bind_step H u r2 Hu.
  erewrite ignore_some in Hu; [| apply unread_some; reflexivity].
  injection Hu as _ <-. simpl in H.
  bind_step H name r3 Hn. apply parseName_advances in Hn.
  match type of H with
  | ?m r3 = _ => assert (pres nonincr m) as Hm by nonincr_go
  end.
  apply (pres_at _ _ _ _ _ Hm) in H. unfold nonincr in H.
  pose proof (left_le_held r'). unfold left in *. rewrite Hp. simpl in *. lia.
Qed.

#[local] Hint Resolve total_parseAttributes : total.

Lemma total_parseNode : total parseNode.
Proof.
  unfold parseNode, parseInstruction, parseEndElement, parseOpenElement. total_go.
Qed.

Lemma total_next : total next.
Proof. unfold next. pose proof total_parseNode. total_go. Qed.

#[local] Hint Resolve total_next : total.

Lemma total_skipSubtree n : total (skipSubtree n).
Proof.
  unfold skipSubtree. total_go.
  apply total_forever; [total_go|].
  intros [] r [] r' H. bind_step H c r1 Hn. apply next_progress in Hn.
  bind_step H d r2 Hg. injection Hg as _ <-.
  destruct (_ && _); [discriminate|]. injection H as <-. exact Hn.
Qed.

#[local] Hint Resolve total_skipSubtree : total.

(** A loop whose rounds return their errors as values fails with none. *)
Lemma iterate_no_err {St A} (body : St -> M (St + A)) :
  (forall st r e r', body st r <> (Some (Err e), r')) ->
  forall k st r e r', iterate k body st r <> (Some (Err e), r').
Proof.
  intros Hb. induction k as [|k IH]; intros st r e r' E; [discriminate|].
  rewrite iterate_S in E. unfold bind in E.
  destruct (body st r) as [[[[st'|a]|e0]|] r1] eqn:Eb; try discriminate.
  - exact (IH _ _ _ _ E).
  - injection E as -> ->. exact (Hb _ _ _ _ Eb).
Qed.

Lemma total_Read : total Read.
Proof.
  unfold Read. apply total_forever; [total_go|].
  intros [] r0 [] r' H.
  bind_step H x r1 Hn. apply attempt_inv in Hn.
  destruct x as [n|e]; [|discriminate].
  apply next_progress in Hn.
  bind_step H err r2 Hk.
  assert (left r2 = left r1) as E2.
  { apply left_same_rs. unfold call_keep in Hk.
    destruct (keep r1 (Typ n) (NodeName n) (world r1)). now injection Hk as _ <-. }
  destruct (is_error err ErrIgnore).
  + bind_step H z r3 Hs. apply attempt_inv in Hs.
    destruct z as [[]|e]; [|discriminate]. injection H as <-.
    apply skipSubtree_left in Hs. lia.
  + destruct (is_error err ErrSkip); [|discriminate]. injection H as <-. lia.
Qed.

(** The errors of [Read] are values it returns. *)
Lemma Read_no_err r e r' : Read r <> (Some (Err e), r').
Proof.
  unfold Read, forever. apply iterate_no_err.
  clear. intros [] r e r' Eb.
  unfold bind at 1 in Eb. unfold attempt at 1 in Eb.
  destruct (next r) as [[[n|e1]|] r2]; try discriminate.
  unfold bind at 1 in Eb. unfold call_keep at 1 in Eb.
  destruct (keep r2 (Typ n) (NodeName n) (world r2)) as [err w].
  destruct (is_error err ErrIgnore).
  + unfold bind at 1, attempt at 1 in Eb.
    destruct (skipSubtree n (with_world r2 w)) as [[[[]|e2]|] r3]; discriminate.
  + destruct (is_error err ErrSkip); discriminate.
Qed.

Lemma Read_ends r node err r' :
  Read r = (Some (Ok (node, err)), r') ->
  (node = None -> err <> None) /\
  (node <> None -> is_error err ErrIgnore = false /\ is_error err ErrSkip = false) /\
  (err = None -> (left r' < left r)%nat).
Proof.
  intros E. unfold Read in E.
  apply (forever_inv _ (fun _ r1 => (left r1 <= left r)%nat)
           (fun x r1 =>
              (fst x = None -> snd x <> None) /\
              (fst x <> None ->
               is_error (snd x) ErrIgnore = false /\ is_error (snd x) ErrSkip = false) /\
              (snd x = None -> (left r1 < left r)%nat))) in E;
    [exact E | | apply Nat.le_refl].
  clear. intros [] r0 x r0' HI H.
  bind_step H y r1 Hn. apply attempt_inv in Hn.
  destruct y as [n|e].
  + apply next_progress in Hn.
    bind_step H err r2 Hk.
    assert (left r2 = left r1) as E2.
    { apply left_same_rs. unfold call_keep in Hk.
      destruct (keep r1 (Typ n) (NodeName n) (world r1)). now injection Hk as _ <-. }
    destruct (is_error err ErrIgnore) eqn:Ei.
    * bind_step H z r3 Hs. apply attempt_inv in Hs.
      destruct z as [[]|e]; injection H as <- <-; simpl.
      -- apply skipSubtree_left in Hs. lia.
      -- repeat split; congruence.
    * destruct (is_error err ErrSkip) eqn:Es; injection H as <- <-; simpl; [lia|].
      repeat split; auto; [congruence | intros _; lia].
  + injection H as <- <-. simpl. repeat split; congruence.
Qed.


(** X9. [Run] returns: it reads until [Read] gives an error, and
    returns that error, or nil when the error is [io.EOF]. *)
Theorem Run_total r :
  exists node e r0 r',
    Run r = (Some (Ok (if errors_Is e io_EOF then None else Some e)), r') /\
    Read r0 = (Some (Ok (node, Some e)), r') /\
    (left r0 <= left r)%nat.
Proof.
  assert (total Run) as Ht.
  { unfold Run. apply total_forever.
    - intros st. apply total_bind; [apply total_Read|]. intros [node [e|]]; total_go.
    - intros [] r1 [] r2 H. bind_step H x r3 Hr. destruct x as [node [e|]]; [discriminate|].
      injection H as <-. apply Read_ends in Hr. destruct Hr as (_ & _ & Hr).
      exact (Hr eq_refl). }
  specialize (Ht r).
  destruct (Run r) as [[[err|e]|] r'] eqn:E; simpl in Ht; [| |congruence].
  - unfold Run in E.
    apply (forever_inv _ (fun _ r1 => (left r1 <= left r)%nat)
             (fun x r1 => exists node e r0,
                x = (if errors_Is e io_EOF then None else Some e) /\
                Read r0 = (Some (Ok (node, Some e)), r1) /\
                (left r0 <= left r)%nat)) in E; [| | apply Nat.le_refl].
    + destruct E as (node & e & r0 & -> & Hr & Hl). now exists node, e, r0, r'.
    + clear. intros [] r1 x r2 HI H. bind_step H y r3 Hr. destruct y as [node [e|]].
      * injection H as <- <-. now exists node, e, r1.
      * injection H as <- <-. apply Read_ends in Hr. destruct Hr as (_ & _ & Hr).
        specialize (Hr eq_refl). lia.
  - exfalso. revert E. unfold Run, forever. apply iterate_no_err.
    clear. intros [] r e r' Eb. unfold bind at 1 in Eb.
    pose proof (Read_no_err r) as Hn.
    destruct (Read r) as [[[[node [e1|]]|e1]|] r1]; try discriminate.
    now elim (Hn e1 r1).
Qed.

(** ** The stack after a scan step *)

Lemma bind_out {A B} (m : M A) (f : A -> M B) r x r' :
  bind m f r = (x, r') ->
  (exists a r1, m r = (Some (Ok a), r1) /\ f a r1 = (x, r')) \/
  (exists e, m r = (Some (Err e), r') /\ x = Some (Err e)) \/
  (m r = (None, r') /\ x = None).
Proof.
  unfold bind. destruct (m r) as [[[a|e]|] r1]; intros H.
  - left. eauto.
  - injection H as <- <-. right. left. eauto.
  - injection H as <- <-. right. right. auto.
Qed.

Ltac bind_split H a r Ha :=
  let e := fresh "e" in
  apply bind_out in H;
  destruct H as [(a & r & Ha & H) | [(e & Ha & ->) | (Ha & ->)]].

Lemma stack_parseInstruction : pres same_stack parseInstruction.
Proof. apply pres_parseInstruction; stack_frame. Qed.

Lemma stack_parseData : pres same_stack parseData.
Proof. apply pres_parseData; stack_frame. Qed.

Lemma stack_parseComment : pres same_stack parseComment.
Proof. apply pres_parseComment; stack_frame. Qed.

Lemma stack_parseText : pres same_stack parseText.
Proof. apply pres_parseText; stack_frame. Qed.

(** What a scan step that gave [x] did to the stack [before]. *)
Definition stack_step (before : list Name) (x : option (result Node))
    (after : list Name) : Prop :=
  match x with
  | Some (Ok n) =>
      match Typ n with
      | BeginElement => after = if SelfClosing n then before else before ++ [NodeName n]
      | EndElement => before = after ++ [NodeName n]
      | _ => after = before
      end
  | _ => after = before
  end.

Lemma stack_step_same (s : list Name) x :
  match x with
  | Some (Ok n) => Typ n <> BeginElement /\ Typ n <> EndElement
  | _ => True
  end ->
  stack_step s x s.
Proof.
  unfold stack_step. destruct x as [[n|e]|]; auto.
  intros (H1 & H2). destruct (Typ n); congruence.
Qed.

Ltac stack_at H lem :=
  apply (pres_at _ _ _ _ _ lem) in H; unfold same_stack in H.

Lemma parseNode_stack r x r' :
  parseNode r = (x, r') -> stack_step (stack r) x (stack r').
Proof.
  intros H. unfold parseNode in H.
  bind_split H c r1 Hc; stack_at Hc stack_read;
    [| rewrite Hc; now apply stack_step_same..].
  apply finally_inv in H as (r2 & H & ->). rewrite (stack_skipBlanks r2).
  rewrite <- Hc. clear Hc r.
  destruct (c =? mark).
  { pose proof (pres_at _ _ _ _ _ stack_parseInstruction H) as Hs. rewrite Hs.
    apply stack_step_same. destruct x as [[n|e]|]; auto.
    apply parseInstruction_type in H. rewrite H. split; discriminate. }
  destruct (c =? bang).
  { bind_split H c3 r3 H3; stack_at H3 stack_read_any;
      [| rewrite H3; now apply stack_step_same..].
    bind_split H u r4 H4;
      stack_at H4 (pres_ignore _ same_stack_refl same_stack_trans _ stack_unread);
      [| rewrite H4, H3; now apply stack_step_same..].
    rewrite <- H3, <- H4.
    destruct (c3 =? lsquare).
    { pose proof (pres_at _ _ _ _ _ stack_parseData H) as Hs. rewrite Hs.
      apply stack_step_same. destruct x as [[n|e]|]; auto.
      apply parseData_type in H. rewrite H. split; discriminate. }
    destruct (c3 =? hyphen).
    { pose proof (pres_at _ _ _ _ _ stack_parseComment H) as Hs. rewrite Hs.
      apply stack_step_same. destruct x as [[n|e]|]; auto.
      apply parseComment_type in H. rewrite H. split; discriminate. }
    injection H as <- <-. now apply stack_step_same. }
  destruct (c =? slash).
  { bind_split H n r3 H3;
      [| stack_at H3 stack_parseEndElement; rewrite H3; now apply stack_step_same..].
    pose proof (parseEndElement_type _ _ _ H3) as (Ht & _).
    stack_at H3 stack_parseEndElement. rewrite <- H3.
    bind_split H u r4 H4.
    - injection H as <- <-. unfold stack_step. rewrite Ht.
      destruct (stack r3) as [|a l] eqn:Es; [unfold pop in H4; rewrite Es in H4; discriminate|].
      destruct (exists_last (l := a :: l)) as (below & top & Eb); [discriminate|].
      rewrite <- Es in *. rewrite (pop_top _ n _ _ Eb) in H4.
      destruct (Name_Equal top (NodeName n)) eqn:En; [|discriminate].
      apply Name_Equal_eq in En. inversion H4; subst r4; simpl. congruence.
    - unfold pop in H4.
      destruct (Nat.eqb _ 0); [injection H4 as _ <-; now apply stack_step_same|].
      destruct (negb _); [injection H4 as _ <-; now apply stack_step_same | discriminate].
    - exfalso. exact (total_pop n r3 (f_equal fst H4)). }
  destruct (isLetter c).
  2:{ injection H as <- <-. now apply stack_step_same. }
  bind_split H u r3 H3;
    stack_at H3 (pres_ignore _ same_stack_refl same_stack_trans _ stack_unread);
    [| rewrite H3; now apply stack_step_same..].
  rewrite <- H3.
  bind_split H n r4 H4;
    [| stack_at H4 stack_parseOpenElement; rewrite H4; now apply stack_step_same..].
  pose proof (parseOpenElement_type _ _ _ H4) as Ht.
  stack_at H4 stack_parseOpenElement. rewrite <- H4.
  bind_split H u' r5 H5.
  - injection H as <- <-. unfold stack_step. rewrite Ht.
    unfold push in H5. destruct (SelfClosing n); inversion H5; reflexivity.
  - unfold push in H5. destruct (SelfClosing n); discriminate.
  - unfold push in H5. destruct (SelfClosing n); discriminate.
Qed.

Lemma next_stack_at r x r' :
  next r = (x, r') -> stack_step (stack r) x (stack r').
Proof.
  intros H. unfold next in H.
  bind_split H c r1 Hc; stack_at Hc stack_read;
    [| rewrite Hc; now apply stack_step_same..].
  rewrite <- Hc. destruct (c =? langle); [now apply parseNode_stack|].
  bind_split H u r3 H3;
    stack_at H3 (pres_ignore _ same_stack_refl same_stack_trans _ stack_unread);
    [| rewrite H3; now apply stack_step_same..].
  rewrite <- H3.
  pose proof (pres_at _ _ _ _ _ stack_parseText H) as Hs. rewrite Hs.
  apply stack_step_same. destruct x as [[n|e]|]; auto.
  apply parseText_type in H. rewrite H. split; discriminate.
Qed.

(** X10. The stack of open elements after a scan step: a begin-element that
    is not self-closing was pushed; an end-element is returned only when
    its name is the top of the stack, which was popped; every other token,
    and every failure, leaves the stack as it was. *)
Theorem next_stack r :
  stack_step (stack r) (fst (next r)) (stack (snd (next r))).
Proof.
  destruct (next r) as [x r'] eqn:H. simpl. now apply next_stack_at.
Qed.

(** ** The attributes of a node *)

Lemma existsb_Name_Equal name seen :
  existsb (Name_Equal name) seen = false -> ~ In name seen.
Proof.
  intros H Hin. assert (existsb (Name_Equal name) seen = true); [|congruence].
  apply existsb_exists. exists name. split; [exact Hin | apply Name_Equal_refl].
Qed.

Lemma parseAttributes_distinct n :
  Attrs n = [] ->
  returns (parseAttributes n) (fun n' => NoDup (map AttrName (Attrs n'))).
Proof.
  intros Hn. unfold parseAttributes. intros r a r' H.
  bind_step H n1 r1 Hloop. bind_step H u r2 Hu. injection H as <- <-.
  match type of Hloop with
  | forever ?b ?s _ = _ =>
      assert (returns (forever b s)
                (fun n' => NoDup (map AttrName (Attrs n')))) as HR;
        [| exact (HR _ _ _ Hloop)]
  end.
  apply returns_forever with
    (I := fun st : list Name * Node =>
            map AttrName (Attrs (snd st)) = rev (fst st) /\ NoDup (fst st)).
  { simpl. rewrite Hn. split; [reflexivity | constructor]. }
  intros [seen n0] (Hm & Hd). simpl in Hm, Hd.
  apply returns_bind. intros c.
  destruct (negb (isName c)).
  { apply returns_ret. rewrite Hm. now apply NoDup_rev. }
  apply returns_bind. intros _. apply returns_bind. intros name.
  destruct (existsb (Name_Equal name) seen) eqn:Ex; [apply returns_fail|].
  apply existsb_Name_Equal in Ex.
  repeat returns_step. simpl. rewrite map_app, Hm. simpl.
  split; [reflexivity | now constructor].
Qed.

Lemma next_distinct : returns next (fun n => NoDup (map AttrName (Attrs n))).
Proof.
  unfold next. apply returns_bind. intros c. destruct (c =? langle).
  - unfold parseNode. apply returns_bind. intros c2. apply returns_finally.
    destruct (c2 =? mark).
    { unfold parseInstruction. do 3 returns_step.
      eapply returns_bind_with; [now apply parseAttributes_distinct|].
      intros n Hn. repeat returns_step. exact Hn. }
    destruct (c2 =? bang).
    { do 2 returns_step. destruct (_ =? lsquare).
      - unfold parseData. repeat returns_step. constructor.
      - destruct (_ =? hyphen); [|apply returns_fail].
        unfold parseComment. repeat returns_step. constructor. }
    destruct (c2 =? slash).
    { eapply returns_bind_with; [| intros n Hn; repeat returns_step; exact Hn].
      unfold parseEndElement. repeat returns_step. constructor. }
    destruct (isLetter c2); [|apply returns_fail].
    returns_step. eapply returns_bind_with; [| intros n Hn; repeat returns_step; exact Hn].
    unfold parseOpenElement. do 3 returns_step.
    eapply returns_bind_with; [now apply parseAttributes_distinct|].
    intros n Hn. repeat returns_step; exact Hn.
  - returns_step. unfold parseText. repeat returns_step. constructor.
Qed.

(** X11. No two attributes of a token have the same name, whether the token
    comes from a scan step or from [Read]. *)
Theorem attribute_names_distinct :
  (forall r n r', next r = (Some (Ok n), r') -> NoDup (map AttrName (Attrs n))) /\
  (forall r n err r',
     Read r = (Some (Ok (Some n, err)), r') -> NoDup (map AttrName (Attrs n))).
Proof.
  split.
  - intros r n r' H. exact (next_distinct _ _ _ H).
  - intros r n err r' H. apply Read_returns_scanned in H as (r0 & r1 & H & _).
    exact (next_distinct _ _ _ H).
Qed.

(** ** Reading without a filter *)

(** No method changes the filter. *)
Definition same_keep (r r' : Reader) : Prop := keep r' = keep r.

Lemma same_keep_refl r : same_keep r r.
Proof. reflexivity. Qed.

Lemma same_keep_trans a b c : same_keep a b -> same_keep b c -> same_keep a c.
Proof. unfold same_keep. congruence. Qed.

Lemma keep_read : pres same_keep read.
Proof. intros r. unfold same_keep, read. now destruct (ReadRune (rs r)) as [[c [e|]] b]. Qed.

Lemma keep_read_any : pres same_keep read_any.
Proof. intros r. unfold same_keep, read_any. now destruct (ReadRune (rs r)) as [[c e] b]. Qed.

Lemma keep_unread : pres same_keep unread.
Proof. intros r. unfold same_keep, unread. now destruct (UnreadRune (rs r)) as [[e|] b]. Qed.

Lemma keep_log e : pres same_keep (log e).
Proof. intros r. reflexivity. Qed.

Lemma keep_invoke A (fn : Listener A) a : pres same_keep (invoke fn a).
Proof. intros r. unfold same_keep, invoke. now destruct (call fn a (world r)). Qed.

Lemma keep_lists f :
  (forall l, silent_on (f l) = silent_on l) -> pres same_keep (set_listeners f).
Proof. intros _ r. reflexivity. Qed.

Lemma keep_push n : pres same_keep (push n).
Proof. intros r. unfold same_keep, push. now destruct (SelfClosing n). Qed.

Lemma keep_pop n : pres same_keep (pop n).
Proof.
  intros r. unfold same_keep, pop. destruct (Nat.eqb _ 0); [reflexivity|].
  now destruct (negb _).
Qed.

Ltac keep_frame :=
  first [ exact same_keep_refl | exact same_keep_trans | exact keep_read
        | exact keep_read_any | exact keep_unread | exact keep_push | exact keep_pop
        | apply pres_emitBegin | apply pres_emitEnd | apply pres_emitInst
        | apply pres_emitText | apply pres_emitComment | apply pres_emitAttr ];
  try first [ exact same_keep_refl | exact same_keep_trans | exact keep_log
            | exact keep_invoke | exact keep_lists ].

Lemma keep_next : pres same_keep next.
Proof. apply pres_next; keep_frame. Qed.

(** X12. With the filter that keeps everything, which [New] installs when it
    is given none, [Read] is one scan step: it returns the token of the
    step with no error, or the error of the step. *)
Theorem Read_keepAll :
  (forall input w, keep (New input None w) = keepAll) /\
  (forall r,
     keep r = keepAll ->
     Read r =
       match next r with
       | (Some (Ok n), r') => (Some (Ok (Some n, None)), r')
       | (Some (Err e), r') => (Some (Ok (None, Some e)), r')
       | (None, r') => (None, r')
       end).
Proof.
  split.
  - intros input w. unfold New. rewrite skipBlanks_spec. reflexivity.
  - intros r Hk. rewrite Read_unfold. unfold bind at 1, attempt at 1.
    destruct (next r) as [[[n|e]|] r'] eqn:E; try reflexivity.
    assert (keep r' = keepAll) as Hk'.
    { rewrite <- Hk. pose proof (pres_at _ _ _ _ _ keep_next E) as H. exact H. }
    unfold bind, call_keep. rewrite Hk'. unfold keepAll. simpl. now destruct r'.
Qed.

(** ** Text and attribute values *)

(** The loop of [parseText] and of [parseValue]: the runes up to [stop]
    are appended as they are; the runes in [plain] for [stop] are neither
    [stop] nor the start of an entity. *)
Definition plain (stop : Z) (body : list Z) : Prop :=
  Forall (fun c => c <> stop /\ c <> ampersand) body.

Lemma plain_loop stop body :
  plain stop body ->
  forall fuel buf r rest,
  (List.length body < fuel)%nat ->
  pending (rs r) = body ++ stop :: rest ->
  iterate fuel
    (fun buf => c <- read ;;
                if c =? stop then break buf
                else c <- decoded c ;; continue (WriteRune buf c)) buf r =
  (Some (Ok (buf ++ written body)), with_rs r (mkBufio rest (Some stop))).
Proof.
  induction 1 as [|c body (Hs & Ha) _ IH]; intros fuel buf r rest Hf Hp;
    (destruct fuel as [|fuel]; [simpl in Hf; lia|]); rewrite iterate_S.
  - simpl in Hp. rewrite bind_assoc, (bind_ok _ _ _ _ _ (read_cons _ _ _ Hp)).
    rewrite Z.eqb_refl. unfold break. rewrite bind_ret. unfold ret, written. simpl.
    now rewrite app_nil_r.
  - simpl in Hp. rewrite bind_assoc, (bind_ok _ _ _ _ _ (read_cons _ _ _ Hp)).
    apply Z.eqb_neq in Hs, Ha. rewrite Hs. unfold decoded. rewrite Ha.
    rewrite bind_assoc, bind_ret. unfold continue. rewrite bind_ret.
    rewrite (IH fuel (WriteRune buf c) _ rest); [| simpl in Hf; lia | reflexivity].
    unfold WriteRune, written. simpl. now rewrite <- app_assoc.
Qed.

Lemma plain_loop_eof stop body :
  plain stop body ->
  forall fuel buf r,
  (List.length body < fuel)%nat ->
  pending (rs r) = body ->
  iterate fuel
    (fun buf => c <- read ;;
                if c =? stop then break buf
                else c <- decoded c ;; continue (WriteRune buf c)) buf r =
  (Some (Err io_EOF), with_rs r (mkBufio [] None)).
Proof.
  induction 1 as [|c body (Hs & Ha) _ IH]; intros fuel buf r Hf Hp;
    (destruct fuel as [|fuel]; [simpl in Hf; lia|]); rewrite iterate_S.
  - rewrite bind_assoc. now rewrite (bind_err _ _ _ _ _ (read_nil _ Hp)).
  - rewrite bind_assoc, (bind_ok _ _ _ _ _ (read_cons _ _ _ Hp)).
    apply Z.eqb_neq in Hs, Ha. rewrite Hs. unfold decoded. rewrite Ha.
    rewrite bind_assoc, bind_ret. unfold continue. rewrite bind_ret.
    rewrite (IH fuel (WriteRune buf c)); [reflexivity | simpl in Hf; lia | reflexivity].
Qed.

(** X13. An attribute value is what stands between two quotes of the same
    kind, trimmed; the other quote may stand in it. A value that does not
    start with a quote is an unexpected character, and a value that is not
    closed fails with the end of the input. *)
Theorem quoted_value :
  (forall r q body rest,
     isQuote q = true ->
     plain q body ->
     pending (rs r) = q :: body ++ q :: rest ->
     parseValue r =
       (Some (Ok (TrimSpace (written body))), with_rs r (mkBufio rest (Some q)))) /\
  (forall r c rest,
     isQuote c = false ->
     pending (rs r) = c :: rest ->
     exists e,
       parseValue r = (Some (Err e), with_rs r (mkBufio rest (Some c))) /\
       errors_Is e ErrChar = true) /\
  (forall r q body,
     isQuote q = true ->
     plain q body ->
     pending (rs r) = q :: body ->
     parseValue r = (Some (Err io_EOF), with_rs r (mkBufio [] None))).
Proof.
  repeat split.
  - intros r q body rest Hq Hb Hp. unfold parseValue.
    rewrite (bind_ok _ _ _ _ _ (read_cons _ _ _ Hp)). rewrite Hq. cbn [negb].
    unfold forever.
    erewrite bind_ok;
      [| apply (plain_loop q body Hb _ [] _ rest);
         [simpl; rewrite length_app; simpl; lia | reflexivity]].
    reflexivity.
  - intros r c rest Hq Hp. unfold parseValue.
    rewrite (bind_ok _ _ _ _ _ (read_cons _ _ _ Hp)). rewrite Hq. cbn [negb].
    eexists. split; reflexivity.
  - intros r q body Hq Hb Hp. unfold parseValue.
    rewrite (bind_ok _ _ _ _ _ (read_cons _ _ _ Hp)). rewrite Hq. cbn [negb].
    unfold forever.
    erewrite bind_err;
      [| apply (plain_loop_eof q body Hb _ [] _); [simpl; lia | reflexivity]].
    reflexivity.
Qed.

Lemma next_text_head r c tl :
  pending (rs r) = c :: tl ->
  c <> langle ->
  next r = parseText (with_rs r (mkBufio (c :: tl) None)).
Proof.
  intros Hp Hc. unfold next.
  rewrite (bind_ok _ _ _ _ _ (read_cons _ _ _ Hp)).
  apply Z.eqb_neq in Hc. rewrite Hc.
  erewrite bind_ok; [| eapply ignore_some, unread_some; reflexivity].
  reflexivity.
Qed.

(** X14. Text up to the next tag is one token: [next] dispatches the text,
    trimmed, as one text event, gives the [<] back and returns a node of
    type [Text] with that content, or the error of a text callback; the
    stack is left as it was. On a reader that is not silenced the
    registered text callbacks are called with the trimmed text: the
    trace, the world and the list of text callbacks after the scan step
    are those of that round. Text that no tag follows is not a token: the
    scan step fails with the end of the input, nothing is dispatched, and
    [Run] returns nil. *)
Theorem text_token :
  (forall r body rest,
     body <> [] ->
     plain langle body ->
     pending (rs r) = body ++ langle :: rest ->
     let content := TrimSpace (written body) in
     let node := mkNode Text (mkName [] []) [] content false in
     let r1 := with_rs r (mkBufio rest (Some langle)) in
     next r = (check (emitText content) ;; unread ;; ret node) r1 /\
     (fst (emitText content r1) = Some (Ok None) ->
      fst (next r) = Some (Ok node) /\
      rs (snd (next r)) = mkBufio (langle :: rest) None) /\
     (silent_on (listeners r) = false ->
      rounds (trace (snd (next r))) = rounds (trace r) ++ [EvText content]) /\
     stack (snd (next r)) = stack r /\
     (silent_on (listeners r) = false ->
      disp (snd (next r)) = text_round content (disp r) /\
      fst (next r) =
        match round_error content (texts (listeners r)) (world r) with
        | None => Some (Ok node)
        | Some e => Some (Err e)
        end)) /\
  (forall r,
     plain langle (pending (rs r)) ->
     next r = (Some (Err io_EOF), with_rs r (mkBufio [] None)) /\
     Read r = (Some (Ok (None, Some io_EOF)), with_rs r (mkBufio [] None)) /\
     Run r = (Some (Ok None), with_rs r (mkBufio [] None))).
Proof.
  split.
  - intros r body rest Hne Hb Hp content node r1.
    assert (next r = (check (emitText content) ;; unread ;; ret node) r1) as E.
    { destruct body as [|c body]; [now elim Hne|].
      rewrite (next_text_head _ c (body ++ langle :: rest)); [| exact Hp |].
      2:{ inversion Hb as [|? ? (Hc & _) _]; subst. exact Hc. }
      unfold parseText, forever.
      erewrite bind_ok;
        [| apply (plain_loop langle (c :: body) Hb _ [] _ rest);
           [simpl; rewrite length_app; simpl; lia | reflexivity]].
      reflexivity. }
    split; [exact E|].
    destruct (emitText content r1) as [x r2] eqn:Ee.
    pose proof (same_input_emitText content r1) as (Hrs & Hst & _ & _).
    rewrite Ee in Hrs, Hst. simpl in Hrs, Hst.
    assert (snd (next r) = snd (unread r2) \/ snd (next r) = r2) as Hsnd.
    { rewrite E. unfold check, bind. rewrite Ee.
      destruct x as [[[e|]|e]|]; simpl; auto.
      left. now destruct (unread r2) as [[[[]|e]|] r3]. }
    assert (unread r2 =
            (Some (Ok tt), with_rs r2 (mkBufio (langle :: rest) None))) as Hu.
    { rewrite (unread_some r2 langle); rewrite Hrs; reflexivity. }
    repeat split.
    + simpl in H. subst x. rewrite E. unfold check, bind. rewrite Ee.
      unfold ret at 1. now rewrite Hu.
    + simpl in H. subst x. rewrite E. unfold check, bind. rewrite Ee.
      unfold ret at 1. now rewrite Hu.
    + intros Hs. apply emitText_round in Ee as (_ & _ & _ & _ & Hr); [|exact Hs].
      destruct Hsnd as [-> | ->]; [rewrite Hu|]; simpl; exact Hr.
    + destruct Hsnd as [-> | ->]; [rewrite Hu|]; simpl; exact Hst.
    + pose proof (proj1 (emitText_run content r1 x r2 H Ee)) as Hd.
      destruct Hsnd as [-> | ->]; [rewrite Hu|]; exact Hd.
    + pose proof (proj2 (emitText_run content r1 x r2 H Ee)) as Hx.
      unfold r1 in Hx. cbn [listeners world with_rs] in Hx. fold r1 in Hx.
      rewrite E. unfold check, bind. rewrite Ee. subst x.
      destruct (round_error content (texts (listeners r)) (world r)); [reflexivity|].
      unfold ret at 1. now rewrite Hu.
  - intros r Hb.
    assert (next r = (Some (Err io_EOF), with_rs r (mkBufio [] None))) as E.
    { destruct (pending (rs r)) as [|c body] eqn:Hp.
      - unfold next. now rewrite (bind_err _ _ _ _ _ (read_nil _ Hp)).
      - rewrite (next_text_head _ c body Hp).
        2:{ inversion Hb as [|? ? (Hc & _) _]; subst. exact Hc. }
        unfold parseText, forever.
        erewrite bind_err;
          [| apply (plain_loop_eof langle (c :: body) Hb _ [] _);
             [simpl; lia | reflexivity]].
        now rewrite with_rs_with_rs. }
    assert (Read r = (Some (Ok (None, Some io_EOF)), with_rs r (mkBufio [] None))) as ER.
    { rewrite Read_unfold.
      now rewrite (bind_ok _ _ _ _ _ (attempt_some _ _ _ _ E)). }
    repeat split; [exact E | exact ER |].
    unfold Run, forever. rewrite iterate_S.
    rewrite bind_assoc, (bind_ok _ _ _ _ _ ER). reflexivity.
Qed.

(** ** What cannot start a tag *)

(** X16. After [<], a rune that is not [?], [!], [/] or a letter is an
    unexpected character, and so is, after [<!], a rune that is neither
    [\[] nor [-], and a [-] that no second [-] follows. The failure
    dispatches nothing and leaves the stack as it was. *)
Theorem bad_tag_start :
  (forall r c rest,
     pending (rs r) = langle :: c :: rest ->
     c <> mark -> c <> bang -> c <> slash -> isLetter c = false ->
     next r = (Some (Err (unexpectedChar c)),
               with_rs r (mkBufio (TrimLeft isBlank rest) None))) /\
  (forall r c rest,
     pending (rs r) = langle :: bang :: c :: rest ->
     c <> lsquare -> c <> hyphen ->
     next r = (Some (Err (unexpectedChar c)),
               with_rs r (mkBufio (TrimLeft isBlank (c :: rest)) None))) /\
  (forall r c rest,
     pending (rs r) = langle :: bang :: hyphen :: c :: rest ->
     c <> hyphen ->
     next r = (Some (Err (unexpectedChar hyphen)),
               with_rs r (mkBufio (TrimLeft isBlank (c :: rest)) None))) /\
  (forall c, errors_Is (unexpectedChar c) ErrChar = true /\
             errors_Is (unexpectedChar c) ErrMalformed = false).
Proof.
  repeat split.
  - intros r c rest Hp H1 H2 H3 H4. unfold next.
    rewrite (bind_ok _ _ _ _ _ (read_cons _ _ _ Hp)). rewrite Z.eqb_refl.
    unfold parseNode.
    erewrite bind_ok; [| apply read_cons; reflexivity].
    apply Z.eqb_neq in H1, H2, H3. rewrite H1, H2, H3, H4.
    unfold finally, fail. now rewrite skipBlanks_spec.
  - intros r c rest Hp H1 H2. unfold next.
    rewrite (bind_ok _ _ _ _ _ (read_cons _ _ _ Hp)). rewrite Z.eqb_refl.
    unfold parseNode.
    erewrite bind_ok; [| apply read_cons; reflexivity].
    change (bang =? mark) with false. rewrite Z.eqb_refl. cbv iota.
    erewrite finally_bind; [| apply read_any_cons; reflexivity].
    erewrite finally_bind; [| eapply ignore_some, unread_some; reflexivity].
    apply Z.eqb_neq in H1, H2. rewrite H1, H2.
    unfold finally, fail. now rewrite skipBlanks_spec.
  - intros r c rest Hp H1. unfold next.
    rewrite (bind_ok _ _ _ _ _ (read_cons _ _ _ Hp)). rewrite Z.eqb_refl.
    unfold parseNode.
    erewrite bind_ok; [| apply read_cons; reflexivity].
    change (bang =? mark) with false. rewrite Z.eqb_refl. cbv iota.
    erewrite finally_bind; [| apply read_any_cons; reflexivity].
    erewrite finally_bind; [| eapply ignore_some, unread_some; reflexivity].
    change (hyphen =? lsquare) with false. rewrite Z.eqb_refl. cbv iota.
    unfold parseComment.
    erewrite finally_bind; [| apply read_any_cons; reflexivity].
    unfold twice. rewrite Z.eqb_refl.
    erewrite finally_bind;
      [| erewrite bind_ok; [| apply peek_cons; reflexivity]; reflexivity].
    apply Z.eqb_neq in H1. rewrite H1. cbn [negb].
    unfold finally, fail. now rewrite skipBlanks_spec.
Qed.

(** ** Decimal references *)

Lemma digits_dec ds :
  Forall (fun d => isDigit d = true) ds ->
  forall acc,
    digits 10 acc ds =
    Some (fold_left (fun acc d => acc * 10 + match digitVal d with Some v => v | None => 0 end)
                    ds acc).
Proof.
  induction 1 as [|d ds Hd _ IH]; intros acc; simpl; [reflexivity|].
  unfold isDigit in Hd. unfold digitVal at 1 3. rewrite Hd.
  replace (d - 48 <? 10) with true by lia. apply IH.
Qed.

Lemma ParseInt_dec d ds :
  Forall (fun d => isDigit d = true) (d :: ds) ->
  ParseInt (d :: ds) 10 32 =
  if numeral 10 (d :: ds) <? 2 ^ 31
  then (numeral 10 (d :: ds), None)
  else (2 ^ 31 - 1, Some (NumError (d :: ds) ErrRange)).
Proof.
  intros H. unfold ParseInt.
  assert ((d =? 43) = false /\ (d =? 45) = false) as (-> & ->).
  { inversion H as [|? ? Hd _]; subst. unfold isDigit in Hd. lia. }
  rewrite (digits_dec _ H 0). fold (numeral 10 (d :: ds)).
  change (2 ^ (32 - 1)) with (2 ^ 31). cbn [negb andb].
  destruct (numeral 10 (d :: ds) <? 2 ^ 31) eqn:E.
  - replace (2 ^ 31 <=? numeral 10 (d :: ds)) with false by lia. reflexivity.
  - replace (2 ^ 31 <=? numeral 10 (d :: ds)) with true by lia. reflexivity.
Qed.

(** X7. [&#], a rune that is not [x], and decimal digits: the rune after
    [#] is read to look for the [x] and is not part of the number, whatever
    it is; the reference is decoded as the code point the digits after it
    write in base 10 when it is below 2^31, and fails with the range error
    of [strconv.ParseInt] otherwise; when no digit follows the rune it
    fails with the syntax error. *)
Theorem decimal_entity_value :
  (forall r c d ds tail,
     c <> 120 ->
     Forall (fun d => isDigit d = true) (d :: ds) ->
     pending (rs r) = pound :: c :: (d :: ds) ++ semicolon :: tail ->
     parseEntity r =
       (if numeral 10 (d :: ds) <? 2 ^ 31
        then Some (Ok (numeral 10 (d :: ds)))
        else Some (Err (NumError (d :: ds) ErrRange)),
        with_rs r (mkBufio tail (Some semicolon)))) /\
  (forall r c tail,
     c <> 120 ->
     pending (rs r) = pound :: c :: semicolon :: tail ->
     parseEntity r =
       (Some (Err (NumError [] ErrSyntax)), with_rs r (mkBufio tail (Some semicolon)))).
Proof.
  split.
  - intros r c d ds tail Hc Hds Hp. apply Z.eqb_neq in Hc.
    rewrite (parseEntity_dec _ _ _ Hp Hc).
    rewrite (parseNumericEntity_digits baseDec isDigit _ (d :: ds) tail);
      [| now apply digits_accepted | reflexivity].
    unfold baseDec. rewrite (ParseInt_dec _ _ Hds).
    now destruct (numeral 10 (d :: ds) <? 2 ^ 31).
  - intros r c tail Hc Hp. apply Z.eqb_neq in Hc.
    rewrite (parseEntity_dec _ _ _ Hp Hc).
    rewrite (parseNumericEntity_digits baseDec isDigit _ [] tail);
      [reflexivity | constructor | reflexivity].
Qed.

(** ** Tags *)

(** A part of a name: a letter, then letters, digits, [-] and [_]. *)
Definition name_part (s : list Z) : Prop :=
  exists c tl, s = c :: tl /\ isLetter c = true /\ Forall (fun x => isName x = true) tl.

(** The names [parseName] gives: a local part, and a prefix or none. *)
Definition well_formed (n : Name) : Prop :=
  name_part (LocalName n) /\ (NS n = [] \/ name_part (NS n)).

(** [parseName] reads back the name [Fqn] writes. *)
Lemma parseName_Fqn r n d rest :
  well_formed n ->
  pending (rs r) = Fqn n ++ d :: rest ->
  isName d = false -> d <> colon ->
  parseName r = (Some (Ok n), with_rs r (mkBufio (d :: rest) None)).
Proof.
  destruct n as [ns loc]. intros ((c & tl & Hl & Hc & Htl) & Hns) Hp Hd Hcol.
  simpl in Hl, Hns. subst loc. unfold Fqn in Hp. simpl in Hp.
  destruct Hns as [-> | (c' & tl' & -> & Hc' & Htl')].
  - now apply parseName_local.
  - simpl in Hp. rewrite <- app_assoc in Hp. simpl in Hp.
    now apply parseName_prefixed.
Qed.

Lemma blank_not_name d : isBlank d = true \/ d = rangle \/ d = slash ->
  isName d = false /\ d <> colon.
Proof.
  unfold isBlank, isSpace, isNL, isName, isLetter, isDigit, space, tab, nl, cr,
    hyphen, underscore, rangle, slash, colon.
  intros H. split; lia.
Qed.

Lemma TrimLeft_blanks blanks d rest :
  Forall (fun c => isBlank c = true) blanks ->
  isBlank d = false ->
  TrimLeft isBlank (blanks ++ d :: rest) = d :: rest.
Proof.
  intros Hb Hd. induction Hb as [|c blanks Hc _ IH]; simpl.
  - now rewrite Hd.
  - now rewrite Hc.
Qed.

Lemma blanks_head blanks d rest :
  Forall (fun c => isBlank c = true) blanks ->
  isBlank d = true \/ d = rangle \/ d = slash ->
  exists d' rest', blanks ++ d :: rest = d' :: rest' /\
                   isName d' = false /\ d' <> colon.
Proof.
  intros Hb Hd. destruct Hb as [|c blanks Hc _]; simpl.
  - exists d, rest. split; [reflexivity | now apply blank_not_name].
  - eexists c, _. split; [reflexivity | apply blank_not_name; now left].
Qed.

(** The methods that dispatch nothing. *)
Definition no_event (r r' : Reader) : Prop :=
  trace r' = trace r /\ world r' = world r /\ listeners r' = listeners r.

Lemma no_event_refl r : no_event r r.
Proof. repeat split. Qed.

Lemma no_event_trans a b c : no_event a b -> no_event b c -> no_event a c.
Proof. unfold no_event. intros (? & ? & ?) (? & ? & ?). repeat split; congruence. Qed.

Lemma no_event_of_only_rs {A} (m : M A) : pres only_rs m -> pres no_event m.
Proof.
  intros H r. destruct (only_rs_fields _ _ (H r)) as (_ & _ & ? & ? & ?).
  repeat split; assumption.
Qed.

Lemma no_event_push n : pres no_event (push n).
Proof. intros r. unfold push. destruct (SelfClosing n); repeat split. Qed.

Lemma no_event_pop n : pres no_event (pop n).
Proof.
  intros r. unfold pop. destruct (Nat.eqb _ 0); [repeat split|].
  destruct (negb _); repeat split.
Qed.

Lemma no_event_close_tail n :
  pres no_event (skipBlanks ;; want rangle ;; pop n ;; ret n).
Proof.
  apply pres_bind; [exact no_event_trans | apply no_event_of_only_rs; auto with cursor |].
  intros _. apply pres_bind; [exact no_event_trans | apply no_event_of_only_rs; auto with cursor |].
  intros _. apply pres_bind; [exact no_event_trans | apply no_event_pop |].
  intros _. apply pres_ret. exact no_event_refl.
Qed.

Lemma emitEnd_round n r x r' :
  silent_on (listeners r) = false ->
  emitEnd n r = (x, r') ->
  stack r' = stack r /\ rs r' = rs r /\ keep r' = keep r /\
  silent_on (listeners r') = silent_on (listeners r) /\
  rounds (trace r') = rounds (trace r) ++ [EvEnd n].
Proof.
  intros Hs H. unfold emitEnd in H. rewrite Hs in H.
  now apply (emit_round (EvEnd n) n (ends (listeners r)) with_ends) in H.
Qed.

Lemma next_close_head r tl :
  pending (rs r) = langle :: slash :: tl ->
  next r =
  finally (n <- parseEndElement ;; pop n ;; ret n) skipBlanks
          (with_rs r (mkBufio tl (Some slash))).
Proof.
  intros Hp. unfold next.
  rewrite (bind_ok _ _ _ _ _ (read_cons _ _ _ Hp)). rewrite Z.eqb_refl.
  unfold parseNode.
  erewrite bind_ok; [| apply read_cons; reflexivity].
  now rewrite with_rs_with_rs.
Qed.

(** X17. A close tag [</name>], with blanks before the [>] or none. The end
    event is dispatched first, whatever the stack holds. When the
    callbacks return no error, the tag is then checked against the stack:
    it is returned as an end-element and popped when its name is the top;
    it fails with an error built around [ErrMalformed] when the top is
    another name, and with the error [stack is empty] when there is none.
    When a callback returns an error, that error is the result and the
    stack is left as it was. On a reader that is not silenced the
    registered end callbacks are called with the name: the trace, the
    world and the list of end callbacks after the scan step are those of
    that round, whatever the stack holds. *)
Theorem close_tag r nm blanks rest :
  well_formed nm ->
  Forall (fun c => isBlank c = true) blanks ->
  pending (rs r) = langle :: slash :: Fqn nm ++ blanks ++ rangle :: rest ->
  let node := mkNode EndElement nm [] [] false in
  let r1 := with_rs r (mkBufio (blanks ++ rangle :: rest) None) in
  (silent_on (listeners r) = false ->
   rounds (trace (snd (next r))) = rounds (trace r) ++ [EvEnd nm]) /\
  (fst (emitEnd nm r1) = Some (Ok None) ->
   (forall below,
      stack r = below ++ [nm] ->
      fst (next r) = Some (Ok node) /\
      stack (snd (next r)) = below /\
      rs (snd (next r)) = mkBufio (TrimLeft isBlank rest) None) /\
   (forall below top,
      stack r = below ++ [top] -> top <> nm ->
      exists e, fst (next r) = Some (Err e) /\ errors_Is e ErrMalformed = true /\
                stack (snd (next r)) = stack r) /\
   (stack r = [] -> fst (next r) = Some (Err (Errorf "stack is empty" [])))) /\
  (forall e,
     fst (emitEnd nm r1) = Some (Ok (Some e)) ->
     fst (next r) = Some (Err e) /\ stack (snd (next r)) = stack r) /\
  (silent_on (listeners r) = false ->
   disp (snd (next r)) = end_round nm (disp r) /\
   fst (emitEnd nm r1) = Some (Ok (round_error nm (ends (listeners r)) (world r)))).
Proof.
  intros Hwf Hb Hp node r1.
  assert (next r =
          finally (check (emitEnd nm) ;; skipBlanks ;; want rangle ;; pop node ;; ret node)
                  skipBlanks r1) as E.
  { rewrite (next_close_head _ _ Hp). unfold finally.
    match goal with
    | |- (let (_, _) := ?a in _) = (let (_, _) := ?b in _) =>
        assert (a = b) as ->; [|reflexivity]
    end.
    unfold parseEndElement. rewrite !bind_assoc.
    destruct (blanks_head blanks rangle rest Hb) as (d' & rest' & Eq & Hd & Hcol);
      [right; now left|].
    erewrite bind_ok;
      [| apply (parseName_Fqn _ nm d' rest' Hwf);
         [simpl; rewrite <- Eq; reflexivity | exact Hd | exact Hcol]].
    rewrite with_rs_with_rs, <- Eq. fold r1.
    rewrite bind_assoc. apply bind_ext. intros _ r2.
    rewrite bind_assoc. apply bind_ext. intros _ r3.
    rewrite bind_assoc. apply bind_ext. intros _ r4.
    now rewrite bind_ret. }
  destruct (emitEnd nm r1) as [x r2] eqn:Ee.
  pose proof (same_input_emitEnd nm r1) as (Hrs & Hst & _ & _).
  rewrite Ee in Hrs, Hst. simpl in Hrs, Hst.
  set (r3 := with_rs r2 (mkBufio rest (Some rangle))).
  assert ((skipBlanks ;; want rangle ;; pop node ;; ret node) r2 =
          (pop node ;; ret node) r3) as Etail.
  { unfold bind at 1. rewrite skipBlanks_spec, Hrs. simpl pending.
    rewrite (TrimLeft_blanks _ _ _ Hb) by reflexivity.
    erewrite bind_ok; [| apply want_ok; reflexivity].
    now rewrite with_rs_with_rs. }
  split; [|split; [|split]].
  - intros Hs. rewrite E. unfold finally.
    match goal with
    | |- context [let (_, _) := ?m r1 in _] =>
        assert (trace (snd (m r1)) = trace r2) as Ht;
          [| destruct (m r1) as [y r5]; simpl in Ht |- *;
             rewrite skipBlanks_spec; simpl; rewrite Ht ]
    end.
    { unfold check. rewrite bind_assoc. unfold bind at 1. rewrite Ee.
      destruct x as [[[e|]|e]|]; try reflexivity.
      rewrite bind_ret. apply (no_event_close_tail node r2). }
    apply emitEnd_round in Ee as (_ & _ & _ & _ & Hr); [exact Hr | exact Hs].
  - simpl. intros ->.
    assert (next r = finally (pop node ;; ret node) skipBlanks r3) as E'.
    { rewrite E. unfold finally, check. rewrite bind_assoc.
      unfold bind at 1. rewrite Ee. rewrite bind_ret. now rewrite Etail. }
    assert (stack r3 = stack r) as Hs3 by (subst r3; simpl; exact Hst).
    repeat split.
    + rewrite E'. unfold finally.
      rewrite (bind_ok _ _ _ tt (with_stack r3 below)); [reflexivity|].
      rewrite (pop_top r3 node below nm) by congruence.
      simpl. now rewrite Name_Equal_refl.
    + rewrite E'. unfold finally.
      rewrite (bind_ok _ _ _ tt (with_stack r3 below)).
      2:{ rewrite (pop_top r3 node below nm) by congruence.
          simpl. now rewrite Name_Equal_refl. }
      simpl. now rewrite skipBlanks_spec.
    + rewrite E'. unfold finally.
      rewrite (bind_ok _ _ _ tt (with_stack r3 below)).
      2:{ rewrite (pop_top r3 node below nm) by congruence.
          simpl. now rewrite Name_Equal_refl. }
      simpl. now rewrite skipBlanks_spec.
    + intros below top Hs Hne.
      destruct (pop_mismatch r3 node below top) as (e & Ep & He); [congruence | |].
      { destruct (Name_Equal top (NodeName node)) eqn:En; [|reflexivity].
        apply Name_Equal_eq in En. now elim Hne. }
      exists e. rewrite E'. unfold finally.
      rewrite (bind_err _ _ _ _ _ Ep). simpl. rewrite skipBlanks_spec. simpl.
      split; [reflexivity|]. split; [exact He | exact Hs3].
    + intros Hs. rewrite E'. unfold finally.
      erewrite bind_err; [reflexivity|].
      unfold pop. rewrite Hs3, Hs. reflexivity.
  - simpl. intros e ->.
    assert (next r = (Some (Err e), snd (skipBlanks r2))) as E'.
    { rewrite E. unfold finally, check. rewrite bind_assoc.
      unfold bind at 1. rewrite Ee. reflexivity. }
    rewrite E'. simpl. rewrite skipBlanks_spec. simpl.
    split; [reflexivity | exact Hst].
  - intros Hs. destruct (emitEnd_run nm r1 x r2 Hs Ee) as (Hd & Hx).
    split; [| simpl; exact Hx].
    rewrite E. unfold finally.
    match goal with
    | |- context [let (_, _) := ?m r1 in _] =>
        assert (disp (snd (m r1)) = disp r2) as Ht;
          [| destruct (m r1) as [y r5]; simpl in Ht |- *;
             rewrite (disp_only_rs _ _ (only_rs_skipBlanks _)), Ht; exact Hd ]
    end.
    unfold check. rewrite bind_assoc. unfold bind at 1. rewrite Ee.
    destruct x as [[[e|]|e]|]; try reflexivity.
    rewrite bind_ret.
    destruct (no_event_close_tail node r2) as (H1 & H2 & H3).
    unfold disp. now rewrite H1, H2, H3.
Qed.

(** ** Open tags and their attributes *)

Lemma emitLoop_calm {A} (a : A) set r :
  calm set -> fst (emitLoop a set r) = Some (Ok (set, None)).
Proof.
  intros Hc. unfold emitLoop.
  match goal with |- context [iterate _ ?b _] => set (body := b) end.
  assert (forall todo done fuel r,
            (forall fn, In fn todo -> forall w, fst (call fn a w) = None) ->
            (List.length todo < fuel)%nat ->
            fst (iterate fuel body (List.length done, done ++ todo) r) =
              Some (Ok (done ++ todo, None))) as L.
  { clear. induction todo as [|fn todo IH]; intros done fuel r Hc Hf;
      (destruct fuel as [|fuel]; [simpl in Hf; lia|]); rewrite iterate_S;
      unfold body at 1; rewrite nth_error_middle; simpl nth_error;
      unfold break, continue.
    - now rewrite bind_ret.
    - rewrite bind_assoc. unfold bind at 1, invoke at 1.
      pose proof (Hc fn (or_introl eq_refl) (world r)) as Hfn.
      destruct (call fn a (world r)) as [out w]. simpl in Hfn. subst out.
      rewrite bind_ret.
      replace (done ++ fn :: todo) with ((done ++ [fn]) ++ todo)
        by (rewrite <- app_assoc; reflexivity).
      replace (S (List.length done)) with (List.length (done ++ [fn]))
        by (rewrite length_app; simpl; lia).
      apply IH; [| simpl in Hf; lia].
      intros fn' Hin. apply Hc. now right. }
  apply (L set [] (S (List.length set)) r); [|lia].
  intros fn Hin w. now apply Hc.
Qed.

(** A round on calm callbacks returns no error and leaves the lists of
    callbacks as they were. *)
Lemma emit_calm {A} ev (a : A) set (setf : Listeners -> list (Listener A) -> Listeners) r :
  calm set ->
  setf (listeners r) set = listeners r ->
  exists r',
    (log (Dispatch ev) ;;
     '(set, err) <- emitLoop a set ;;
     set_listeners (fun l => setf l set) ;;
     ret err) r = (Some (Ok None), r') /\
    rs r' = rs r /\ listeners r' = listeners r.
Proof.
  intros Hc Hset. unfold bind at 1. simpl.
  set (r0 := with_trace r (trace r ++ [Dispatch ev])).
  pose proof (emitLoop_calm a set r0 Hc) as Hfst.
  destruct (emitLoop_round a set r0) as
    (called & rest & outs & err & r1 & E & _ & _ & _ & Hrs & _ & _ & Hls & _).
  rewrite E in Hfst. simpl in Hfst. injection Hfst as Hk ->.
  unfold bind at 1. rewrite E, Hk.
  eexists. split; [reflexivity|]. simpl. split; [exact Hrs|].
  rewrite Hls. exact Hset.
Qed.

Lemma emitBegin_calm n r :
  calm (begins (listeners r)) ->
  exists r', emitBegin n r = (Some (Ok None), r') /\
             rs r' = rs r /\ listeners r' = listeners r.
Proof.
  intros Hc. unfold emitBegin. destruct (silent_on (listeners r)); [eauto|].
  apply (emit_calm (EvBegin n) n _ with_begins r Hc). apply with_begins_same.
Qed.

Lemma emitAttr_calm n s r :
  calm (attrs (listeners r)) ->
  exists r', emitAttr n s r = (Some (Ok None), r') /\
             rs r' = rs r /\ listeners r' = listeners r.
Proof.
  intros Hc. unfold emitAttr. destruct (silent_on (listeners r)); [eauto|].
  apply (emit_calm (EvAttr n s) (n, s) _ with_attrs r Hc). apply with_attrs_same.
Qed.

Lemma emitInst_calm n r :
  calm (insts (listeners r)) ->
  exists r', emitInst n r = (Some (Ok None), r') /\
             rs r' = rs r /\ listeners r' = listeners r.
Proof.
  intros Hc. unfold emitInst. destruct (silent_on (listeners r)); [eauto|].
  apply (emit_calm (EvInst n) n _ with_insts r Hc). apply with_insts_same.
Qed.

(** An attribute as it is written: its name, blanks or none around the
    [=], and its value between two quotes of the same kind, then blanks or
    none. *)
Record AttrText : Type := mkAttrText {
  at_name : Name;
  at_before : list Z;
  at_after : list Z;
  at_quote : Z;
  at_body : list Z;
  at_end : list Z
}.

Definition blanks (s : list Z) : Prop := Forall (fun c => isBlank c = true) s.

Definition spell (a : AttrText) : list Z :=
  Fqn (at_name a) ++ at_before a ++ equal :: at_after a ++
  at_quote a :: at_body a ++ at_quote a :: at_end a.

Definition spelled (a : AttrText) : Prop :=
  well_formed (at_name a) /\ blanks (at_before a) /\ blanks (at_after a) /\
  blanks (at_end a) /\ isQuote (at_quote a) = true /\
  plain (at_quote a) (at_body a).

(** The attribute [parseAttributes] makes of it. *)
Definition attr_of (a : AttrText) : Attr :=
  mkAttr (at_name a) (TrimSpace (written (at_body a))).

Lemma Fqn_head n :
  well_formed n ->
  exists c tl, Fqn n = c :: tl /\ isLetter c = true.
Proof.
  destruct n as [ns loc]. intros ((c & tl & Hl & Hc & _) & Hns). simpl in *.
  subst loc. unfold Fqn. simpl.
  destruct Hns as [-> | (c' & tl' & -> & Hc' & _)].
  - exists c, tl. split; [reflexivity | exact Hc].
  - eexists c', _. split; [reflexivity | exact Hc'].
Qed.

Lemma letter_not_blank c : isLetter c = true -> isBlank c = false.
Proof.
  unfold isLetter, isBlank, isSpace, isNL, space, tab, nl, cr. lia.
Qed.

Lemma quote_not_blank c : isQuote c = true -> isBlank c = false.
Proof.
  unfold isQuote, isBlank, isSpace, isNL, space, tab, nl, cr, dquote, squote. lia.
Qed.

Lemma blanks_then blanks0 d rest :
  blanks blanks0 ->
  isName d = false -> d <> colon ->
  exists d' rest', blanks0 ++ d :: rest = d' :: rest' /\
                   isName d' = false /\ d' <> colon.
Proof.
  intros Hb Hd Hc. destruct Hb as [|c bl Hc' _]; simpl.
  - exists d, rest. auto.
  - eexists c, _. split; [reflexivity | apply blank_not_name; now left].
Qed.

Lemma parseValue_quoted r q body rest :
  isQuote q = true ->
  plain q body ->
  pending (rs r) = q :: body ++ q :: rest ->
  parseValue r =
    (Some (Ok (TrimSpace (written body))), with_rs r (mkBufio rest (Some q))).
Proof.
  intros Hq Hb Hp. unfold parseValue.
  rewrite (bind_ok _ _ _ _ _ (read_cons _ _ _ Hp)). rewrite Hq. cbn [negb].
  unfold forever.
  erewrite bind_ok;
    [| apply (plain_loop q body Hb _ [] _ rest);
       [simpl; rewrite length_app; simpl; lia | reflexivity]].
  reflexivity.
Qed.

(** What one round of the loop of [parseAttributes] does on an
    attribute as it is written. *)
Definition attr_round (st : list Name * Node) : M (list Name * Node + Node) :=
  let '(seen, n) := st in
  c <- read ;;
  if negb (isName c) then break n
  else
    ignore unread ;;
    name <- parseName ;;
    if existsb (Name_Equal name) seen then
      fail (Wrapf "%w: %s duplicated attribute" [Fqn name] ErrMalformed)
    else
      let seen := name :: seen in
      skipBlanks ;;
      want equal ;;
      skipBlanks ;;
      value <- parseValue ;;
      let n := add_attr n (mkAttr name value) in
      check (emitAttr name value) ;;
      skipBlanks ;;
      continue (seen, n).

Lemma parseAttributes_loop n :
  parseAttributes n = (n <- forever attr_round ([], n) ;; unread ;; ret n).
Proof. reflexivity. Qed.

Lemma existsb_Name_Equal_false name seen :
  ~ In name seen -> existsb (Name_Equal name) seen = false.
Proof.
  intros H. destruct (existsb (Name_Equal name) seen) eqn:E; [|reflexivity].
  apply existsb_exists in E as (x & Hin & Hx). apply Name_Equal_eq in Hx.
  subst x. now elim H.
Qed.

Lemma spell_app a tail :
  spell a ++ tail =
  Fqn (at_name a) ++ at_before a ++ equal :: at_after a ++
  at_quote a :: at_body a ++ at_quote a :: at_end a ++ tail.
Proof.
  unfold spell. rewrite <- !app_assoc. cbn [app]. rewrite <- !app_assoc. cbn [app].
  rewrite <- !app_assoc. reflexivity.
Qed.

Lemma TrimLeft_blanks_tail bl tail :
  blanks bl ->
  (forall c tl, tail = c :: tl -> isBlank c = false) ->
  TrimLeft isBlank (bl ++ tail) = tail.
Proof.
  intros Hb Ht. destruct tail as [|c0 tl0].
  - rewrite app_nil_r. induction Hb as [|x l Hx _ IH]; simpl;
      [reflexivity | now rewrite Hx].
  - apply TrimLeft_blanks; [exact Hb | now apply (Ht c0 tl0)].
Qed.

Lemma attr_round_spelled a seen n r tail :
  spelled a ->
  ~ In (at_name a) seen ->
  calm (attrs (listeners r)) ->
  pending (rs r) = spell a ++ tail ->
  (forall c tl, tail = c :: tl -> isBlank c = false) ->
  exists r',
    attr_round (seen, n) r =
      (Some (Ok (inl (at_name a :: seen, add_attr n (attr_of a)))), r') /\
    rs r' = mkBufio tail None /\ listeners r' = listeners r.
Proof.
  intros (Hwf & Hb1 & Hb2 & Hb3 & Hq & Hbody) Hseen Hcalm Hp Htail.
  rewrite spell_app in Hp.
  set (rest3 := at_end a ++ tail) in *.
  set (rest2 := at_after a ++ at_quote a :: at_body a ++ at_quote a :: rest3) in *.
  set (rest1 := at_before a ++ equal :: rest2) in *.
  destruct (Fqn_head _ Hwf) as (c & tl & Hf & Hc).
  unfold attr_round.
  erewrite bind_ok; [| apply (read_cons _ c (tl ++ rest1)); rewrite Hp, Hf; reflexivity].
  rewrite (isLetter_isName _ Hc). cbn [negb].
  erewrite bind_ok; [| eapply ignore_some, unread_some; reflexivity].
  cbn [pending rs with_rs]. rewrite with_rs_with_rs.
  destruct (blanks_then (at_before a) equal rest2 Hb1)
    as (d' & rest' & Eq & Hd & Hcol); [reflexivity | discriminate |].
  fold rest1 in Eq.
  erewrite bind_ok;
    [| apply (parseName_Fqn _ (at_name a) d' rest' Hwf);
       [cbn [pending rs with_rs]; rewrite Hf, <- Eq; reflexivity
       | exact Hd | exact Hcol]].
  rewrite with_rs_with_rs, <- Eq.
  rewrite (existsb_Name_Equal_false _ _ Hseen).
  unfold bind at 1. rewrite skipBlanks_spec. cbn [pending rs with_rs].
  unfold rest1. rewrite (TrimLeft_blanks _ _ _ Hb1) by reflexivity.
  rewrite with_rs_with_rs.
  erewrite bind_ok; [| apply want_ok; reflexivity]. rewrite with_rs_with_rs.
  unfold bind at 1. rewrite skipBlanks_spec. cbn [pending rs with_rs].
  unfold rest2. rewrite (TrimLeft_blanks _ _ _ Hb2) by (now apply quote_not_blank).
  rewrite with_rs_with_rs.
  erewrite bind_ok;
    [| apply (parseValue_quoted _ (at_quote a) (at_body a) rest3 Hq Hbody);
       reflexivity].
  rewrite with_rs_with_rs.
  match goal with
  | |- context [check (emitAttr ?nm ?v)] =>
      destruct (emitAttr_calm nm v
                  (with_rs r (mkBufio rest3 (Some (at_quote a)))) Hcalm)
        as (r1 & Ee & Hrs & Hls)
  end.
  unfold check. rewrite bind_assoc, (bind_ok _ _ _ _ _ Ee), bind_ret.
  unfold bind at 1. rewrite skipBlanks_spec, Hrs. cbn [pending rs with_rs].
  unfold rest3. rewrite (TrimLeft_blanks_tail _ _ Hb3 Htail).
  eexists. split; [reflexivity|]. simpl. split; [reflexivity | exact Hls].
Qed.

Lemma spell_length a : spelled a -> (0 < List.length (spell a))%nat.
Proof.
  intros (Hwf & _). destruct (Fqn_head _ Hwf) as (c & tl & Hf & _).
  unfold spell. rewrite Hf. simpl. lia.
Qed.

Lemma spell_head a tail :
  spelled a -> forall c tl, spell a ++ tail = c :: tl -> isBlank c = false.
Proof.
  intros (Hwf & _) c tl. destruct (Fqn_head _ Hwf) as (c0 & tl0 & Hf & Hc).
  unfold spell. rewrite Hf. simpl. intros [= <- _]. now apply letter_not_blank.
Qed.

(** The loop of [parseAttributes] on attributes of distinct names: every
    attribute is added to the node, in the order of the text. *)
Lemma attr_loop_spelled d rest :
  isName d = false -> isBlank d = false ->
  forall ats seen n r fuel,
    Forall spelled ats ->
    NoDup (map at_name ats) ->
    (forall a, In a ats -> ~ In (at_name a) seen) ->
    calm (attrs (listeners r)) ->
    pending (rs r) = List.concat (map spell ats) ++ d :: rest ->
    (List.length ats < fuel)%nat ->
    exists r',
      iterate fuel attr_round (seen, n) r =
        (Some (Ok (fold_left add_attr (map attr_of ats) n)), r') /\
      rs r' = mkBufio rest (Some d) /\ listeners r' = listeners r.
Proof.
  intros Hd Hbd. induction ats as [|a ats IH];
    intros seen n r fuel Hsp Hnd Hseen Hcalm Hp Hf;
    (destruct fuel as [|fuel]; [simpl in Hf; lia|]); rewrite iterate_S.
  - simpl in Hp. unfold attr_round at 1.
    erewrite bind_ok;
      [| erewrite bind_ok; [| apply read_cons; exact Hp];
         rewrite Hd; reflexivity].
    eexists. split; [reflexivity|]. split; reflexivity.
  - simpl in Hp. rewrite <- app_assoc in Hp.
    inversion Hsp as [|? ? Ha Hsp']; subst. inversion Hnd as [|? ? Hni Hnd']; subst.
    destruct (attr_round_spelled a seen n r
                (List.concat (map spell ats) ++ d :: rest) Ha) as (r1 & E & Hrs & Hls);
      [apply Hseen; now left | exact Hcalm | exact Hp | |].
    { intros c tl. destruct ats as [|a' ats'].
      - simpl. now intros [= <- _].
      - simpl. rewrite <- app_assoc. apply spell_head.
        inversion Hsp' as [|? ? Ha' _]; subst. exact Ha'. }
    rewrite (bind_ok _ _ _ _ _ E).
    destruct (IH (at_name a :: seen) (add_attr n (attr_of a)) r1 fuel Hsp' Hnd')
      as (r2 & E2 & Hrs2 & Hls2).
    + intros a' Hin [Heq | Hin']; [| now apply (Hseen a' (or_intror Hin))].
      apply Hni. rewrite Heq. now apply in_map.
    + now rewrite Hls.
    + now rewrite Hrs.
    + simpl in Hf. lia.
    + exists r2. split; [exact E2|]. split; [exact Hrs2 | congruence].
Qed.

Lemma concat_spell_length ats :
  Forall spelled ats -> (List.length ats <= List.length (List.concat (map spell ats)))%nat.
Proof.
  induction 1 as [|a ats Ha _ IH]; simpl; [lia|].
  rewrite length_app. pose proof (spell_length a Ha). lia.
Qed.

Lemma parseAttributes_spelled ats n r d rest :
  isName d = false -> isBlank d = false ->
  Forall spelled ats ->
  NoDup (map at_name ats) ->
  calm (attrs (listeners r)) ->
  pending (rs r) = List.concat (map spell ats) ++ d :: rest ->
  exists r',
    parseAttributes n r =
      (Some (Ok (fold_left add_attr (map attr_of ats) n)), r') /\
    rs r' = mkBufio (d :: rest) None /\ listeners r' = listeners r.
Proof.
  intros Hd Hbd Hsp Hnd Hcalm Hp. rewrite parseAttributes_loop.
  destruct (attr_loop_spelled d rest Hd Hbd ats [] n r
              (S (List.length (pending (rs r)))) Hsp Hnd) as (r1 & E & Hrs & Hls);
    [ intros a _ [] | exact Hcalm | exact Hp | |].
  { rewrite Hp, length_app. pose proof (concat_spell_length ats Hsp). lia. }
  erewrite bind_ok; [| unfold forever; exact E].
  erewrite bind_ok; [| apply unread_some; rewrite Hrs; reflexivity].
  eexists. split; [reflexivity|]. simpl. rewrite Hrs. split; [reflexivity | exact Hls].
Qed.

Lemma fold_add_attr l n :
  fold_left add_attr l n =
  mkNode (Typ n) (NodeName n) (Attrs n ++ l) (Content n) (SelfClosing n).
Proof.
  revert n. induction l as [|a l IH]; intros n; simpl.
  - rewrite app_nil_r. now destruct n.
  - rewrite IH. simpl. now rewrite <- app_assoc.
Qed.

(** How an open tag ends. *)
Definition closing (selfClosing : bool) : list Z :=
  if selfClosing then [slash; rangle] else [rangle].

(** The text of a tag after its name: blanks, the attributes, and what
    ends the tag. There are blanks after the name when there are
    attributes. *)
Definition tag_tail (b0 : list Z) (ats : list AttrText) (ending : list Z) : list Z :=
  b0 ++ List.concat (map spell ats) ++ ending.

Lemma attrs_head ats d rest :
  Forall spelled ats ->
  isBlank d = false ->
  forall c tl, List.concat (map spell ats) ++ d :: rest = c :: tl -> isBlank c = false.
Proof.
  intros Hsp Hd c tl. destruct Hsp as [|a ats Ha _]; simpl.
  - now intros [= <- _].
  - rewrite <- app_assoc. now apply spell_head.
Qed.

Lemma tag_tail_head b0 ats d rest :
  blanks b0 ->
  ats = [] \/ b0 <> [] ->
  isName d = false -> d <> colon ->
  exists d' rest', tag_tail b0 ats (d :: rest) = d' :: rest' /\
                   isName d' = false /\ d' <> colon.
Proof.
  intros Hb Hne Hd Hc. unfold tag_tail. destruct Hb as [|c bl Hc' _].
  - destruct Hne as [-> | Hne]; [|now elim Hne]. simpl. eauto.
  - simpl. eexists c, _. split; [reflexivity | apply blank_not_name; now left].
Qed.

Lemma parseAttributes_after_name (emit : M (option error)) b0 ats d rest n r :
  blanks b0 ->
  Forall spelled ats ->
  NoDup (map at_name ats) ->
  isName d = false -> isBlank d = false ->
  calm (attrs (listeners r)) ->
  pending (rs r) = tag_tail b0 ats (d :: rest) ->
  (exists r1, emit r = (Some (Ok None), r1) /\ rs r1 = rs r /\ listeners r1 = listeners r) ->
  exists r',
    (check emit ;; skipBlanks ;; parseAttributes n) r =
      (Some (Ok (fold_left add_attr (map attr_of ats) n)), r') /\
    rs r' = mkBufio (d :: rest) None /\ listeners r' = listeners r.
Proof.
  intros Hb Hsp Hnd Hd Hbd Hcalm Hp (r1 & Ee & Hrs & Hls).
  unfold check. rewrite bind_assoc, (bind_ok _ _ _ _ _ Ee), bind_ret.
  unfold bind at 1. rewrite skipBlanks_spec, Hrs, Hp. unfold tag_tail.
  rewrite (TrimLeft_blanks_tail _ _ Hb (attrs_head ats d rest Hsp Hbd)).
  destruct (parseAttributes_spelled ats n
              (with_rs r1 (mkBufio (List.concat (map spell ats) ++ d :: rest) None))
              d rest Hd Hbd Hsp Hnd) as (r2 & E & Hrs2 & Hls2);
    [simpl; now rewrite Hls | reflexivity |].
  exists r2. split; [exact E|]. split; [exact Hrs2|]. simpl in Hls2. congruence.
Qed.

Lemma parseOpenElement_spelled r nm b0 ats sc rest :
  well_formed nm ->
  blanks b0 ->
  ats = [] \/ b0 <> [] ->
  Forall spelled ats ->
  NoDup (map at_name ats) ->
  calm (begins (listeners r)) ->
  calm (attrs (listeners r)) ->
  pending (rs r) = Fqn nm ++ tag_tail b0 ats (closing sc ++ rest) ->
  exists r',
    parseOpenElement r =
      (Some (Ok (mkNode BeginElement nm (map attr_of ats) [] sc)), r') /\
    rs r' = mkBufio rest (Some rangle) /\ listeners r' = listeners r.
Proof.
  intros Hwf Hb Hne Hsp Hnd Hcb Hca Hp.
  set (d := if sc then slash else rangle).
  set (rest0 := if sc then rangle :: rest else rest).
  assert (closing sc ++ rest = d :: rest0) as Hcl by (now destruct sc).
  rewrite Hcl in Hp.
  assert (isName d = false /\ d <> colon /\ isBlank d = false) as (Hd & Hcol & Hbd).
  { destruct sc; repeat split; discriminate. }
  destruct (tag_tail_head b0 ats d rest0 Hb Hne Hd Hcol) as (d' & rest' & Eq & Hd' & Hcol').
  unfold parseOpenElement.
  erewrite bind_ok;
    [| apply (parseName_Fqn _ nm d' rest' Hwf); [now rewrite Hp, Eq | exact Hd' | exact Hcol']].
  rewrite <- Eq.
  destruct (parseAttributes_after_name (emitBegin nm) b0 ats d rest0
              (mkNode BeginElement nm [] [] false)
              (with_rs r (mkBufio (tag_tail b0 ats (d :: rest0)) None))
              Hb Hsp Hnd Hd Hbd Hca eq_refl) as (r2 & E & Hrs & Hls).
  { apply emitBegin_calm. exact Hcb. }
  rewrite <- !bind_assoc. rewrite <- bind_assoc in E.
  rewrite (bind_ok _ _ _ _ _ E). rewrite fold_add_attr. simpl.
  erewrite bind_ok; [| apply read_cons; rewrite Hrs; reflexivity].
  subst d rest0. destruct sc.
  - change (slash =? rangle) with false. change (slash =? slash) with true. cbn [negb].
    erewrite bind_ok; [| apply want_ok; reflexivity].
    eexists. split; [reflexivity|]. simpl. split; [reflexivity | exact Hls].
  - rewrite Z.eqb_refl.
    eexists. split; [reflexivity|]. simpl. split; [reflexivity | exact Hls].
Qed.

Lemma letter_not_tag c :
  isLetter c = true ->
  (c =? mark) = false /\ (c =? bang) = false /\ (c =? slash) = false.
Proof. unfold isLetter, mark, bang, slash. lia. Qed.

Lemma next_open_head r c tl :
  pending (rs r) = langle :: c :: tl ->
  isLetter c = true ->
  next r =
  finally (n <- parseOpenElement ;; push n ;; ret n) skipBlanks
          (with_rs r (mkBufio (c :: tl) None)).
Proof.
  intros Hp Hc. unfold next.
  rewrite (bind_ok _ _ _ _ _ (read_cons _ _ _ Hp)). rewrite Z.eqb_refl.
  unfold parseNode.
  erewrite bind_ok; [| apply read_cons; reflexivity].
  destruct (letter_not_tag _ Hc) as (-> & -> & ->). rewrite Hc.
  erewrite finally_bind; [| eapply ignore_some, unread_some; reflexivity].
  now rewrite !with_rs_with_rs.
Qed.

(** X18. An open tag as it is written: [<], a name, and attributes of
    distinct names, each a name, [=] and a quoted value, with blanks
    between them, then [>] or [/>]. With callbacks that return nil, [next]
    returns a begin-element with that name, the attributes in the order
    of the text with their values trimmed, and the self-closing flag of a
    tag that ends with [/>]; it leaves the cursor after the tag and the
    blanks that follow it; it pushes the name unless the tag is
    self-closing; and it dispatches the begin event and then one event
    for each attribute: the registered begin callbacks are called with
    the name and then, for each attribute in turn, the registered
    attribute callbacks with its name and value. *)
Theorem open_tag r nm b0 ats sc rest :
  well_formed nm ->
  blanks b0 ->
  ats = [] \/ b0 <> [] ->
  Forall spelled ats ->
  NoDup (map at_name ats) ->
  calm (begins (listeners r)) ->
  calm (attrs (listeners r)) ->
  pending (rs r) = langle :: Fqn nm ++ tag_tail b0 ats (closing sc ++ rest) ->
  let node := mkNode BeginElement nm (map attr_of ats) [] sc in
  fst (next r) = Some (Ok node) /\
  rs (snd (next r)) = mkBufio (TrimLeft isBlank rest) None /\
  stack (snd (next r)) = (if sc then stack r else stack r ++ [nm]) /\
  listeners (snd (next r)) = listeners r /\
  (silent_on (listeners r) = false ->
   rounds (trace (snd (next r))) =
     rounds (trace r) ++ EvBegin nm :: map attr_event (map attr_of ats)) /\
  (silent_on (listeners r) = false ->
   disp (snd (next r)) =
     fold_left attribute_round (map attr_of ats) (begin_round nm (disp r))).
Proof.
  intros Hwf Hb Hne Hsp Hnd Hcb Hca Hp node.
  destruct (Fqn_head _ Hwf) as (c & tl & Hf & Hc).
  assert (exists r', next r = (Some (Ok node), r') /\
                     rs r' = mkBufio (TrimLeft isBlank rest) None /\
                     listeners r' = listeners r) as (r' & E & Hrs & Hls).
  { rewrite (next_open_head r c (tl ++ tag_tail b0 ats (closing sc ++ rest)));
      [| rewrite Hp, Hf; reflexivity | exact Hc].
    destruct (parseOpenElement_spelled
                (with_rs r (mkBufio (c :: tl ++ tag_tail b0 ats (closing sc ++ rest)) None))
                nm b0 ats sc rest Hwf Hb Hne Hsp Hnd Hcb Hca)
      as (r1 & E1 & Hrs1 & Hls1); [simpl; now rewrite Hf|].
    erewrite finally_bind; [| exact E1].
    unfold finally, bind, push, ret. fold node.
    destruct (SelfClosing node);
      (eexists; split; [reflexivity|]; rewrite skipBlanks_spec; simpl; rewrite Hrs1;
       split; [reflexivity | exact Hls1]). }
  rewrite E. simpl. repeat split; auto.
  - rewrite (next_begin_stack _ _ _ E eq_refl). reflexivity.
  - intros Hs. destruct (next_begin_rounds _ _ _ Hs E eq_refl) as (_ & Hr). exact Hr.
  - intros Hs. exact (next_begin_disp _ _ _ Hs E eq_refl).
Qed.

(** The loop of [parseAttributes] fails at a name that an earlier
    attribute of the tag has. *)
Lemma attr_loop_repeated dup d rest :
  well_formed dup ->
  isName d = false -> d <> colon ->
  forall ats seen n r fuel,
    Forall spelled ats ->
    NoDup (map at_name ats) ->
    (forall a, In a ats -> ~ In (at_name a) seen) ->
    In dup (map at_name ats) \/ In dup seen ->
    calm (attrs (listeners r)) ->
    pending (rs r) = List.concat (map spell ats) ++ Fqn dup ++ d :: rest ->
    (List.length ats < fuel)%nat ->
    exists r',
      iterate fuel attr_round (seen, n) r =
        (Some (Err (Wrapf "%w: %s duplicated attribute" [Fqn dup] ErrMalformed)), r') /\
      listeners r' = listeners r.
Proof.
  intros Hwf Hd Hcol. destruct (Fqn_head _ Hwf) as (c & tl & Hf & Hc).
  induction ats as [|a ats IH];
    intros seen n r fuel Hsp Hnd Hseen Hin Hcalm Hp Hfuel;
    (destruct fuel as [|fuel]; [simpl in Hfuel; lia|]); rewrite iterate_S.
  - simpl in Hp. destruct Hin as [[] | Hin].
    assert (exists r1,
              attr_round (seen, n) r =
                (Some (Err (Wrapf "%w: %s duplicated attribute" [Fqn dup] ErrMalformed)), r1) /\
              listeners r1 = listeners r) as (r1 & E1 & Hl1);
      [| rewrite (bind_err _ _ _ _ _ E1); eauto].
    unfold attr_round.
    erewrite bind_ok; [| apply (read_cons _ c (tl ++ d :: rest)); rewrite Hp, Hf; reflexivity].
    rewrite (isLetter_isName _ Hc). cbn [negb].
    erewrite bind_ok; [| eapply ignore_some, unread_some; reflexivity].
    cbn [pending rs with_rs]. rewrite with_rs_with_rs.
    erewrite bind_ok;
      [| apply (parseName_Fqn _ dup d rest Hwf);
         [cbn [pending rs with_rs]; now rewrite Hf | exact Hd | exact Hcol]].
    assert (existsb (Name_Equal dup) seen = true) as ->.
    { apply existsb_exists. exists dup. split; [exact Hin | apply Name_Equal_refl]. }
    eexists. split; reflexivity.
  - simpl in Hp. rewrite <- app_assoc in Hp.
    inversion Hsp as [|? ? Ha Hsp']; subst. inversion Hnd as [|? ? Hni Hnd']; subst.
    destruct (attr_round_spelled a seen n r
                (List.concat (map spell ats) ++ Fqn dup ++ d :: rest) Ha)
      as (r1 & E & Hrs & Hls);
      [apply Hseen; now left | exact Hcalm | exact Hp | |].
    { intros c0 tl0. destruct ats as [|a' ats'].
      - simpl. rewrite Hf. simpl. intros [= <- _]. now apply letter_not_blank.
      - simpl. rewrite <- app_assoc. apply spell_head.
        inversion Hsp' as [|? ? Ha' _]; subst. exact Ha'. }
    rewrite (bind_ok _ _ _ _ _ E).
    destruct (IH (at_name a :: seen) (add_attr n (attr_of a)) r1 fuel Hsp' Hnd')
      as (r2 & E2 & Hls2).
    + intros a' Hin' [Heq | Hin'']; [| now apply (Hseen a' (or_intror Hin'))].
      apply Hni. rewrite Heq. now apply in_map.
    + destruct Hin as [[Heq | Hin] | Hin]; [right; now left | now left | right; now right].
    + now rewrite Hls.
    + now rewrite Hrs.
    + simpl in Hfuel. lia.
    + exists r2. split; [exact E2 | congruence].
Qed.

(** X19. A tag in which the name of an attribute is the name of an earlier
    attribute of the tag: with callbacks that return nil, [next] fails
    with an error built around [ErrMalformed] when it has read the second
    name, and leaves the stack as it was. The attributes before it were
    dispatched. *)
Theorem duplicate_attribute r nm b0 ats dup d rest :
  well_formed nm ->
  blanks b0 -> b0 <> [] ->
  Forall spelled ats ->
  NoDup (map at_name ats) ->
  In dup (map at_name ats) ->
  well_formed dup ->
  isName d = false -> d <> colon ->
  calm (begins (listeners r)) ->
  calm (attrs (listeners r)) ->
  pending (rs r) =
    langle :: Fqn nm ++ b0 ++ List.concat (map spell ats) ++ Fqn dup ++ d :: rest ->
  fst (next r) =
    Some (Err (Wrapf "%w: %s duplicated attribute" [Fqn dup] ErrMalformed)) /\
  errors_Is (Wrapf "%w: %s duplicated attribute" [Fqn dup] ErrMalformed) ErrMalformed = true /\
  stack (snd (next r)) = stack r.
Proof.
  intros Hwf Hb Hne Hsp Hnd Hin Hwd Hd Hcol Hcb Hca Hp.
  destruct (Fqn_head _ Hwf) as (c & tl & Hf & Hc).
  destruct (Fqn_head _ Hwd) as (c2 & tl2 & Hf2 & Hc2).
  set (tail := List.concat (map spell ats) ++ Fqn dup ++ d :: rest) in *.
  assert (exists r', next r =
            (Some (Err (Wrapf "%w: %s duplicated attribute" [Fqn dup] ErrMalformed)), r'))
    as (r' & E).
  { rewrite (next_open_head r c (tl ++ b0 ++ tail));
      [| rewrite Hp, Hf; reflexivity | exact Hc].
    unfold finally.
    match goal with
    | |- exists r', (let (_, _) := ?m ?s in _) = _ =>
        assert (exists r1, m s = (Some (Err (Wrapf "%w: %s duplicated attribute"
                                               [Fqn dup] ErrMalformed)), r1))
          as (r1 & ->); [| eexists; reflexivity]
    end.
    assert (exists r1,
              parseOpenElement (with_rs r (mkBufio (c :: tl ++ b0 ++ tail) None)) =
              (Some (Err (Wrapf "%w: %s duplicated attribute" [Fqn dup] ErrMalformed)), r1))
      as (r1 & E1); [| rewrite (bind_err _ _ _ _ _ E1); eauto].
    unfold parseOpenElement.
    destruct b0 as [|b b0']; [now elim Hne|].
    inversion Hb as [|? ? Hbb Hb0']; subst.
    erewrite bind_ok;
      [| apply (parseName_Fqn _ nm b (b0' ++ tail) Hwf);
         [simpl; now rewrite Hf
         | apply blank_not_name; now left | apply blank_not_name; now left]].
    destruct (emitBegin_calm nm
                (with_rs (with_rs r (mkBufio (c :: tl ++ (b :: b0') ++ tail) None))
                         (mkBufio (b :: b0' ++ tail) None)) Hcb)
      as (r2 & Ee & Hrs2 & Hls2).
    unfold check. rewrite bind_assoc, (bind_ok _ _ _ _ _ Ee), bind_ret.
    unfold bind at 1. rewrite skipBlanks_spec, Hrs2. cbn [pending rs with_rs].
    change (b :: b0' ++ tail) with ((b :: b0') ++ tail).
    rewrite (TrimLeft_blanks_tail (b :: b0') tail Hb).
    2:{ unfold tail. destruct ats as [|a' ats']; [now elim Hin|].
        intros c0 tl0. simpl. rewrite <- app_assoc. apply spell_head.
        inversion Hsp; subst; assumption. }
    rewrite parseAttributes_loop.
    destruct (attr_loop_repeated dup d rest Hwd Hd Hcol ats []
                (mkNode BeginElement nm [] [] false)
                (with_rs r2 (mkBufio tail None))
                (S (List.length tail)) Hsp Hnd) as (r3 & E3 & _).
    - intros a _ [].
    - now left.
    - simpl. rewrite Hls2. exact Hca.
    - reflexivity.
    - unfold tail. rewrite length_app. pose proof (concat_spell_length ats Hsp). lia.
    - rewrite bind_assoc. erewrite bind_err; [| unfold forever; exact E3]. eauto. }
  rewrite E. simpl. repeat split.
  exact (next_stack_at _ _ _ E).
Qed.

Lemma next_inst_head r tl :
  pending (rs r) = langle :: mark :: tl ->
  next r = finally parseInstruction skipBlanks (with_rs r (mkBufio tl (Some mark))).
Proof.
  intros Hp. unfold next.
  rewrite (bind_ok _ _ _ _ _ (read_cons _ _ _ Hp)). rewrite Z.eqb_refl.
  unfold parseNode.
  erewrite bind_ok; [| apply read_cons; reflexivity].
  now rewrite with_rs_with_rs.
Qed.

(** X20. A processing instruction as it is written: [<?], a name, attributes
    of distinct names, and [?>]. With callbacks that return nil, [next]
    returns a node of type [ProcInst] with that name, the attributes and
    the self-closing flag; the stack is left as it was; the registered
    instruction callbacks are called with the name and then, for each
    attribute in turn, the registered attribute callbacks with its name
    and value. *)
Theorem instruction_tag r nm b0 ats rest :
  well_formed nm ->
  blanks b0 ->
  ats = [] \/ b0 <> [] ->
  Forall spelled ats ->
  NoDup (map at_name ats) ->
  calm (insts (listeners r)) ->
  calm (attrs (listeners r)) ->
  pending (rs r) =
    langle :: mark :: Fqn nm ++ tag_tail b0 ats (mark :: rangle :: rest) ->
  fst (next r) = Some (Ok (mkNode ProcInst nm (map attr_of ats) [] true)) /\
  rs (snd (next r)) = mkBufio (TrimLeft isBlank rest) None /\
  stack (snd (next r)) = stack r /\
  listeners (snd (next r)) = listeners r /\
  (silent_on (listeners r) = false ->
   disp (snd (next r)) =
     fold_left attribute_round (map attr_of ats) (inst_round nm (disp r))).
Proof.
  intros Hwf Hb Hne Hsp Hnd Hci Hca Hp.
  set (node := mkNode ProcInst nm (map attr_of ats) [] true).
  assert (exists r', next r = (Some (Ok node), r') /\
                     rs r' = mkBufio (TrimLeft isBlank rest) None /\
                     listeners r' = listeners r) as (r' & E & Hrs & Hls).
  { rewrite (next_inst_head _ _ Hp). unfold finally, parseInstruction.
    destruct (tag_tail_head b0 ats mark (rangle :: rest) Hb Hne)
      as (d' & rest' & Eq & Hd' & Hcol'); [reflexivity | discriminate |].
    erewrite bind_ok;
      [| apply (parseName_Fqn _ nm d' rest' Hwf);
         [simpl; now rewrite Eq | exact Hd' | exact Hcol']].
    rewrite with_rs_with_rs, <- Eq.
    destruct (parseAttributes_after_name (emitInst nm) b0 ats mark (rangle :: rest)
                (mkNode ProcInst nm [] [] true)
                (with_rs r (mkBufio (tag_tail b0 ats (mark :: rangle :: rest)) None))
                Hb Hsp Hnd eq_refl eq_refl Hca eq_refl) as (r2 & E2 & Hrs2 & Hls2).
    { apply emitInst_calm. exact Hci. }
    rewrite <- !bind_assoc. rewrite <- bind_assoc in E2.
    rewrite (bind_ok _ _ _ _ _ E2). rewrite fold_add_attr. simpl. fold node.
    erewrite bind_ok; [| apply want_ok; rewrite Hrs2; reflexivity].
    erewrite bind_ok; [| apply want_ok; reflexivity].
    unfold ret. eexists. split; [reflexivity|].
    rewrite skipBlanks_spec. simpl. split; [reflexivity | exact Hls2]. }
  rewrite E. simpl. repeat split; auto.
  - apply (next_stack_at _ _ _ E).
  - intros Hs. exact (next_inst_disp _ _ _ Hs E eq_refl).
Qed.

(** ** Comments *)

(** The body of a comment that ends at the [-->] after it: it holds no
    [&], and every [-] in it is followed, in it, by a rune that is not
    [-]. *)
Fixpoint comment_body (raw : list Z) : bool :=
  match raw with
  | [] => true
  | c :: tl =>
      negb (c =? ampersand) &&
      (if c =? hyphen
       then match tl with
            | [] => false
            | d :: _ => negb (d =? hyphen)
            end
       else true) && comment_body tl
  end.

(** One round of the loop of [parseComment]. *)
Definition comment_round (buf : list Z) : M (list Z + list Z) :=
  c <- read ;;
  found <- twice c hyphen ;;
  x <- (if found then
          ignore read ;;
          c <- read_any ;;
          if c =? rangle then ret None
          else ret (Some (WriteRune (WriteRune buf hyphen) hyphen, c))
        else ret (Some (buf, c))) ;;
  match x with
  | None => break buf
  | Some (buf, c) =>
      c <- decoded c ;;
      continue (WriteRune buf c)
  end.

Lemma parseComment_loop :
  parseComment =
  (c <- read_any ;;
   found <- twice c hyphen ;;
   if negb found then fail (unexpectedChar c)
   else
     ignore read ;;
     skipBlanks ;;
     buf <- forever comment_round [] ;;
     let content := TrimSpace buf in
     check (emitComment content) ;;
     ret (mkNode Comment (mkName [] []) [] content true)).
Proof. reflexivity. Qed.

Lemma twice_no c x r :
  (c =? x) = false -> twice c x r = (Some (Ok false), r).
Proof. intros H. unfold twice. now rewrite H. Qed.

Lemma twice_peek c r d tl :
  pending (rs r) = d :: tl ->
  twice c c r = (Some (Ok (d =? c)), with_rs r (mkBufio (d :: tl) None)).
Proof.
  intros Hp. unfold twice. rewrite Z.eqb_refl.
  now rewrite (bind_ok _ _ _ _ _ (peek_cons _ _ _ Hp)).
Qed.

Lemma comment_round_step buf r c rest :
  pending (rs r) = c :: rest ->
  (c =? ampersand) = false ->
  (c =? hyphen) = false \/ (exists d rest', rest = d :: rest' /\ (d =? hyphen) = false) ->
  exists b,
    comment_round buf r = (Some (Ok (inl (WriteRune buf c))), with_rs r b) /\
    pending b = rest.
Proof.
  intros Hp Ha Hc. unfold comment_round.
  rewrite (bind_ok _ _ _ _ _ (read_cons _ _ _ Hp)).
  destruct (c =? hyphen) eqn:Ec.
  - destruct Hc as [[=] | (d & rest' & -> & Hd)].
    apply Z.eqb_eq in Ec. subst c.
    erewrite bind_ok; [| apply twice_peek; reflexivity].
    rewrite Hd. rewrite bind_ret. unfold decoded. rewrite Ha.
    rewrite bind_ret. rewrite with_rs_with_rs. eexists. split; reflexivity.
  - rewrite (bind_ok _ _ _ _ _ (twice_no _ _ _ Ec)).
    rewrite bind_ret. unfold decoded. rewrite Ha. rewrite bind_ret.
    eexists. split; reflexivity.
Qed.

Lemma comment_round_end buf r tail :
  pending (rs r) = hyphen :: hyphen :: rangle :: tail ->
  comment_round buf r = (Some (Ok (inr buf)), with_rs r (mkBufio tail (Some rangle))).
Proof.
  intros Hp. unfold comment_round.
  rewrite (bind_ok _ _ _ _ _ (read_cons _ _ _ Hp)).
  erewrite bind_ok; [| apply twice_peek; reflexivity].
  rewrite Z.eqb_refl. rewrite !bind_assoc.
  erewrite bind_ok; [| eapply ignore_some, read_cons; reflexivity].
  rewrite !bind_assoc.
  erewrite bind_ok; [| apply read_any_cons; reflexivity].
  rewrite Z.eqb_refl, bind_ret. now rewrite !with_rs_with_rs.
Qed.

Lemma comment_loop_body raw :
  comment_body raw = true ->
  forall fuel buf r tail,
  (List.length raw < fuel)%nat ->
  pending (rs r) = raw ++ hyphen :: hyphen :: rangle :: tail ->
  iterate fuel comment_round buf r =
  (Some (Ok (buf ++ written raw)), with_rs r (mkBufio tail (Some rangle))).
Proof.
  induction raw as [|c raw IH]; intros Hb fuel buf r tail Hf Hp;
    (destruct fuel as [|fuel]; [simpl in Hf; lia|]); rewrite iterate_S.
  - simpl in Hp. rewrite (bind_ok _ _ _ _ _ (comment_round_end _ _ _ Hp)).
    unfold ret, written. simpl. now rewrite app_nil_r.
  - simpl in Hp, Hb. apply andb_true_iff in Hb as (Hc & Hb).
    apply andb_true_iff in Hc as (Ha & Hc). apply negb_true_iff in Ha.
    destruct (comment_round_step buf r c (raw ++ hyphen :: hyphen :: rangle :: tail) Hp Ha)
      as (b & E & Hpb).
    { destruct (c =? hyphen); [right | now left].
      destruct raw as [|d raw]; [discriminate|].
      exists d. eexists. split; [reflexivity|]. now apply negb_true_iff. }
    rewrite (bind_ok _ _ _ _ _ E).
    rewrite (IH Hb fuel (WriteRune buf c) (with_rs r b) tail);
      [| simpl in Hf; lia | exact Hpb].
    unfold WriteRune, written. simpl. rewrite <- app_assoc. simpl.
    now rewrite with_rs_with_rs.
Qed.

Lemma comment_body_blanks raw :
  comment_body raw = true -> comment_body (TrimLeft isBlank raw) = true.
Proof.
  induction raw as [|c raw IH]; [reflexivity|]. intros H. simpl TrimLeft.
  destruct (isBlank c) eqn:E; [|exact H].
  apply IH. simpl in H. now apply andb_true_iff in H.
Qed.

Lemma next_comment_head r rest :
  pending (rs r) = runes "<!--" ++ rest ->
  next r =
  finally
    (buf <- forever comment_round [] ;;
     let content := TrimSpace buf in
     check (emitComment content) ;;
     ret (mkNode Comment (mkName [] []) [] content true))
    skipBlanks
    (with_rs r (mkBufio (TrimLeft isBlank rest) None)).
Proof.
  intros Hp. simpl in Hp. unfold next.
  mstep ltac:(apply read_cons; exact Hp). decide_if. unfold parseNode.
  mstep ltac:(apply read_cons; reflexivity). do 2 decide_if.
  erewrite finally_bind; [| apply read_any_cons; reflexivity].
  erewrite finally_bind; [| eapply ignore_some, unread_some; reflexivity].
  do 2 decide_if. rewrite parseComment_loop.
  erewrite finally_bind; [| apply read_any_cons; reflexivity].
  erewrite finally_bind; [| apply twice_peek; reflexivity].
  decide_if.
  erewrite finally_bind; [| eapply ignore_some, read_cons; reflexivity].
  erewrite finally_bind; [| apply skipBlanks_spec].
  now rewrite !with_rs_with_rs.
Qed.

Lemma emitComment_round s r x r' :
  silent_on (listeners r) = false ->
  emitComment s r = (x, r') ->
  stack r' = stack r /\ rs r' = rs r /\ keep r' = keep r /\
  silent_on (listeners r') = silent_on (listeners r) /\
  rounds (trace r') = rounds (trace r) ++ [EvComment s].
Proof.
  intros Hs H. unfold emitComment in H. rewrite Hs in H.
  now apply (emit_round (EvComment s) s (comments (listeners r)) with_comments) in H.
Qed.

(** X21. A comment whose body holds no [--] and no [&] is read as it is
    written: [next] leaves the cursor after the [-->] and the blanks that
    follow it, dispatches the body, trimmed, as one comment event, and
    returns a node of type [Comment] with that content, or the error of a
    comment callback; the stack is left as it was. On a reader that is
    not silenced the registered comment callbacks are called with the
    trimmed body: the trace, the world and the list of comment callbacks
    after the scan step are those of that round. *)
Theorem comment_token r raw tail :
  comment_body raw = true ->
  pending (rs r) = runes "<!--" ++ raw ++ runes "-->" ++ tail ->
  let content := TrimSpace (written raw) in
  let node := mkNode Comment (mkName [] []) [] content true in
  let r1 := with_rs r (mkBufio tail (Some rangle)) in
  next r = finally (check (emitComment content) ;; ret node) skipBlanks r1 /\
  (fst (emitComment content r1) = Some (Ok None) -> fst (next r) = Some (Ok node)) /\
  (silent_on (listeners r) = false ->
   rounds (trace (snd (next r))) = rounds (trace r) ++ [EvComment content]) /\
  stack (snd (next r)) = stack r /\
  pending (rs (snd (next r))) = TrimLeft isBlank tail /\
  (silent_on (listeners r) = false ->
   disp (snd (next r)) = comment_round_of content (disp r) /\
   fst (next r) =
     match round_error content (comments (listeners r)) (world r) with
     | None => Some (Ok node)
     | Some e => Some (Err e)
     end).
Proof.
  intros Hb Hp content node r1.
  assert (next r = finally (check (emitComment content) ;; ret node) skipBlanks r1) as E.
  { rewrite (next_comment_head _ _ Hp).
    change (raw ++ runes "-->" ++ tail) with (raw ++ hyphen :: hyphen :: rangle :: tail).
    rewrite TrimLeft_app_stop by reflexivity.
    erewrite finally_bind;
      [| unfold forever;
         apply (comment_loop_body _ (comment_body_blanks _ Hb) _ [] _ tail);
         [ simpl; rewrite length_app; simpl; lia | reflexivity ] ].
    cbn [app]. cbv zeta. rewrite TrimSpace_blanks. now rewrite with_rs_with_rs. }
  split; [exact E|].
  assert (snd (next r) = snd (skipBlanks (snd (emitComment content r1)))) as Es.
  { rewrite E. unfold finally.
    rewrite <- (check_ret_state (emitComment content) node r1).
    now destruct ((check (emitComment content) ;; ret node) r1). }
  pose proof (same_input_emitComment content r1) as (Hrs & Hst & _ & _).
  repeat split.
  - intros He. rewrite E. unfold finally, check, bind.
    destruct (emitComment content r1) as [x r2]. simpl in He. subst x. reflexivity.
  - intros Hs. rewrite Es, skipBlanks_spec.
    destruct (emitComment content r1) as [x r2] eqn:Ee. simpl.
    apply emitComment_round in Ee as (_ & _ & _ & _ & Hr); [|exact Hs].
    rewrite Hr. reflexivity.
  - rewrite Es, skipBlanks_spec. simpl. exact Hst.
  - rewrite Es, skipBlanks_spec. simpl. now rewrite Hrs.
  - rewrite Es, (disp_only_rs _ _ (only_rs_skipBlanks _)).
    exact (proj1 (emitComment_run content r1 _ _ H
                    (surjective_pairing (emitComment content r1)))).
  - pose proof (proj2 (emitComment_run content r1 _ _ H
                         (surjective_pairing (emitComment content r1)))) as Hx.
    unfold r1 in Hx. cbn [listeners world with_rs] in Hx. fold r1 in Hx.
    rewrite E. unfold finally, check, bind.
    destruct (emitComment content r1) as [x r2]. simpl in Hx. subst x.
    now destruct (round_error content (comments (listeners r)) (world r)).
Qed.

(** ** Entities in text and in values *)

(** What text and values are made of: a rune that stands for itself, or
    a reference to a named entity. *)
Inductive Piece : Type :=
  | Plain (c : Z)
  | Ref (name : list Z) (x : Z).

Definition piece_text (p : Piece) : list Z :=
  match p with
  | Plain c => [c]
  | Ref name _ => ampersand :: name ++ [semicolon]
  end.

(** The rune written for a piece. *)
Definition piece_rune (p : Piece) : Z :=
  match p with
  | Plain c => if ValidRune c then c else RuneError
  | Ref _ x => x
  end.

Definition piece_ok (stop : Z) (p : Piece) : Prop :=
  match p with
  | Plain c => c <> stop /\ c <> ampersand
  | Ref name x => In (name, x) entity_table
  end.

Definition pieces_text (ps : list Piece) : list Z := List.concat (map piece_text ps).

Lemma entity_table_ok name x :
  In (name, x) entity_table ->
  Forall (fun c => isLetter c = true) name /\ entities name = Some x /\
  ValidRune x = true.
Proof.
  unfold entity_table. simpl. intros Hin.
  repeat (destruct Hin as [[= <- <-] | Hin];
          [split; [repeat constructor | split; reflexivity]|]).
  contradiction.
Qed.

Lemma pieces_loop stop ps :
  stop <> ampersand ->
  Forall (piece_ok stop) ps ->
  forall fuel buf r rest,
  (List.length (pieces_text ps) < fuel)%nat ->
  pending (rs r) = pieces_text ps ++ stop :: rest ->
  iterate fuel
    (fun buf => c <- read ;;
                if c =? stop then break buf
                else c <- decoded c ;; continue (WriteRune buf c)) buf r =
  (Some (Ok (buf ++ map piece_rune ps)), with_rs r (mkBufio rest (Some stop))).
Proof.
  intros Hstop. induction 1 as [|p ps Hp _ IH]; intros fuel buf r rest Hf Hpend;
    (destruct fuel as [|fuel]; [simpl in Hf; lia|]); rewrite iterate_S.
  - simpl in Hpend. rewrite bind_assoc, (bind_ok _ _ _ _ _ (read_cons _ _ _ Hpend)).
    rewrite Z.eqb_refl. unfold break. rewrite bind_ret. unfold ret. simpl.
    now rewrite app_nil_r.
  - unfold pieces_text in Hpend, Hf. simpl in Hpend, Hf.
    rewrite <- app_assoc in Hpend. rewrite length_app in Hf.
    fold (pieces_text ps) in Hpend, Hf.
    destruct p as [c | name x]; simpl in Hp, Hpend, Hf.
    + destruct Hp as (Hs & Ha). apply Z.eqb_neq in Hs, Ha.
      rewrite bind_assoc, (bind_ok _ _ _ _ _ (read_cons _ _ _ Hpend)).
      rewrite Hs. unfold decoded. rewrite Ha.
      rewrite bind_assoc, bind_ret. unfold continue. rewrite bind_ret.
      rewrite (IH fuel (WriteRune buf c) _ rest); [| lia | reflexivity].
      unfold WriteRune. simpl. rewrite <- app_assoc. simpl.
      now rewrite with_rs_with_rs.
    + destruct (entity_table_ok _ _ Hp) as (Hl & He & Hv).
      rewrite bind_assoc, (bind_ok _ _ _ _ _ (read_cons _ _ _ Hpend)).
      replace (ampersand =? stop) with false
        by (symmetry; apply Z.eqb_neq; congruence).
      unfold decoded. rewrite Z.eqb_refl. rewrite bind_assoc.
      erewrite bind_ok;
        [| rewrite (parseEntity_named _ name (pieces_text ps ++ stop :: rest));
           [ rewrite He; reflexivity
           | simpl; rewrite <- app_assoc; reflexivity
           | exact Hl ] ].
      unfold continue. rewrite bind_ret.
      rewrite (IH fuel (WriteRune buf x) _ rest);
        [| rewrite length_app in Hf; simpl in Hf; lia | reflexivity].
      unfold WriteRune. rewrite Hv, <- app_assoc. simpl.
      now rewrite !with_rs_with_rs.
Qed.

(** X15. A reference to a named entity in an attribute value or in text
    stands for one rune: the value is the runes of its pieces, trimmed,
    and a quote or a [<] written as a reference does not end it. *)
Theorem entities_in_text :
  (forall r q ps rest,
     isQuote q = true ->
     Forall (piece_ok q) ps ->
     pending (rs r) = q :: pieces_text ps ++ q :: rest ->
     parseValue r =
       (Some (Ok (TrimSpace (map piece_rune ps))),
        with_rs r (mkBufio rest (Some q)))) /\
  (forall r ps rest,
     ps <> [] ->
     Forall (piece_ok langle) ps ->
     pending (rs r) = pieces_text ps ++ langle :: rest ->
     let content := TrimSpace (map piece_rune ps) in
     let node := mkNode Text (mkName [] []) [] content false in
     next r = (check (emitText content) ;; unread ;; ret node)
                (with_rs r (mkBufio rest (Some langle)))).
Proof.
  split.
  - intros r q ps rest Hq Hps Hp. unfold parseValue.
    rewrite (bind_ok _ _ _ _ _ (read_cons _ _ _ Hp)). rewrite Hq. cbn [negb].
    unfold forever.
    erewrite bind_ok;
      [| apply (pieces_loop q ps) with (buf := []) (rest := rest);
         [ unfold isQuote, dquote, squote, ampersand in *; lia
         | exact Hps
         | simpl; rewrite length_app; simpl; lia
         | reflexivity ] ].
    now rewrite with_rs_with_rs.
  - intros r ps rest Hne Hps Hp content node.
    assert (exists c tl, pieces_text ps = c :: tl /\ c <> langle) as (c & tl & Hc & Hcl).
    { destruct ps as [|p ps]; [now elim Hne|].
      inversion Hps as [|? ? Hp0 _]; subst. unfold pieces_text. simpl.
      destruct p as [c0 | name x]; simpl.
      - exists c0. eexists. split; [reflexivity | apply Hp0].
      - exists ampersand. eexists. split; [reflexivity | discriminate]. }
    rewrite (next_text_head _ c (tl ++ langle :: rest)); [| now rewrite Hp, Hc | exact Hcl].
    unfold parseText, forever.
    erewrite bind_ok;
      [| apply (pieces_loop langle ps) with (buf := []) (rest := rest);
         [ discriminate
         | exact Hps
         | cbn [pending rs with_rs]; rewrite app_comm_cons, <- Hc, length_app; simpl; lia
         | cbn [pending rs with_rs]; rewrite app_comm_cons, <- Hc; reflexivity ] ].
    now rewrite with_rs_with_rs.
Qed.

(** ** Registration *)

(** The calls of [set], in turn, each returning nil. *)
Definition quiet_calls {A} (set : list (Listener A)) : list Entry :=
  map (fun fn => Fired (tag fn) None) set.

Lemma emitLoop_calm_trace {A} (a : A) set r :
  calm set ->
  exists r',
    emitLoop a set r = (Some (Ok (set, None)), r') /\
    trace r' = trace r ++ quiet_calls set /\ listeners r' = listeners r.
Proof.
  intros Hc. unfold emitLoop.
  match goal with |- context [iterate _ ?b _] => set (body := b) end.
  assert (forall todo done fuel r,
            (forall fn, In fn todo -> forall w, fst (call fn a w) = None) ->
            (List.length todo < fuel)%nat ->
            exists r',
              iterate fuel body (List.length done, done ++ todo) r =
                (Some (Ok (done ++ todo, None)), r') /\
              trace r' = trace r ++ quiet_calls todo /\
              listeners r' = listeners r) as L.
  { clear. induction todo as [|fn todo IH]; intros done fuel r Hc Hf;
      (destruct fuel as [|fuel]; [simpl in Hf; lia|]); rewrite iterate_S;
      unfold body at 1; rewrite nth_error_middle; simpl nth_error;
      unfold break, continue.
    - rewrite bind_ret. exists r. split; [reflexivity|]. split; [|reflexivity].
      simpl. now rewrite app_nil_r.
    - rewrite bind_assoc. unfold bind at 1, invoke at 1.
      pose proof (Hc fn (or_introl eq_refl) (world r)) as Hfn.
      destruct (call fn a (world r)) as [out w]. simpl in Hfn. subst out.
      rewrite bind_ret.
      replace (done ++ fn :: todo) with ((done ++ [fn]) ++ todo)
        by (rewrite <- app_assoc; reflexivity).
      replace (S (List.length done)) with (List.length (done ++ [fn]))
        by (rewrite length_app; simpl; lia).
      destruct (IH (done ++ [fn]) fuel
                  (with_trace (with_world r w) (trace r ++ [Fired (tag fn) None])))
        as (r' & E & Ht & Hl).
      + intros fn' Hin. apply Hc. now right.
      + simpl in Hf. lia.
      + exists r'. split; [exact E|]. split; [|exact Hl].
        rewrite Ht. simpl. now rewrite <- app_assoc. }
  apply (L set [] (S (List.length set)) r); [|lia].
  intros fn Hin w. now apply Hc.
Qed.

Lemma emit_calm_trace {A} ev (a : A) set
      (setf : Listeners -> list (Listener A) -> Listeners) r :
  calm set ->
  exists r',
    (log (Dispatch ev) ;;
     '(set, err) <- emitLoop a set ;;
     set_listeners (fun l => setf l set) ;;
     ret err) r = (Some (Ok None), r') /\
    trace r' = trace r ++ Dispatch ev :: quiet_calls set.
Proof.
  intros Hc. unfold bind at 1. simpl.
  destruct (emitLoop_calm_trace a set (with_trace r (trace r ++ [Dispatch ev])) Hc)
    as (r1 & E & Ht & _).
  unfold bind at 1. rewrite E. eexists. split; [reflexivity|].
  simpl. rewrite Ht. simpl. now rewrite <- app_assoc.
Qed.

Lemma calm_app {A} (set : list (Listener A)) fn :
  calm set -> calm [fn] -> calm (set ++ [fn]).
Proof.
  intros H1 H2 f a w Hin. apply in_app_or in Hin as [Hin | Hin]; auto.
Qed.

Ltac registered lem :=
  let r := fresh "r" in
  let Hs := fresh "Hs" in
  let Hc := fresh "Hc" in
  let Hf := fresh "Hf" in
  intros r ? fn Hs Hc Hf;
  cbv beta delta [emitBegin emitEnd emitInst emitText emitComment emitAttr
                  OnBeginElement OnEndElement OnInstruction OnText OnComment OnAttribute];
  cbn [listeners with_listeners silent_on with_begins with_ends with_insts with_texts
       with_comments with_attrs begins ends insts texts comments attrs];
  rewrite Hs;
  let r' := fresh "r'" in
  let E := fresh "E" in
  let Ht := fresh "Ht" in
  edestruct lem as (r' & E & Ht); [| exists r'; split; [exact E | exact Ht]];
  now apply calm_app.

(** X22. A callback is called after the callbacks registered before it in
    its category: the round of an event on a reader to which [fn] was
    added calls the callbacks that were there, in their order, and then
    [fn], when they all return nil. *)
Theorem registration_order :
  (forall r n fn,
     silent_on (listeners r) = false -> calm (begins (listeners r)) -> calm [fn] ->
     exists r',
       emitBegin n (OnBeginElement fn r) = (Some (Ok None), r') /\
       trace r' = trace r ++ Dispatch (EvBegin n)
                    :: quiet_calls (begins (listeners r) ++ [fn])) /\
  (forall r n fn,
     silent_on (listeners r) = false -> calm (ends (listeners r)) -> calm [fn] ->
     exists r',
       emitEnd n (OnEndElement fn r) = (Some (Ok None), r') /\
       trace r' = trace r ++ Dispatch (EvEnd n)
                    :: quiet_calls (ends (listeners r) ++ [fn])) /\
  (forall r n fn,
     silent_on (listeners r) = false -> calm (insts (listeners r)) -> calm [fn] ->
     exists r',
       emitInst n (OnInstruction fn r) = (Some (Ok None), r') /\
       trace r' = trace r ++ Dispatch (EvInst n)
                    :: quiet_calls (insts (listeners r) ++ [fn])) /\
  (forall r s fn,
     silent_on (listeners r) = false -> calm (texts (listeners r)) -> calm [fn] ->
     exists r',
       emitText s (OnText fn r) = (Some (Ok None), r') /\
       trace r' = trace r ++ Dispatch (EvText s)
                    :: quiet_calls (texts (listeners r) ++ [fn])) /\
  (forall r s fn,
     silent_on (listeners r) = false -> calm (comments (listeners r)) -> calm [fn] ->
     exists r',
       emitComment s (OnComment fn r) = (Some (Ok None), r') /\
       trace r' = trace r ++ Dispatch (EvComment s)
                    :: quiet_calls (comments (listeners r) ++ [fn])) /\
  (forall r ns fn,
     silent_on (listeners r) = false -> calm (attrs (listeners r)) -> calm [fn] ->
     exists r',
       emitAttr (fst ns) (snd ns) (OnAttribute fn r) = (Some (Ok None), r') /\
       trace r' = trace r ++ Dispatch (EvAttr (fst ns) (snd ns))
                    :: quiet_calls (attrs (listeners r) ++ [fn])).
Proof.
  repeat split.
  - registered (emit_calm_trace (A := Name)).
  - registered (emit_calm_trace (A := Name)).
  - registered (emit_calm_trace (A := Name)).
  - registered (emit_calm_trace (A := list Z)).
  - registered (emit_calm_trace (A := list Z)).
  - registered (emit_calm_trace (A := Name * list Z)).
Qed.

(** ** Where a subtree skip ends *)

(** X23. A subtree skip that ends leaves the depth it found: the depth
    with the skipped element open. When the element is a begin-element
    that is not self-closing, the skip ended after a scan step that gave
    a token with the name of the element and left that depth; the close
    tag that brings the depth back to the depth before the element does
    not end it. *)
Theorem skip_ends_at_recorded_depth n r r' :
  skipSubtree n r = (Some (Ok tt), r') ->
  Depth r' = Depth r /\
  (Typ n = BeginElement -> SelfClosing n = false ->
   exists r0 c r1,
     next r0 = (Some (Ok c), r1) /\
     NodeName c = NodeName n /\
     Depth r1 = Depth r /\
     stack r' = stack r1).
Proof.
  unfold skipSubtree.
  destruct (negb (NodeType_eqb (Typ n) BeginElement) || SelfClosing n) eqn:Ec.
  { intros [= <-]. split; [reflexivity|]. intros Ht Hs. rewrite Ht, Hs in Ec. discriminate. }
  intros H. bind_step H u r1 Hs. injection Hs as _ <-.
  apply finally_inv in H as (r2 & H & ->).
  bind_step H depth r3 Hg. injection Hg as <- <-.
  match type of H with
  | forever ?b ?s _ = _ =>
      apply (forever_inv b (fun _ _ => True)
               (fun _ s1 =>
                  Depth s1 = Depth r /\
                  exists s0 c, next s0 = (Some (Ok c), s1) /\ NodeName c = NodeName n))
        in H; [| | exact I]
  end.
  - destruct H as (Hd & r0 & c & Hn & Hc). split; [exact Hd|].
    intros _ _. exists r0, c, r2. repeat split; assumption.
  - clear. intros [] r0 x r0' _ H.
    bind_step H c r1 Hn. bind_step H d r2 Hg. injection Hg as <- <-.
    destruct (Nat.eqb (Depth r1) _ && Name_Equal (NodeName n) (NodeName c)) eqn:E;
      injection H as <- <-; [|exact I].
    apply andb_true_iff in E as (Ed & En).
    apply Nat.eqb_eq in Ed. apply Name_Equal_eq in En.
    split; [exact Ed|]. exists r0, c. split; [exact Hn | now symmetry].
Qed.

End Sax.

Arguments mkListener {W A}.
Arguments tag {W A}.
Arguments call {W A}.

(** ** Runs on documents *)

(** The filter that answers [ErrIgnore] to the begin-element [a]. *)
Definition ignore_a : KeepFunc unit :=
  fun t n w =>
    if NodeType_eqb t BeginElement && Name_Equal n (mkName [] (runes "a"))
    then (Some ErrIgnore, w)
    else (None, w).

(** A callback that records nothing and returns nil. *)
Definition quiet {A} (tag : nat) : Listener unit A :=
  mkListener tag (fun _ w => (None, w)).

(** A reader of [doc] with a callback registered in four categories. *)
Definition observed (doc : string) (keep : option (KeepFunc unit)) : Reader unit :=
  OnAttribute unit (quiet 4)
    (OnText unit (quiet 3)
       (OnEndElement unit (quiet 2)
          (OnBeginElement unit (quiet 1) (New unit (runes doc) keep tt)))).

Definition element (name : string) (selfClosing : bool) : Node :=
  mkNode BeginElement (mkName [] (runes name)) [] [] selfClosing.

(** C2. [&#x21;] is decoded as the code point 33, and [&#33;] as the code
    point 3: [parseEntity] reads the rune after [#] to look for an [x]
    and does not give it back, so the first decimal digit is lost. The
    text [&#33;&#x21;] before a tag has the content [3; 33]. *)
Theorem decimal_entity_loses_first_digit :
  fst (parseEntity unit (New unit (runes "#x21;") None tt)) = Some (Ok 33) /\
  fst (parseEntity unit (New unit (runes "#33;") None tt)) = Some (Ok 3) /\
  fst (next unit (New unit (runes "&#33;&#x21;<a/>") None tt)) =
    Some (Ok (mkNode Text (mkName [] []) [] [3; 33] false)).
Proof. repeat split; vm_compute; reflexivity. Qed.

(** C3. A close tag that finds the stack empty fails with the error
    [stack is empty], which is not built around [ErrMalformed]. *)
Theorem close_tag_on_empty_stack :
  fst (next unit (New unit (runes "</a>") None tt)) =
    Some (Err (Errorf "stack is empty" [])) /\
  errors_Is (Errorf "stack is empty" []) ErrMalformed = false /\
  fst (Run unit (New unit (runes "<a></a></a>") None tt)) =
    Some (Ok (Some (Errorf "stack is empty" []))).
Proof. repeat split; vm_compute; reflexivity. Qed.

(** C1. [skipSubtree] records the depth after the skipped element was
    pushed, and compares it with the depth after each later token. In
    [<a><b>t</b></a><c/>] the skip of [a] starts at depth 1; the close tag
    of [a] brings the depth back to 0, which is not the recorded depth, so
    the skip goes on to the end of the input and fails there. In
    [<a><a/><b>t</b></a>] the skip of the outer [a] ends at [<a/>], a
    begin-element that leaves the depth at 1, with the open tag of [b]
    still to be read. *)
Theorem skip_misses_matching_close :
  (let r := snd (next unit (observed "<a><b>t</b></a><c/>" (Some ignore_a))) in
   Depth unit r = 1%nat /\
   fst (skipSubtree unit (element "a" false) r) = Some (Err io_EOF) /\
   pending (rs unit (snd (skipSubtree unit (element "a" false) r))) = []) /\
  (let r := snd (next unit (observed "<a><a/><b>t</b></a>" (Some ignore_a))) in
   Depth unit r = 1%nat /\
   fst (skipSubtree unit (element "a" false) r) = Some (Ok tt) /\
   pending (rs unit (snd (skipSubtree unit (element "a" false) r))) =
     runes "<b>t</b></a>" /\
   Depth unit (snd (skipSubtree unit (element "a" false) r)) = 1%nat).
Proof. repeat split; vm_compute; reflexivity. Qed.

(** C5. With the filter that ignores [a], reading [<a><a/><b x='1'>t</b></a>]
    to its end dispatches the begin-element, attribute, text and
    end-element events of [b], a child of [a], to the callbacks; and the
    first [Read] of [<a><b>t</b></a><c/>] returns the end of the input: the
    sibling [c] is read inside the skip and is never returned. *)
Theorem skip_dispatches_descendants :
  (let r := snd (Run unit (observed "<a><a/><b x='1'>t</b></a>" (Some ignore_a))) in
   trace unit r =
     [Dispatch (EvBegin (mkName [] (runes "a"))); Fired 1 None;
      Dispatch (EvBegin (mkName [] (runes "b"))); Fired 1 None;
      Dispatch (EvAttr (mkName [] (runes "x")) (runes "1")); Fired 4 None;
      Dispatch (EvText (runes "t")); Fired 3 None;
      Dispatch (EvEnd (mkName [] (runes "b"))); Fired 2 None;
      Dispatch (EvEnd (mkName [] (runes "a"))); Fired 2 None]) /\
  (let x := Read unit (observed "<a><b>t</b></a><c/>" (Some ignore_a)) in
   fst x = Some (Ok (None, Some io_EOF)) /\
   pending (rs unit (snd x)) = [] /\
   trace unit (snd x) = [Dispatch (EvBegin (mkName [] (runes "a"))); Fired 1 None]).
Proof. repeat split; vm_compute; reflexivity. Qed.

(** [&foo;] fails with the malformed-document error; [&a1;], [&#xZ;] and
    [&#3a;] fail with the unexpected-character error. *)
Lemma entity_errors_witness :
  (exists e r', parseEntity unit (New unit (runes "foo;") None tt) = (Some (Err e), r') /\
                errors_Is e ErrMalformed = true) /\
  (exists e r', parseEntity unit (New unit (runes "a1;") None tt) = (Some (Err e), r') /\
                errors_Is e ErrChar = true /\ errors_Is e ErrMalformed = false) /\
  (exists e r', parseEntity unit (New unit (runes "#xZ;") None tt) = (Some (Err e), r') /\
                errors_Is e ErrChar = true /\ errors_Is e ErrMalformed = false) /\
  (exists e r', parseEntity unit (New unit (runes "#3a;") None tt) = (Some (Err e), r') /\
                errors_Is e ErrChar = true /\ errors_Is e ErrMalformed = false).
Proof.
  destruct (entity_errors unit) as (H1 & H2 & H3 & H4).
  repeat split.
  - apply H1 with (name := runes "foo") (tail := []).
    + repeat constructor.
    + vm_compute. intros H. repeat (destruct H as [H|H]; [discriminate|]). exact H.
    + reflexivity.
  - apply H2 with (name := runes "a") (c := 49) (tail := runes ";").
    + repeat constructor.
    + reflexivity.
    + discriminate.
    + discriminate.
    + reflexivity.
  - apply H3 with (ds := []) (c := 90) (tail := runes ";").
    + constructor.
    + reflexivity.
    + discriminate.
    + reflexivity.
  - apply H4 with (d := 51) (ds := []) (c := 97) (tail := runes ";").
    + reflexivity.
    + constructor.
    + reflexivity.
    + discriminate.
    + reflexivity.
Defined.

(** C4 as stated fails at [&#xZ;]: the error is not built around
    [ErrMalformed]. *)
Lemma bad_hex_digit_is_not_malformed :
  ~ (exists e r',
       parseEntity unit (New unit (runes "#xZ;") None tt) = (Some (Err e), r') /\
       errors_Is e ErrMalformed = true).
Proof.
  intros (e & r' & H & He). vm_compute in H.
  injection H as <- _. discriminate He.
Qed.

(** The filters that answer [ErrIgnore] and [ErrSkip] to every token. *)
Definition ignore_all : KeepFunc unit := fun _ _ w => (Some ErrIgnore, w).
Definition skip_all : KeepFunc unit := fun _ _ w => (Some ErrSkip, w).

(** [Read] on [<a><b/></a>] returns [a] at depth 1, one more than before
    the scan step; on [<b/>] it returns [b] at depth 0. *)
Lemma begin_element_depth_witness :
  (exists r0,
     fst (next unit r0) = Some (Ok (element "a" false)) /\
     snd (Read unit (New unit (runes "<a><b/></a>") None tt)) =
       with_world unit (snd (next unit r0))
         (world unit (snd (Read unit (New unit (runes "<a><b/></a>") None tt)))) /\
     Depth unit (snd (Read unit (New unit (runes "<a><b/></a>") None tt))) =
       (Depth unit r0 + 1)%nat) /\
  (exists r0,
     fst (next unit r0) = Some (Ok (element "b" true)) /\
     snd (Read unit (New unit (runes "<b/>") None tt)) =
       with_world unit (snd (next unit r0))
         (world unit (snd (Read unit (New unit (runes "<b/>") None tt)))) /\
     Depth unit (snd (Read unit (New unit (runes "<b/>") None tt))) =
       (Depth unit r0 + 0)%nat).
Proof.
  split.
  - apply (begin_element_depth unit (New unit (runes "<a><b/></a>") None tt)
             (element "a" false) None).
    + vm_compute. reflexivity.
    + reflexivity.
  - apply (begin_element_depth unit (New unit (runes "<b/>") None tt)
             (element "b" true) None).
    + vm_compute. reflexivity.
    + reflexivity.
Defined.

(** Callbacks that write what they are given to the world: the world
    is the list of the events the callbacks have received. *)
Definition hears_begin (t : nat) : Listener (list Event) Name :=
  mkListener t (fun n w => (None, w ++ [EvBegin n])).

Definition hears_end (t : nat) : Listener (list Event) Name :=
  mkListener t (fun n w => (None, w ++ [EvEnd n])).

Definition hears_text (t : nat) : Listener (list Event) (list Z) :=
  mkListener t (fun s w => (None, w ++ [EvText s])).

Definition hears_comment (t : nat) : Listener (list Event) (list Z) :=
  mkListener t (fun s w => (None, w ++ [EvComment s])).

Definition hears_attr (t : nat) : Listener (list Event) (Name * list Z) :=
  mkListener t (fun a w => (None, w ++ [EvAttr (fst a) (snd a)])).

(** A reader of [doc] with such a callback registered in five
    categories. *)
Definition listening (doc : string) (keep : option (KeepFunc (list Event)))
  : Reader (list Event) :=
  OnComment (list Event) (hears_comment 5)
    (OnAttribute (list Event) (hears_attr 4)
       (OnText (list Event) (hears_text 3)
          (OnEndElement (list Event) (hears_end 2)
             (OnBeginElement (list Event) (hears_begin 1)
                (New (list Event) (runes doc) keep []))))).

(** The callbacks that write to the world return nil. *)
Lemma calm_hears {A : Type} (fn : Listener (list Event) A) :
  (forall a w, fst (call fn a w) = None) -> calm (list Event) [fn].
Proof. intros H f a w [<- | []]. apply H. Qed.

(** The section of the specification: [<x>hi</x>] is one text event,
    which the text callback receives and the comment callback does
    not. *)
Lemma cdata_section_witness :
  (let r := listening "<![CDATA[ <x>hi</x> ]]>  <c/>" None in
   fst (next (list Event) r) =
     Some (Ok (mkNode CData (mkName [] (runes "CDATA")) [] (runes "<x>hi</x>") true)) /\
   world (list Event) (snd (next (list Event) r)) = [EvText (runes "<x>hi</x>")] /\
   trace (list Event) (snd (next (list Event) r)) =
     [Dispatch (EvText (runes "<x>hi</x>")); Fired 3 None] /\
   rounds (trace (list Event) (snd (next (list Event) r))) =
     [EvText (runes "<x>hi</x>")] /\
   stack (list Event) (snd (next (list Event) r)) = [] /\
   pending (rs (list Event) (snd (next (list Event) r))) = runes "<c/>") /\
  (exists e r',
     next (list Event) (listening "<![CDATA[a]]b]]>" None) = (Some (Err e), r') /\
     errors_Is e ErrMalformed = true /\ trace (list Event) r' = [] /\
     stack (list Event) r' = []).
Proof.
  destruct (cdata_section (list Event)) as (H1 & H2). split.
  - intros r.
    destruct (H1 r (runes " <x>hi</x> ") (runes "  <c/>") eq_refl eq_refl)
      as (_ & _ & Hr & Hs & Hp & _ & Hc).
    destruct (Hc eq_refl) as (Hn & Ht & Hw & _);
      [apply calm_hears; reflexivity|].
    split; [exact Hn|].
    split; [exact Hw|].
    split; [exact Ht|].
    split; [apply Hr; reflexivity|].
    split; [exact Hs | exact Hp].
  - apply (H2 (listening "<![CDATA[a]]b]]>" None) (runes "a") (runes "b]]>")).
    + reflexivity.
    + intros tail. discriminate.
    + reflexivity.
Defined.

(** The filter that answers [ErrIgnore] to the begin-element [a], for
    the callbacks that write to the world. *)
Definition ignoring_a : KeepFunc (list Event) :=
  fun t n w =>
    if NodeType_eqb t BeginElement && Name_Equal n (mkName [] (runes "a"))
    then (Some ErrIgnore, w)
    else (None, w).

(** In [<a x='1'><b/></a>] with the filter that ignores [a], the begin
    callback has received [a] and the attribute callback has received
    [x] when the skip starts, and the skip calls no callback. *)
Lemma ignored_element_was_dispatched_witness :
  let r := listening "<a x='1'><b/></a>" (Some ignoring_a) in
  let n := mkNode BeginElement (mkName [] (runes "a"))
             [mkAttr (mkName [] (runes "x")) (runes "1")] [] false in
  let r1 := snd (next (list Event) r) in
  let r2 := snd (skipSubtree (list Event) n r1) in
  world (list Event) r1 =
    [EvBegin (mkName [] (runes "a")); EvAttr (mkName [] (runes "x")) (runes "1")] /\
  trace (list Event) r1 =
    [Dispatch (EvBegin (mkName [] (runes "a"))); Fired 1 None;
     Dispatch (EvAttr (mkName [] (runes "x")) (runes "1")); Fired 4 None] /\
  rounds (trace (list Event) r1) =
    rounds (trace (list Event) r) ++ EvBegin (NodeName n) :: map attr_event (Attrs n) /\
  trace (list Event) r2 = trace (list Event) r1 /\
  world (list Event) r2 = world (list Event) r1 /\
  silent_on (list Event) (listeners (list Event) r2) = false /\
  Read (list Event) r =
    match skipSubtree (list Event) n r1 with
    | (Some (Ok _), r3) => Read (list Event) r3
    | (Some (Err e'), r3) => (Some (Ok (None, Some e')), r3)
    | (None, r3) => (None, r3)
    end.
Proof.
  intros r n r1 r2.
  destruct (ignored_element_was_dispatched (list Event) r n r1 ErrIgnore
              (world (list Event) r1))
    as (Hr & _ & Hc & Ht & Hd2 & Hs & HR).
  - reflexivity.
  - vm_compute. reflexivity.
  - reflexivity.
  - reflexivity.
  - vm_compute. reflexivity.
  - reflexivity.
  - assert (with_world (list Event) r1 (world (list Event) r1) = r1) as Hw
      by (vm_compute; reflexivity).
    rewrite Hw in Ht, Hd2, Hs, HR.
    destruct Hc as (Htr & Hwd & _);
      [apply calm_hears; reflexivity | apply calm_hears; reflexivity |].
    split; [exact Hwd|].
    split; [exact Htr|].
    split; [exact Hr|].
    split; [exact Ht|].
    split; [exact (f_equal (fun d => snd (fst d)) Hd2)|].
    split; [exact Hs | exact HR].
Defined.

(** [<b/><c/>]: with either filter the first [Read] drops [b] and goes
    on from the reader after it. *)
Lemma ignore_of_other_tokens_is_skip_witness :
  (let r := New unit (runes "<b/><c/>") (Some ignore_all) tt in
   skipSubtree unit (element "b" true) (with_world unit (snd (next unit r)) tt) =
     (Some (Ok tt), with_world unit (snd (next unit r)) tt) /\
   Read unit r = Read unit (with_world unit (snd (next unit r)) tt)) /\
  (let r := New unit (runes "<b/><c/>") (Some skip_all) tt in
   Read unit r = Read unit (with_world unit (snd (next unit r)) tt)).
Proof.
  destruct (ignore_of_other_tokens_is_skip unit) as (H1 & H2). split.
  - intros r. apply (H1 r (element "b" true) (snd (next unit r)) ErrIgnore tt).
    + vm_compute. reflexivity.
    + vm_compute. reflexivity.
    + reflexivity.
    + right. reflexivity.
  - intros r. apply (H2 r (element "b" true) (snd (next unit r)) ErrSkip tt).
    + vm_compute. reflexivity.
    + vm_compute. reflexivity.
    + reflexivity.
    + reflexivity.
Defined.

(** ** Runs of the further properties *)

(** [ab]: a read that is given back leaves the input as it was, and a
    peek shows the [a]; at the end of the input a peek shows 0. *)
Lemma read_unread_peek_witness :
  fst (peek unit (New unit (runes "ab") None tt)) = Some (Ok 97) /\
  fst (peek unit (New unit [] None tt)) = Some (Ok 0).
Proof.
  destruct (read_unread_peek unit) as (H1 & H2). split.
  - destruct (H1 (New unit (runes "ab") None tt) 97 [98] eq_refl) as (_ & Hp & _).
    now rewrite Hp.
  - destruct (H2 (New unit [] None tt) eq_refl) as (_ & Hp & _).
    now rewrite Hp.
Defined.

(** [ab>] is a local name, [x:y>] a name with a prefix, and [1a] is no
    name. *)
Lemma name_grammar_witness :
  fst (parseName unit (New unit (runes "ab>") None tt)) =
    Some (Ok (mkName [] (runes "ab"))) /\
  fst (parseName unit (New unit (runes "x:y>") None tt)) =
    Some (Ok (mkName (runes "x") (runes "y"))) /\
  (exists e r', parseName unit (New unit (runes "1a") None tt) = (Some (Err e), r') /\
                errors_Is e ErrChar = true).
Proof.
  destruct (name_grammar unit) as (H1 & H2 & H3). split; [|split].
  - rewrite (H1 (New unit (runes "ab>") None tt) 97 [98] rangle []);
      [reflexivity | reflexivity | reflexivity | repeat constructor | reflexivity
      | discriminate].
  - rewrite (H2 (New unit (runes "x:y>") None tt) 120 [] 121 [] rangle []);
      [reflexivity | reflexivity | reflexivity | constructor | reflexivity
      | constructor | reflexivity].
  - apply (H3 (New unit (runes "1a") None tt) 49 [97]); reflexivity.
Defined.

(** An element that is pushed and popped leaves an empty stack empty;
    after [<a>] the close tag of [a] empties the stack and the close tag
    of [b] is a mismatch. *)
Lemma push_then_pop_witness :
  (let r := New unit [] None tt in
   bind unit (push unit (element "a" false)) (fun _ => pop unit (element "a" false)) r =
     (Some (Ok tt), r)) /\
  (let r := snd (next unit (New unit (runes "<a>") None tt)) in
   pop unit (element "a" false) r = (Some (Ok tt), with_stack unit r []) /\
   exists e, pop unit (element "b" false) r = (Some (Err e), r) /\
             errors_Is e ErrMalformed = true).
Proof.
  destruct (push_then_pop unit) as (H1 & _ & H3 & H4). split.
  - intros r. apply H1. reflexivity.
  - intros r. split.
    + apply (H3 r (element "a" false) []). vm_compute. reflexivity.
    + apply (H4 r (element "b" false) [] (mkName [] (runes "a"))).
      * vm_compute. reflexivity.
      * discriminate.
Defined.

(** [&amp;] is decoded as [&]. *)
Lemma named_entities_decode_witness :
  fst (parseEntity unit (New unit (runes "amp;x") None tt)) = Some (Ok ampersand).
Proof.
  rewrite (named_entities_decode unit (New unit (runes "amp;x") None tt)
             (runes "amp") ampersand (runes "x")).
  - reflexivity.
  - do 4 right. left. reflexivity.
  - reflexivity.
Defined.

(** [&#x41;] is decoded as the code point 65, and [&#x;] is a syntax
    error. *)
Lemma hex_entity_value_witness :
  fst (parseEntity unit (New unit (runes "#x41;") None tt)) = Some (Ok 65) /\
  fst (parseEntity unit (New unit (runes "#x;") None tt)) =
    Some (Err (NumError [] ErrSyntax)).
Proof.
  destruct (hex_entity_value unit) as (H1 & H2). split.
  - rewrite (H1 (New unit (runes "#x41;") None tt) 52 [49] []);
      [reflexivity | repeat constructor | reflexivity].
  - rewrite (H2 (New unit (runes "#x;") None tt) []); reflexivity.
Defined.

(** [&#965;] is decoded as the code point 65: the 9 is not part of the
    number. [&#9;] is a syntax error. *)
Lemma decimal_entity_value_witness :
  fst (parseEntity unit (New unit (runes "#965;") None tt)) = Some (Ok 65) /\
  fst (parseEntity unit (New unit (runes "#9;") None tt)) =
    Some (Err (NumError [] ErrSyntax)).
Proof.
  destruct (decimal_entity_value unit) as (H1 & H2). split.
  - rewrite (H1 (New unit (runes "#965;") None tt) 57 54 [53] []);
      [reflexivity | discriminate | repeat constructor | reflexivity].
  - rewrite (H2 (New unit (runes "#9;") None tt) 57 []);
      [reflexivity | discriminate | reflexivity].
Defined.

(** The attributes [x] and [y] of [<a x='1' y='2'>]. *)
Lemma attribute_names_distinct_witness :
  let n := mkNode BeginElement (mkName [] (runes "a"))
             [mkAttr (mkName [] (runes "x")) (runes "1");
              mkAttr (mkName [] (runes "y")) (runes "2")] [] false in
  NoDup (map AttrName (Attrs n)) /\ NoDup (map AttrName (Attrs n)).
Proof.
  intros n. destruct (attribute_names_distinct unit) as (H1 & H2). split.
  - apply (H1 (New unit (runes "<a x='1' y='2'>") None tt) n
              (snd (next unit (New unit (runes "<a x='1' y='2'>") None tt)))).
    vm_compute. reflexivity.
  - apply (H2 (New unit (runes "<a x='1' y='2'>") None tt) n None
              (snd (Read unit (New unit (runes "<a x='1' y='2'>") None tt)))).
    vm_compute. reflexivity.
Defined.

(** Without a filter the first [Read] of [<a/>] is its first scan
    step. *)
Lemma Read_keepAll_witness :
  let r := New unit (runes "<a/>") None tt in
  Read unit r =
    match next unit r with
    | (Some (Ok n), r') => (Some (Ok (Some n, None)), r')
    | (Some (Err e), r') => (Some (Ok (None, Some e)), r')
    | (None, r') => (None, r')
    end.
Proof.
  intros r. destruct (Read_keepAll unit) as (H1 & H2).
  apply H2. apply (H1 (runes "<a/>") tt).
Defined.

(** ['a b' x] is the value [a b]; [x] is no value; ['ab] is not
    closed. *)
Lemma quoted_value_witness :
  fst (parseValue unit (New unit (runes "'a b' x") None tt)) = Some (Ok (runes "a b")) /\
  (exists e,
     parseValue unit (New unit (runes "x") None tt) =
       (Some (Err e), with_rs unit (New unit (runes "x") None tt) (mkBufio [] (Some 120))) /\
     errors_Is e ErrChar = true) /\
  fst (parseValue unit (New unit (runes "'ab") None tt)) = Some (Err io_EOF).
Proof.
  destruct (quoted_value unit) as (H1 & H2 & H3). split; [|split].
  - rewrite (H1 (New unit (runes "'a b' x") None tt) squote (runes "a b") (runes " x"));
      [reflexivity | reflexivity | | reflexivity].
    repeat (constructor; [split; discriminate|]). constructor.
  - apply (H2 (New unit (runes "x") None tt) 120 []); reflexivity.
  - rewrite (H3 (New unit (runes "'ab") None tt) squote (runes "ab"));
      [reflexivity | reflexivity | | reflexivity].
    repeat (constructor; [split; discriminate|]). constructor.
Defined.

Ltac plain_runes := repeat (constructor; [split; discriminate|]); constructor.

(** [hi <a/>] starts with the text [hi], which the text callback
    receives; the text [tail] that no tag follows is dropped, and [Run]
    returns nil. *)
Lemma text_token_witness :
  (let r := New unit (runes "hi <a/>") None tt in
   fst (next unit r) = Some (Ok (mkNode Text (mkName [] []) [] (runes "hi") false)) /\
   rs unit (snd (next unit r)) = mkBufio (runes "<a/>") None) /\
  (let r := New unit (runes "tail") None tt in
   fst (next unit r) = Some (Err io_EOF) /\
   fst (Run unit r) = Some (Ok None) /\
   trace unit (snd (Run unit r)) = []) /\
  (let r := listening "hi <a/>" None in
   fst (next (list Event) r) =
     Some (Ok (mkNode Text (mkName [] []) [] (runes "hi") false)) /\
   world (list Event) (snd (next (list Event) r)) = [EvText (runes "hi")] /\
   trace (list Event) (snd (next (list Event) r)) =
     [Dispatch (EvText (runes "hi")); Fired 3 None]).
Proof.
  split; [|split].
  - destruct (text_token unit) as (H1 & _). intros r.
    destruct (H1 r (runes "hi ") (runes "a/>")) as (_ & H & _).
    + discriminate.
    + plain_runes.
    + reflexivity.
    + apply H. reflexivity.
  - destruct (text_token unit) as (_ & H2).
    intros r. destruct (H2 r) as (Hn & _ & HR).
    + plain_runes.
    + rewrite Hn, HR. split; [reflexivity | split; reflexivity].
  - destruct (text_token (list Event)) as (H1 & _). intros r.
    destruct (H1 r (runes "hi ") (runes "a/>")) as (_ & _ & _ & _ & Hd).
    + discriminate.
    + plain_runes.
    + reflexivity.
    + destruct (Hd eq_refl) as (Hdisp & Hn).
      split; [exact Hn|].
      split; [exact (f_equal (fun d => snd (fst d)) Hdisp)
             | exact (f_equal (fun d => fst (fst d)) Hdisp)].
Defined.

(** [<1>], [<!x] and [<!-x] start no tag. *)
Lemma bad_tag_start_witness :
  fst (next unit (New unit (runes "<1>") None tt)) = Some (Err (unexpectedChar 49)) /\
  fst (next unit (New unit (runes "<!x") None tt)) = Some (Err (unexpectedChar 120)) /\
  fst (next unit (New unit (runes "<!-x") None tt)) = Some (Err (unexpectedChar hyphen)).
Proof.
  destruct (bad_tag_start unit) as (H1 & H2 & H3 & _). split; [|split].
  - rewrite (H1 (New unit (runes "<1>") None tt) 49 (runes ">"));
      [reflexivity | reflexivity | discriminate | discriminate | discriminate | reflexivity].
  - rewrite (H2 (New unit (runes "<!x") None tt) 120 []);
      [reflexivity | reflexivity | discriminate | discriminate].
  - rewrite (H3 (New unit (runes "<!-x") None tt) 120 []);
      [reflexivity | reflexivity | discriminate].
Defined.

Lemma well_formed_local (c : Z) (tl : list Z) :
  isLetter c = true -> Forall (fun x => isName x = true) tl ->
  well_formed (mkName [] (c :: tl)).
Proof.
  intros Hc Htl. split; [|now left]. exists c, tl. repeat split; assumption.
Qed.

(** After [<a>], the close tag [</a>] is returned and empties the
    stack, and the end callback receives [a]. *)
Lemma close_tag_witness :
  (let r := snd (next unit (New unit (runes "<a></a>") None tt)) in
   fst (next unit r) = Some (Ok (mkNode EndElement (mkName [] (runes "a")) [] [] false)) /\
   stack unit (snd (next unit r)) = []) /\
  (let r := snd (next (list Event) (listening "<a></a>" None)) in
   world (list Event) r = [EvBegin (mkName [] (runes "a"))] /\
   world (list Event) (snd (next (list Event) r)) =
     [EvBegin (mkName [] (runes "a")); EvEnd (mkName [] (runes "a"))] /\
   trace (list Event) (snd (next (list Event) r)) =
     [Dispatch (EvBegin (mkName [] (runes "a"))); Fired 1 None;
      Dispatch (EvEnd (mkName [] (runes "a"))); Fired 2 None]).
Proof.
  split.
  - intros r.
    destruct (close_tag unit r (mkName [] (runes "a")) [] []) as (_ & H & _).
    + apply well_formed_local; [reflexivity | constructor].
    + constructor.
    + vm_compute. reflexivity.
    + destruct H as (H & _).
      * vm_compute. reflexivity.
      * destruct (H []) as (Hn & Hs & _); [vm_compute; reflexivity|].
        split; assumption.
  - intros r.
    destruct (close_tag (list Event) r (mkName [] (runes "a")) [] [])
      as (_ & _ & _ & Hd).
    + apply well_formed_local; [reflexivity | constructor].
    + constructor.
    + vm_compute. reflexivity.
    + destruct (Hd eq_refl) as (Hdisp & _).
      split; [vm_compute; reflexivity|].
      split; [exact (f_equal (fun d => snd (fst d)) Hdisp)
             | exact (f_equal (fun d => fst (fst d)) Hdisp)].
Defined.

(** The two attributes of [<a x='1' y = '2'/>]. *)
Definition x_is_1 : AttrText :=
  mkAttrText (mkName [] (runes "x")) [] [] squote (runes "1") [space].

Definition y_is_2 : AttrText :=
  mkAttrText (mkName [] (runes "y")) [space] [space] squote (runes "2") [].

Lemma spelled_x_is_1 : spelled x_is_1.
Proof.
  split; [apply well_formed_local; [reflexivity | constructor]|].
  split; [constructor|]. split; [constructor|]. split; [repeat constructor|].
  split; [reflexivity | plain_runes].
Qed.

Lemma spelled_y_is_2 : spelled y_is_2.
Proof.
  split; [apply well_formed_local; [reflexivity | constructor]|].
  split; [repeat constructor|]. split; [repeat constructor|]. split; [constructor|].
  split; [reflexivity | plain_runes].
Qed.

Lemma calm_nil (A : Type) : calm unit (@nil (Listener unit A)).
Proof. intros fn a w []. Qed.

(** [<a x='1' y = '2'/>] is a self-closing begin-element with the
    attributes [x] and [y]; the begin callback receives [a], and then the
    attribute callback receives [x] and [y]. *)
Lemma open_tag_witness :
  (let r := New unit (runes "<a x='1' y = '2'/> ") None tt in
   fst (next unit r) =
     Some (Ok (mkNode BeginElement (mkName [] (runes "a"))
                 [mkAttr (mkName [] (runes "x")) (runes "1");
                  mkAttr (mkName [] (runes "y")) (runes "2")] [] true)) /\
   rs unit (snd (next unit r)) = mkBufio [] None /\
   stack unit (snd (next unit r)) = [] /\
   rounds (trace unit (snd (next unit r))) =
     [EvBegin (mkName [] (runes "a"));
      EvAttr (mkName [] (runes "x")) (runes "1");
      EvAttr (mkName [] (runes "y")) (runes "2")]) /\
  (let r := listening "<a x='1' y = '2'/> " None in
   world (list Event) (snd (next (list Event) r)) =
     [EvBegin (mkName [] (runes "a"));
      EvAttr (mkName [] (runes "x")) (runes "1");
      EvAttr (mkName [] (runes "y")) (runes "2")] /\
   trace (list Event) (snd (next (list Event) r)) =
     [Dispatch (EvBegin (mkName [] (runes "a"))); Fired 1 None;
      Dispatch (EvAttr (mkName [] (runes "x")) (runes "1")); Fired 4 None;
      Dispatch (EvAttr (mkName [] (runes "y")) (runes "2")); Fired 4 None]).
Proof.
  split.
  - intros r.
    destruct (open_tag unit r (mkName [] (runes "a")) [space] [x_is_1; y_is_2] true [space])
      as (Hn & Hrs & Hst & _ & Hr & _).
    + apply well_formed_local; [reflexivity | constructor].
    + repeat constructor.
    + right. discriminate.
    + constructor; [apply spelled_x_is_1 | constructor; [apply spelled_y_is_2 | constructor]].
    + repeat constructor; simpl; intuition discriminate.
    + apply calm_nil.
    + apply calm_nil.
    + vm_compute. reflexivity.
    + split; [exact Hn|]. split; [exact Hrs|]. split; [exact Hst|].
      apply Hr. reflexivity.
  - intros r.
    destruct (open_tag (list Event) r (mkName [] (runes "a")) [space] [x_is_1; y_is_2]
                true [space])
      as (_ & _ & _ & _ & _ & Hd).
    + apply well_formed_local; [reflexivity | constructor].
    + repeat constructor.
    + right. discriminate.
    + constructor; [apply spelled_x_is_1 | constructor; [apply spelled_y_is_2 | constructor]].
    + repeat constructor; simpl; intuition discriminate.
    + apply calm_hears. reflexivity.
    + apply calm_hears. reflexivity.
    + vm_compute. reflexivity.
    + pose proof (Hd eq_refl) as Hdisp.
      split; [exact (f_equal (fun d => snd (fst d)) Hdisp)
             | exact (f_equal (fun d => fst (fst d)) Hdisp)].
Defined.

(** [<a x='1' x='2'>] repeats the attribute [x]. *)
Lemma duplicate_attribute_witness :
  let r := New unit (runes "<a x='1' x='2'>") None tt in
  (exists e, fst (next unit r) = Some (Err e) /\ errors_Is e ErrMalformed = true) /\
  stack unit (snd (next unit r)) = [].
Proof.
  intros r.
  destruct (duplicate_attribute unit r (mkName [] (runes "a")) [space] [x_is_1]
              (mkName [] (runes "x")) equal (runes "'2'>")) as (Hn & He & Hs).
  - apply well_formed_local; [reflexivity | constructor].
  - repeat constructor.
  - discriminate.
  - constructor; [apply spelled_x_is_1 | constructor].
  - repeat constructor. simpl. tauto.
  - left. reflexivity.
  - apply well_formed_local; [reflexivity | constructor].
  - reflexivity.
  - discriminate.
  - apply calm_nil.
  - apply calm_nil.
  - vm_compute. reflexivity.
  - split; [eexists; split; [exact Hn | exact He] | exact Hs].
Defined.

Definition version_is_1 : AttrText :=
  mkAttrText (mkName [] (runes "version")) [] [] squote (runes "1.0") [].

Lemma spelled_version_is_1 : spelled version_is_1.
Proof.
  split; [apply well_formed_local; [reflexivity | repeat constructor]|].
  split; [constructor|]. split; [constructor|]. split; [constructor|].
  split; [reflexivity | plain_runes].
Qed.

Definition hears_inst (t : nat) : Listener (list Event) Name :=
  mkListener t (fun n w => (None, w ++ [EvInst n])).

(** [<?xml version='1.0'?>] is a processing instruction with one
    attribute; the instruction callback receives [xml], and then the
    attribute callback receives [version]. *)
Lemma instruction_tag_witness :
  (let r := New unit (runes "<?xml version='1.0'?>") None tt in
   fst (next unit r) =
     Some (Ok (mkNode ProcInst (mkName [] (runes "xml"))
                 [mkAttr (mkName [] (runes "version")) (runes "1.0")] [] true)) /\
   stack unit (snd (next unit r)) = []) /\
  (let r := OnInstruction (list Event) (hears_inst 6)
              (listening "<?xml version='1.0'?>" None) in
   world (list Event) (snd (next (list Event) r)) =
     [EvInst (mkName [] (runes "xml"));
      EvAttr (mkName [] (runes "version")) (runes "1.0")] /\
   trace (list Event) (snd (next (list Event) r)) =
     [Dispatch (EvInst (mkName [] (runes "xml"))); Fired 6 None;
      Dispatch (EvAttr (mkName [] (runes "version")) (runes "1.0")); Fired 4 None]).
Proof.
  split.
  - intros r.
    destruct (instruction_tag unit r (mkName [] (runes "xml")) [space] [version_is_1] [])
      as (Hn & _ & Hs & _).
    + apply well_formed_local; [reflexivity | repeat constructor].
    + repeat constructor.
    + right. discriminate.
    + constructor; [apply spelled_version_is_1 | constructor].
    + repeat constructor. simpl. tauto.
    + apply calm_nil.
    + apply calm_nil.
    + vm_compute. reflexivity.
    + split; [exact Hn | exact Hs].
  - intros r.
    destruct (instruction_tag (list Event) r (mkName [] (runes "xml")) [space]
                [version_is_1] [])
      as (_ & _ & _ & _ & Hd).
    + apply well_formed_local; [reflexivity | repeat constructor].
    + repeat constructor.
    + right. discriminate.
    + constructor; [apply spelled_version_is_1 | constructor].
    + repeat constructor. simpl. tauto.
    + apply calm_hears. reflexivity.
    + apply calm_hears. reflexivity.
    + vm_compute. reflexivity.
    + pose proof (Hd eq_refl) as Hdisp.
      split; [exact (f_equal (fun d => snd (fst d)) Hdisp)
             | exact (f_equal (fun d => fst (fst d)) Hdisp)].
Defined.

(** [<!-- hi -->] is the comment [hi], which the comment callback
    receives and the text callback does not. *)
Lemma comment_token_witness :
  (let r := New unit (runes "<!-- hi --> <a/>") None tt in
   fst (next unit r) = Some (Ok (mkNode Comment (mkName [] []) [] (runes "hi") true)) /\
   rounds (trace unit (snd (next unit r))) = [EvComment (runes "hi")] /\
   pending (rs unit (snd (next unit r))) = runes "<a/>") /\
  (let r := listening "<!-- hi --> <a/>" None in
   fst (next (list Event) r) =
     Some (Ok (mkNode Comment (mkName [] []) [] (runes "hi") true)) /\
   world (list Event) (snd (next (list Event) r)) = [EvComment (runes "hi")] /\
   trace (list Event) (snd (next (list Event) r)) =
     [Dispatch (EvComment (runes "hi")); Fired 5 None]).
Proof.
  split.
  - intros r.
    destruct (comment_token unit r (runes " hi ") (runes " <a/>") eq_refl eq_refl)
      as (_ & Hn & Hr & _ & Hp & _).
    split; [apply Hn; reflexivity|].
    split; [apply Hr; reflexivity | exact Hp].
  - intros r.
    destruct (comment_token (list Event) r (runes " hi ") (runes " <a/>") eq_refl eq_refl)
      as (_ & _ & _ & _ & _ & Hd).
    destruct (Hd eq_refl) as (Hdisp & Hn).
    split; [exact Hn|].
    split; [exact (f_equal (fun d => snd (fst d)) Hdisp)
           | exact (f_equal (fun d => fst (fst d)) Hdisp)].
Defined.

(** The value ['x&amp;&apos;y'] is [x&'y], and the text [a&lt;b] before
    a tag is [a<b]. *)
Lemma entities_in_text_witness :
  fst (parseValue unit (New unit (runes "'x&amp;&apos;y' z") None tt)) =
    Some (Ok (runes "x&'y")) /\
  fst (next unit (New unit (runes "a&lt;b<c/>") None tt)) =
    Some (Ok (mkNode Text (mkName [] []) [] (runes "a<b") false)).
Proof.
  destruct (entities_in_text unit) as (H1 & H2). split.
  - rewrite (H1 (New unit (runes "'x&amp;&apos;y' z") None tt) squote
               [Plain 120; Ref (runes "amp") ampersand; Ref (runes "apos") squote; Plain 121]
               (runes " z")).
    + reflexivity.
    + reflexivity.
    + constructor; [split; discriminate|].
      constructor; [do 4 right; left; reflexivity|].
      constructor; [right; left; reflexivity|].
      constructor; [split; discriminate | constructor].
    + reflexivity.
  - rewrite (H2 (New unit (runes "a&lt;b<c/>") None tt)
               [Plain 97; Ref (runes "lt") langle; Plain 98] (runes "c/>")).
    + reflexivity.
    + discriminate.
    + constructor; [split; discriminate|].
      constructor; [do 2 right; left; reflexivity|].
      constructor; [split; discriminate | constructor].
    + reflexivity.
Defined.

Lemma calm_quiet (A : Type) (t : nat) : calm unit [@quiet A t].
Proof. intros fn a w [<- | []]. reflexivity. Qed.

(** A second callback for begin events is called after the first. *)
Lemma registration_order_witness :
  let r := OnBeginElement unit (quiet 1) (New unit [] None tt) in
  exists r',
    emitBegin unit (mkName [] (runes "a")) (OnBeginElement unit (quiet 2) r) =
      (Some (Ok None), r') /\
    trace unit r' =
      [Dispatch (EvBegin (mkName [] (runes "a"))); Fired 1 None; Fired 2 None].
Proof.
  intros r. destruct (registration_order unit) as (H & _).
  apply (H r (mkName [] (runes "a")) (quiet 2)).
  - reflexivity.
  - apply calm_quiet.
  - apply calm_quiet.
Defined.

(** In [<a><a/><b>t</b></a>] the skip of the outer [a] ends after
    [<a/>], at depth 1. *)
Lemma skip_ends_at_recorded_depth_witness :
  let r := snd (next unit (observed "<a><a/><b>t</b></a>" (Some ignore_a))) in
  let r' := snd (skipSubtree unit (element "a" false) r) in
  Depth unit r' = Depth unit r /\
  exists r0 c r1,
    next unit r0 = (Some (Ok c), r1) /\
    NodeName c = NodeName (element "a" false) /\
    Depth unit r1 = Depth unit r /\
    stack unit r' = stack unit r1.
Proof.
  intros r r'.
  destruct (skip_ends_at_recorded_depth unit (element "a" false) r r') as (Hd & H).
  - vm_compute. reflexivity.
  - split; [exact Hd | apply H; reflexivity].
Defined.
